(** * Retrieval engine of the burnout-ai-agent repository

    A shallow embedding of the retrieval core:
    - [cosineSimilarity], [loadBookChunks], [searchBookChunks]
      (src/lib/local-storage.js),
    - [splitTextIntoChunks] and its helpers (src/scripts/ingest-books.js),
    - the [POST] handler of the chat route (src/app/api/chat/route.js) with
      the Supabase flavour of [searchBookChunks] (lib/supabase.js),
    - [processBookToSupabase] and its helpers (scripts/upload-to-supabase.js),
    and of what surrounds it:
    - [getBookStats] (src/lib/local-storage.js) and the [POST] handler of
      the chat route that reads the local store,
    - [generateChunkId], [processBook] and [ingestBooks] of the local
      ingestion (src/scripts/ingest-books.js), [processBook] of the
      ingestion script with EPUB support, and the loop of
      [uploadBooksToSupabase] (scripts/upload-to-supabase.js).

    JavaScript numbers are kept abstract behind the class [JSNumber], which
    lists the operations the sources use.  Two instances are given: the
    real numbers (exact arithmetic, used for the general theorems) and the
    kernel's binary64 floats (the arithmetic the program runs in, used to
    evaluate the code on concrete inputs). *)

From Stdlib Require Import String Ascii.
From Stdlib Require Import List ZArith NArith Bool Arith Lia.
From Stdlib Require Import Floats.
From Stdlib Require Import Reals Lra.
From Stdlib Require Import Sorted Permutation.
From Stdlib Require Import DecimalString DecimalNat.
Import ListNotations.
#[local] Close Scope R_scope.
#[local] Open Scope nat_scope.

Set Implicit Arguments.
#[local] Set Warnings "-inexact-float,-register-all".

(** ** Exceptions *)

(** A JavaScript [Error]; only its message is observed by the sources. *)
Record Error := mkError { message : string }.

(** The outcome of a call that may throw. *)
Inductive result (A : Type) : Type :=
| Ok (a : A)
| Throw (e : Error).
Arguments Ok {A} a.
Arguments Throw {A} e.

Definition bind {A B} (r : result A) (k : A -> result B) : result B :=
  match r with
  | Ok a => k a
  | Throw e => Throw e
  end.

Notation "x <- r ;; k" := (bind r (fun x => k))
  (at level 61, r at next level, right associativity).

(** [Array.prototype.map] with a callback that may throw: the first
    exception aborts the traversal. *)
Fixpoint map_result {A B} (f : A -> result B) (l : list A) : result (list B) :=
  match l with
  | [] => Ok []
  | x :: l' => y <- f x ;; ys <- map_result f l' ;; Ok (y :: ys)
  end.

(** ** JavaScript numbers *)

Class JSNumber (num : Type) : Type := {
  num_of_Z : Z -> num;                 (* an integer literal *)
  num_add : num -> num -> num;         (* a + b *)
  num_sub : num -> num -> num;         (* a - b *)
  num_mul : num -> num -> num;         (* a * b *)
  num_div : num -> num -> num;         (* a / b *)
  num_sqrt : num -> num;               (* Math.sqrt *)
  num_round : num -> num;              (* Math.round *)
  num_eqb : num -> num -> bool;        (* a === b *)
  num_ltb : num -> num -> bool;        (* a < b *)
  num_leb : num -> num -> bool         (* a <= b *)
}.

Declare Scope js_scope.
Delimit Scope js_scope with js.
Infix "+" := num_add : js_scope.
Infix "-" := num_sub : js_scope.
Infix "*" := num_mul : js_scope.
Infix "/" := num_div : js_scope.
Infix "===" := num_eqb (at level 70, no associativity) : js_scope.
Infix "<?" := num_ltb : js_scope.
Infix "<=?" := num_leb : js_scope.

(** A decimal literal [n/d], e.g. [0.3] is [decimal 3 10]: the number closest
    to the quotient, which is what dividing two exact integers yields. *)
Definition decimal {num} `{JSNumber num} (n d : Z) : num :=
  (num_of_Z n / num_of_Z d)%js.

(** *** Exact arithmetic: the real numbers *)

Definition Reqb (x y : R) : bool := if Req_dec_T x y then true else false.
Definition Rltb (x y : R) : bool := if Rlt_dec x y then true else false.
Definition Rleb (x y : R) : bool := if Rle_dec x y then true else false.

(** [Math.round] rounds to the nearest integer, halves towards +infinity:
    it is the floor of [x + 1/2]. *)
Definition Rround (x : R) : R := IZR (up (x + / 2)%R - 1).

#[export] Instance R_JSNumber : JSNumber R := {|
  num_of_Z := IZR;
  num_add := Rplus;
  num_sub := Rminus;
  num_mul := Rmult;
  num_div := Rdiv;
  num_sqrt := sqrt;
  num_round := Rround;
  num_eqb := Reqb;
  num_ltb := Rltb;
  num_leb := Rleb
|}.

(** *** Machine arithmetic: IEEE 754 binary64 *)

Definition float_of_Z (z : Z) : float :=
  match z with
  | Z0 => PrimFloat.zero
  | Zpos _ => PrimFloat.of_uint63 (Uint63.of_Z z)
  | Zneg p => PrimFloat.opp (PrimFloat.of_uint63 (Uint63.of_Z (Zpos p)))
  end.

(** [Math.round] on a binary64 value, through its exact mantissa and
    exponent: values without a fractional part (and NaN, the infinities and
    the zeros) are returned unchanged. *)
Definition float_round (x : float) : float :=
  match Prim2SF x with
  | S754_finite s m e =>
      if (0 <=? e)%Z then x
      else
        let d := Z.pow 2 (- e) in
        let v := if s then Z.neg m else Z.pos m in
        let n := Z.div (2 * v + d) (2 * d) in
        if (n =? 0)%Z then (if s then PrimFloat.neg_zero else PrimFloat.zero)
        else float_of_Z n
  | _ => x
  end.

#[export] Instance float_JSNumber : JSNumber float := {|
  num_of_Z := float_of_Z;
  num_add := PrimFloat.add;
  num_sub := PrimFloat.sub;
  num_mul := PrimFloat.mul;
  num_div := PrimFloat.div;
  num_sqrt := PrimFloat.sqrt;
  num_round := float_round;
  num_eqb := PrimFloat.eqb;
  num_ltb := PrimFloat.ltb;
  num_leb := PrimFloat.leb
|}.

(** ** lib/local-storage.js: cosine similarity *)

Section CosineSimilarity.
Context {num : Type} `{JSNumber num}.

Definition zero : num := num_of_Z 0.

(** One turn of the [for] loop: the three running sums. *)
Definition cosine_step (acc : num * num * num) (ab : num * num)
  : num * num * num :=
  let '(dotProduct, normA, normB) := acc in
  let '(a, b) := ab in
  (dotProduct + a * b, normA + a * a, normB + b * b)%js.

Definition cosine_sums (vecA vecB : list num) : num * num * num :=
  fold_left cosine_step (combine vecA vecB) (zero, zero, zero).

Definition cosineSimilarity (vecA vecB : list num) : result num :=
  if negb (length vecA =? length vecB) then
    Throw (mkError "Vectors must have the same length"%string)
  else
    let '(dotProduct, normA, normB) := cosine_sums vecA vecB in
    let normA := num_sqrt normA in
    let normB := num_sqrt normB in
    if (normA === zero)%js || (normB === zero)%js then Ok zero
    else Ok (dotProduct / (normA * normB))%js.
End CosineSimilarity.

(** ** JavaScript strings and arrays *)

(** A string is its sequence of UTF-16 code units; [length] is the number of
    code units, as [String.prototype.length] is. *)
Definition char : Type := N.
Definition jsstring : Type := list char.

(** An ASCII literal as a JavaScript string. *)
Definition js (s : string) : jsstring := map N_of_ascii (list_ascii_of_string s).

(** The code units that [String.prototype.trim] strips and that the regular
    expression class [\s] matches: WhiteSpace and LineTerminator. *)
Definition is_space (c : char) : bool :=
  ((9 <=? c) && (c <=? 13) || (c =? 32) || (c =? 160) || (c =? 5760)
   || (8192 <=? c) && (c <=? 8202) || (c =? 8232) || (c =? 8233)
   || (c =? 8239) || (c =? 8287) || (c =? 12288) || (c =? 65279))%N.

(** The class [[.!?]] of the sentence splitter. *)
Definition is_terminator (c : char) : bool :=
  ((c =? 46) || (c =? 33) || (c =? 63))%N.

Definition SPACE : char := 32%N.
Definition FULL_STOP : char := 46%N.

Fixpoint drop_while {A} (p : A -> bool) (l : list A) : list A :=
  match l with
  | [] => []
  | x :: l' => if p x then drop_while p l' else l
  end.

(** The list without its longest end of elements satisfying [p]. *)
Fixpoint drop_while_end {A} (p : A -> bool) (l : list A) : list A :=
  match l with
  | [] => []
  | x :: l' =>
      match drop_while_end p l' with
      | [] => if p x then [] else [x]
      | kept => x :: kept
      end
  end.

(** [String.prototype.trim]. *)
Definition trim (s : jsstring) : jsstring :=
  drop_while_end is_space (drop_while is_space s).

(** [s.split(/[sep]+/)]: the pieces between maximal runs of separator code
    units.  A separator run at either end yields an empty piece there, and
    the empty string yields one empty piece. *)
Fixpoint split_on (sep : char -> bool) (s : jsstring) : list jsstring :=
  match s with
  | [] => [[]]
  | c :: s' =>
      let pieces := split_on sep s' in
      if sep c then
        match s' with
        | c' :: _ => if sep c' then pieces else [] :: pieces
        | [] => [] :: pieces
        end
      else
        match pieces with
        | piece :: rest => (c :: piece) :: rest
        | [] => [[c]]
        end
  end.

(** [words.join(sep)]. *)
Fixpoint join (sep : jsstring) (pieces : list jsstring) : jsstring :=
  match pieces with
  | [] => []
  | [piece] => piece
  | piece :: rest => piece ++ sep ++ join sep rest
  end.

(** A relative index of [Array.prototype.slice]: negative indices count from
    the end, and the result is clamped to [0 .. len]. *)
Definition relative_index (len : nat) (i : Z) : nat :=
  if (i <? 0)%Z then Z.to_nat (Z.max (Z.of_nat len + i) 0)
  else Nat.min (Z.to_nat i) len.

(** [l.slice(start, stop)]; [stop = None] is [l.slice(start)]. *)
Definition slice {A} (start : Z) (stop : option Z) (l : list A) : list A :=
  let len := length l in
  let from := relative_index len start in
  let upto := match stop with
              | None => len
              | Some e => relative_index len e
              end in
  firstn (upto - from) (skipn from l).

(** [l.map((x, index) => f(index, x))], counting from [index]. *)
Fixpoint map_indexed {A B} (f : nat -> A -> B) (index : nat) (l : list A)
  : list B :=
  match l with
  | [] => []
  | x :: l' => f index x :: map_indexed f (S index) l'
  end.

(** [Array.prototype.sort(compare)].  ECMAScript requires the sort to be
    stable and, for a consistent comparator, to return the elements in
    comparator order; that list is unique and is the one stable insertion
    computes.  [x] is placed after [y] exactly when [compare(x, y) > 0]. *)
Section Sort.
Context {num : Type} `{JSNumber num} {A : Type}.
Variable compare : A -> A -> num.

Fixpoint sort_insert (x : A) (l : list A) : list A :=
  match l with
  | [] => [x]
  | y :: l' =>
      if (num_of_Z 0 <? compare x y)%js then y :: sort_insert x l'
      else x :: l
  end.

Definition sort (l : list A) : list A := fold_right sort_insert [] l.
End Sort.

(** ** lib/local-storage.js: the linear-scan store *)

(** The metadata bag the ingestion scripts write; the last four fields are
    written by some scripts only. *)
Record Metadata := {
  book_title : option jsstring;
  chunk_index : option Z;
  chunk_length : option Z;
  estimated_tokens : option Z;
  file_path : option jsstring;
  file_type : option jsstring;
  estimated_page : option Z;
  page_number : option Z;
  chapter : option jsstring;
  uploaded_at : option jsstring
}.

Section LocalStorage.
Context {num : Type} `{JSNumber num}.

Record Chunk := {
  id : option jsstring;
  content : jsstring;
  embedding : list num;
  metadata : Metadata
}.

(** [{ ...chunk, similarity }]. *)
Record ScoredChunk := {
  chunk : Chunk;
  similarity : num
}.

(** What [CHUNKS_FILE] holds when a request arrives. *)
Inductive ChunksFile :=
| FileMissing                        (* fs.existsSync is false *)
| FileUnreadable (e : Error)         (* readFileSync or JSON.parse throws *)
| FileChunks (chunks : list Chunk).  (* the parsed array *)

Definition loadBookChunks (file : ChunksFile) : list Chunk :=
  match file with
  | FileMissing => []
  | FileUnreadable _ => []
  | FileChunks chunks => chunks
  end.

Definition score (queryEmbedding : list num) (c : Chunk) : result ScoredChunk :=
  similarity <- cosineSimilarity queryEmbedding (embedding c) ;;
  Ok {| chunk := c; similarity := similarity |}.

(** The comparator [(a, b) => b.similarity - a.similarity]. *)
Definition by_similarity (a b : ScoredChunk) : num :=
  (similarity b - similarity a)%js.

(** The search; [matchThreshold <=? similarity c] is the test
    [chunk.similarity >= matchThreshold].  The defaults of the two last
    parameters (0.75 and 5) are for callers that pass none. *)
Definition searchBookChunks (file : ChunksFile) (queryEmbedding : list num)
    (matchThreshold : num) (matchCount : Z) : result (list ScoredChunk) :=
  let chunks := loadBookChunks file in
  if length chunks =? 0 then Ok []
  else
    similarities <- map_result (score queryEmbedding) chunks ;;
    let filtered :=
      slice 0 (Some matchCount)
        (sort by_similarity
           (filter (fun c => (matchThreshold <=? similarity c)%js)
              similarities)) in
    Ok filtered.
End LocalStorage.

Arguments Chunk num : clear implicits.
Arguments ScoredChunk num : clear implicits.
Arguments ChunksFile num : clear implicits.

(** ** scripts/ingest-books.js: the chunker *)

(** [Math.ceil(text.split(/\s+/).length / 0.75)].  The word count [n] is an
    array length, [0.75] is exact in binary64 and [n / 0.75] is the rounded
    quotient [4n/3], which is an integer or lies strictly between two
    integers, so its ceiling is the integer [ceil(4n/3)]. *)
Definition estimateTokens (text : jsstring) : Z :=
  (4 * Z.of_nat (length (split_on is_space text)) + 2) / 3.

(** [.replace(/<[^>]*>/g, '')]: a [<] starts a tag when a [>] follows
    somewhere; the tag runs to the first such [>]. *)
Definition is_lt (c : char) : bool := (c =? 60)%N.
Definition is_gt (c : char) : bool := (c =? 62)%N.

Fixpoint strip_tags (in_tag : bool) (s : jsstring) : jsstring :=
  match s with
  | [] => []
  | c :: s' =>
      if in_tag then strip_tags (negb (is_gt c)) s'
      else if is_lt c then
        (if existsb is_gt s' then strip_tags true s'
         else c :: strip_tags false s')
      else c :: strip_tags false s'
  end.

(** [.replace(/\s+/g, ' ')]. *)
Fixpoint collapse_spaces (s : jsstring) : jsstring :=
  match s with
  | [] => []
  | c :: s' =>
      if is_space c then
        match s' with
        | c' :: _ => if is_space c' then collapse_spaces s'
                     else SPACE :: collapse_spaces s'
        | [] => [SPACE]
        end
      else c :: collapse_spaces s'
  end.

Definition NEWLINE : char := 10%N.

(** For the text after a newline: when the white space that follows holds
    another newline, the text after the last such newline. *)
Fixpoint after_blank_lines (s : jsstring) : option jsstring :=
  match s with
  | [] => None
  | c :: s' =>
      if is_space c then
        match after_blank_lines s' with
        | Some r => Some r
        | None => if (c =? NEWLINE)%N then Some s' else None
        end
      else None
  end.

(** [.replace(/\n\s*\n/g, '\n')]. *)
Fixpoint collapse_blank_lines (fuel : nat) (s : jsstring) : jsstring :=
  match fuel, s with
  | S fuel', c :: s' =>
      if (c =? NEWLINE)%N then
        match after_blank_lines s' with
        | Some r => NEWLINE :: collapse_blank_lines fuel' r
        | None => c :: collapse_blank_lines fuel' s'
        end
      else c :: collapse_blank_lines fuel' s'
  | _, _ => []
  end.

Definition cleanText (text : jsstring) : jsstring :=
  let t1 := strip_tags false text in
  let t2 := collapse_spaces t1 in
  let t3 := collapse_blank_lines (length t2) t2 in
  trim t3.

Definition CHUNK_SIZE : Z := 400.
Definition CHUNK_OVERLAP : Z := 50.

(** [text.split(/[.!?]+/).filter(s => s.trim().length > 0)]. *)
Definition split_sentences (text : jsstring) : list jsstring :=
  filter (fun s => 0 <? length (trim s)) (split_on is_terminator text).

(** The variables of the loop. *)
Record Chunker := {
  chunks : list jsstring;
  currentChunk : jsstring;
  currentTokens : Z
}.

(** One turn of the loop over [sentences]. *)
Definition chunker_step (chunkSize overlap : Z) (st : Chunker) (s : jsstring)
  : Chunker :=
  let sentence := trim s ++ [FULL_STOP] in
  let sentenceTokens := estimateTokens sentence in
  if (chunkSize <? currentTokens st + sentenceTokens)%Z
     && (0 <? length (currentChunk st)) then
    let words := split_on is_space (currentChunk st) in
    let overlapWords := slice (- overlap) None words in
    let next := join [SPACE] overlapWords ++ [SPACE] ++ sentence in
    {| chunks := chunks st ++ [trim (currentChunk st)];
       currentChunk := next;
       currentTokens := estimateTokens next |}
  else
    {| chunks := chunks st;
       currentChunk :=
         currentChunk st
         ++ (if 0 <? length (currentChunk st) then [SPACE] else [])
         ++ sentence;
       currentTokens := (currentTokens st + sentenceTokens)%Z |}.

(** The array [chunks] when the function reaches its [return]: every
    finalized chunk, before the minimum-length filter. *)
Definition finalizedChunks (text : jsstring) (chunkSize overlap : Z)
  : list jsstring :=
  let st := fold_left (chunker_step chunkSize overlap) (split_sentences text)
              {| chunks := []; currentChunk := []; currentTokens := 0 |} in
  if 0 <? length (trim (currentChunk st))
  then chunks st ++ [trim (currentChunk st)]
  else chunks st.

Definition splitTextIntoChunks (text : jsstring) (chunkSize overlap : Z)
  : list jsstring :=
  filter (fun c => 50 <? length c) (finalizedChunks text chunkSize overlap).

(** ** The chat route: app/api/chat/route.js, lib/supabase.js, lib/openai.js *)

(** A value as [JSON.parse] or a property read yields it. *)
Inductive JSValue (num : Type) : Type :=
| JSUndefined
| JSNull
| JSBoolean (b : bool)
| JSNumberValue (n : num)
| JSString (s : jsstring)
| JSArray (items : list (JSValue num))
| JSObject (properties : list (jsstring * JSValue num)).
Arguments JSUndefined {num}.
Arguments JSNull {num}.
Arguments JSBoolean {num} b.
Arguments JSNumberValue {num} n.
Arguments JSString {num} s.
Arguments JSArray {num} items.
Arguments JSObject {num} properties.

Definition jsstring_eqb (a b : jsstring) : bool :=
  if list_eq_dec N.eq_dec a b then true else false.

Section ChatRoute.
Context {num : Type} `{JSNumber num}.

(** A row of the [match_book_chunks] remote procedure. *)
Record MatchRow := {
  row_id : jsstring;
  row_content : jsstring;
  row_metadata : option Metadata;
  row_similarity : num
}.

(** The [{ data, error }] pair a Supabase call resolves to. *)
Record RpcResponse := {
  data : option (list MatchRow);
  error : option Error
}.

(** The external services, as the answers they give. *)
Record Providers := {
  embeddings_create : jsstring -> result (list num);
  match_book_chunks : list num -> num -> Z -> RpcResponse;
  (* the chat completion, from the question and the chunks the prompt
     is built from *)
  chat_completions_create : jsstring -> list MatchRow -> result jsstring
}.

(** The calls that leave the process. *)
Inductive Call :=
| EmbeddingCall (input : jsstring)
| SearchCall (query_embedding : list num) (match_threshold : num)
             (match_count : Z)
| ChatCall (question : jsstring) (context : list MatchRow).

(** Computations that may throw and that log their external calls; the
    log survives an exception. *)
Definition IO (A : Type) : Type := list Call -> result A * list Call.

Definition ret {A} (a : A) : IO A := fun log => (Ok a, log).
Definition throw {A} (e : Error) : IO A := fun log => (Throw e, log).
Definition bindIO {A B} (m : IO A) (k : A -> IO B) : IO B :=
  fun log =>
    match m log with
    | (Ok a, log') => k a log'
    | (Throw e, log') => (Throw e, log')
    end.
Definition lift {A} (r : result A) : IO A := fun log => (r, log).
Definition call (c : Call) : IO unit := fun log => (Ok tt, log ++ [c]).
(** [try { m } catch (error) { handler(error) }] *)
Definition try_catch {A} (m : IO A) (handler : Error -> IO A) : IO A :=
  fun log =>
    match m log with
    | (Ok a, log') => (Ok a, log')
    | (Throw e, log') => handler e log'
    end.

Variable env : Providers.

(** lib/openai.js *)
Definition generateEmbedding (text : jsstring) : IO (list num) :=
  try_catch
    (bindIO (call (EmbeddingCall (trim text))) (fun _ =>
     lift (embeddings_create env (trim text))))
    (fun e => throw (mkError ("Failed to generate embedding: " ++ message e))).

Definition generateChatResponse (question : jsstring)
    (relevantChunks : list MatchRow) : IO jsstring :=
  try_catch
    (bindIO (call (ChatCall question relevantChunks)) (fun _ =>
     lift (chat_completions_create env question relevantChunks)))
    (fun e => throw (mkError ("Failed to generate response: " ++ message e))).

(** lib/supabase.js *)
Definition remoteSearchBookChunks (embedding : list num)
    (matchThreshold : num) (matchCount : Z) : IO (list MatchRow) :=
  bindIO (call (SearchCall embedding matchThreshold matchCount)) (fun _ =>
    let r := match_book_chunks env embedding matchThreshold matchCount in
    match error r with
    | Some e => throw e
    | None => ret (match data r with Some rows => rows | None => [] end)
    end).

(** Truthiness, [!v] being its negation. *)
Definition truthy (v : JSValue num) : bool :=
  match v with
  | JSUndefined | JSNull => false
  | JSBoolean b => b
  | JSNumberValue n => negb ((n === zero)%js || negb (n === n)%js)
  | JSString s => 0 <? length s
  | JSArray _ | JSObject _ => true
  end.

Definition typeof_is_string (v : JSValue num) : bool :=
  match v with JSString _ => true | _ => false end.

Fixpoint get_property (name : jsstring)
    (properties : list (jsstring * JSValue num)) : JSValue num :=
  match properties with
  | [] => JSUndefined
  | (k, v) :: rest => if jsstring_eqb k name then v else get_property name rest
  end.

(** [const { question } = body]: destructuring [null] throws a TypeError;
    a primitive or an array has no such property. *)
Definition destructure_question (body : JSValue num) : result (JSValue num) :=
  match body with
  | JSNull | JSUndefined =>
      Throw (mkError "Cannot destructure property 'question' of 'body' as it is null.")
  | JSObject properties => Ok (get_property (js "question") properties)
  | _ => Ok JSUndefined
  end.

Record Source := {
  source_id : jsstring;
  bookTitle : jsstring;
  chunkIndex : Z;
  pageNumber : option Z;
  source_chapter : option jsstring;
  source_similarity : num;
  preview : jsstring
}.

Inductive ResponseBody :=
| ErrorBody (error_message : string)
| AnswerBody (answer : jsstring) (sources : list Source) (confidence : num)
             (chunksFound : nat).

Record Response := {
  status : nat;
  body : ResponseBody
}.

Definition NOT_FOUND_ANSWER : jsstring :=
  js "I cannot find any relevant information about that topic in the available books. Could you try rephrasing your question or asking about a different topic?".

Definition hundred : num := num_of_Z 100.

(** [v || fallback] on an integer field that may be absent. *)
Definition or_else (v : option Z) (fallback : Z) : Z :=
  match v with
  | Some z => if (z =? 0)%Z then fallback else z
  | None => fallback
  end.

Definition or_null (v : option Z) : option Z :=
  match v with
  | Some z => if (z =? 0)%Z then None else Some z
  | None => None
  end.

Definition or_null_string (v : option jsstring) : option jsstring :=
  match v with
  | Some s => if 0 <? length s then Some s else None
  | None => None
  end.

Definition or_else_string (v : option jsstring) (fallback : jsstring) : jsstring :=
  match v with
  | Some s => if 0 <? length s then s else fallback
  | None => fallback
  end.

Definition metadata_field {A} (f : Metadata -> option A) (c : MatchRow) : option A :=
  match row_metadata c with
  | Some m => f m
  | None => None
  end.

(** The callback of [topChunks.map((chunk, index) => ...)]. *)
Definition make_source (index : nat) (c : MatchRow) : Source :=
  {| source_id := row_id c;
     bookTitle := or_else_string (metadata_field book_title c) (js "Unknown Book");
     chunkIndex := or_else (metadata_field chunk_index c) (Z.of_nat index);
     pageNumber := or_null (metadata_field page_number c);
     source_chapter := or_null_string (metadata_field chapter c);
     source_similarity := num_round (row_similarity c * hundred)%js;
     preview := firstn 200 (row_content c) ++ js "..." |}.

(** [topChunks.reduce((sum, chunk) => sum + chunk.similarity, 0)] *)
Definition sum_similarity (topChunks : list MatchRow) : num :=
  fold_left (fun sum c => (sum + row_similarity c)%js) topChunks zero.

Definition averageConfidence (topChunks : list MatchRow) : num :=
  if 0 <? length topChunks then
    num_round
      (sum_similarity topChunks / num_of_Z (Z.of_nat (length topChunks))
       * hundred)%js
  else zero.

Definition json_response (st : nat) (b : ResponseBody) : IO Response :=
  ret {| status := st; body := b |}.

(** The body of the [try] block of [POST]. *)
Definition POST_body (request_json : result (JSValue num)) : IO Response :=
  bindIO (lift (bind request_json destructure_question)) (fun question =>
  match question with
  | JSString q =>
      if negb (truthy question) || (length (trim q) =? 0) then
        json_response 400
          (ErrorBody "Question is required and must be a non-empty string")
      else if 1000 <? length q then
        json_response 400
          (ErrorBody "Question is too long. Please keep it under 1000 characters.")
      else
        bindIO (generateEmbedding q) (fun questionEmbedding =>
        bindIO (remoteSearchBookChunks questionEmbedding (decimal 3 10) 10)
          (fun relevantChunks =>
        bindIO (if length relevantChunks =? 0
                then remoteSearchBookChunks questionEmbedding (decimal 2 10) 15
                else ret relevantChunks) (fun relevantChunks =>
        bindIO (if length relevantChunks =? 0
                then remoteSearchBookChunks questionEmbedding (decimal 1 10) 20
                else ret relevantChunks) (fun relevantChunks =>
        if length relevantChunks =? 0 then
          json_response 200 (AnswerBody NOT_FOUND_ANSWER [] zero 0)
        else
          let topChunks := slice 0 (Some 5%Z) relevantChunks in
          bindIO (generateChatResponse q topChunks) (fun answer =>
          let sources := map_indexed make_source 0 topChunks in
          json_response 200
            (AnswerBody answer sources (averageConfidence topChunks)
               (length relevantChunks)))))))
  | _ =>
      (* [!question || typeof question !== 'string'] *)
      json_response 400
        (ErrorBody "Question is required and must be a non-empty string")
  end).

Definition POST (request_json : result (JSValue num)) : Response * list Call :=
  match
    try_catch (POST_body request_json)
      (fun e =>
         json_response 500
           (ErrorBody ("An unexpected error occurred: " ++ message e)))
      []
  with
  | (Ok response, log) => (response, log)
  | (Throw e, log) =>
      (* not reached: the handler does not throw *)
      ({| status := 500; body := ErrorBody (message e) |}, log)
  end.
End ChatRoute.

Arguments MatchRow num : clear implicits.
Arguments RpcResponse num : clear implicits.
Arguments Providers num : clear implicits.
Arguments Call num : clear implicits.
Arguments Source num : clear implicits.
Arguments ResponseBody num : clear implicits.
Arguments Response num : clear implicits.

(** ** scripts/upload-to-supabase.js: ingestion into the remote store *)

(** The turns of [for (let i = 0; i < l.length; i += batchSize)], each with
    its [i] and its [l.slice(i, i + batchSize)].  The loop ends within
    [fuel = l.length] turns when [batchSize] is positive. *)
Fixpoint batches_from {A} (fuel batchSize : nat) (l : list A) (i : nat)
  : list (nat * list A) :=
  match fuel with
  | 0 => []
  | S fuel' =>
      if i <? length l then
        (i, slice (Z.of_nat i) (Some (Z.of_nat (i + batchSize))) l)
          :: batches_from fuel' batchSize l (i + batchSize)
      else []
  end.

Definition batches {A} (batchSize : nat) (l : list A) : list (nat * list A) :=
  batches_from (length l) batchSize l 0.

(** [.filter(Boolean)] on an array of objects and [null]s. *)
Fixpoint filter_some {A} (l : list (option A)) : list A :=
  match l with
  | [] => []
  | Some x :: l' => x :: filter_some l'
  | None :: l' => filter_some l'
  end.

Section Upload.
Context {num : Type} `{JSNumber num}.

(** A row of the table [book_chunks] as the script inserts it. *)
Record BookChunkRow := {
  chunk_content : jsstring;
  chunk_embedding : list num;
  chunk_metadata : Metadata
}.

(** The table, and the states of it that the run has written so far
    (oldest first): what a reader of the table could have seen. *)
Record Database := {
  table : list BookChunkRow;
  written : list (list BookChunkRow)
}.

(** A book file: [path.extname(filePath).toLowerCase()],
    [path.basename(filePath, ext)] and what [fs.readFileSync] gives. *)
Record BookFile := {
  filePath : jsstring;
  extension : jsstring;
  title : jsstring;
  contents : result jsstring
}.

(** The world of one run: the embedding provider, the clock, and the
    errors the store answers with (an insert is named by the index [i] of
    the first chunk of its batch). *)
Record World := {
  create_embedding : jsstring -> result (list num);
  now : nat -> jsstring;
  delete_error : option Error;
  insert_error : nat -> option Error
}.

Variable world : World.

(** Computations on the store that may throw; the store keeps what was
    written before the exception. *)
Definition DB (A : Type) : Type := Database -> result A * Database.

(** A delete or an insert is one statement of the store: it takes effect
    as a whole, or fails and changes nothing. *)
Definition write (rows : list BookChunkRow) : DB unit :=
  fun db => (Ok tt, {| table := rows; written := written db ++ [rows] |}).

Definition has_title (bookTitle : jsstring) (r : BookChunkRow) : bool :=
  match book_title (chunk_metadata r) with
  | Some t => jsstring_eqb t bookTitle
  | None => false
  end.

(** [.delete().eq('metadata->>book_title', bookTitle)] *)
Definition clearBookChunks (bookTitle : jsstring) : DB unit :=
  fun db =>
    match delete_error world with
    | Some e => (Throw e, db)
    | None => write (filter (fun r => negb (has_title bookTitle r)) (table db)) db
    end.

(** The loop of [uploadChunksToSupabase] over its batches. *)
Fixpoint upload_loop (todo : list (nat * list BookChunkRow))
    (uploadedCount : nat) : DB nat :=
  match todo with
  | [] => fun db => (Ok uploadedCount, db)
  | (i, batch) :: rest =>
      fun db =>
        match insert_error world i with
        | Some e => (Throw e, db)
        | None =>
            match write (table db ++ batch) db with
            | (_, db') => upload_loop rest (uploadedCount + length batch) db'
            end
        end
  end.

Definition uploadChunksToSupabase (chunks : list BookChunkRow) : DB nat :=
  upload_loop (batches 10 chunks) 0.

(** The callback of [batch.map(async (chunk, index) => ...)]: the row, or
    [null] when the embedding call throws. *)
Definition embed_chunk (file : BookFile) (i index : nat) (chunk : jsstring)
  : option BookChunkRow :=
  let globalIndex := i + index in
  match create_embedding world chunk with
  | Ok embedding =>
      Some {| chunk_content := chunk;
              chunk_embedding := embedding;
              chunk_metadata :=
                {| book_title := Some (title file);
                   chunk_index := Some (Z.of_nat globalIndex);
                   chunk_length := Some (Z.of_nat (length chunk));
                   estimated_tokens := Some (estimateTokens chunk);
                   file_path := Some (filePath file);
                   file_type := Some (extension file);
                   estimated_page := Some (Z.of_nat (globalIndex / 3) + 1)%Z;
                   page_number := None;
                   chapter := None;
                   uploaded_at := Some (now world globalIndex) |} |}
  | Throw _ => None
  end.

(** [processedChunks] after the embedding loop. *)
Definition processedChunks (file : BookFile) (textChunks : list jsstring)
  : list BookChunkRow :=
  flat_map
    (fun '(i, batch) => filter_some (map_indexed (embed_chunk file i) 0 batch))
    (batches 5 textChunks).

Definition processBookToSupabase (file : BookFile) (clearExisting : bool)
  : Database -> nat * Database :=
  fun db =>
    let attempt : DB nat :=
      if negb (jsstring_eqb (extension file) (js ".txt")) then
        fun db => (Ok 0, db)
      else
        fun db =>
          match (if clearExisting then clearBookChunks (title file) db
                 else (Ok tt, db)) with
          | (Throw e, db') => (Throw e, db')
          | (Ok _, db') =>
              match contents file with
              | Throw e => (Throw e, db')
              | Ok content =>
                  if length content <? 100 then (Ok 0, db')
                  else
                    let cleanedContent := cleanText content in
                    let textChunks :=
                      splitTextIntoChunks cleanedContent CHUNK_SIZE CHUNK_OVERLAP in
                    uploadChunksToSupabase (processedChunks file textChunks) db'
              end
          end
    in
    match attempt db with
    | (Ok uploadedCount, db') => (uploadedCount, db')
    | (Throw _, db') => (0, db')
    end.
End Upload.

Arguments BookChunkRow num : clear implicits.
Arguments Database num : clear implicits.
Arguments World num : clear implicits.

(** * Specification vocabulary *)

Unset Implicit Arguments.

(** ** Vocabulary of the similarity and of the search *)

(** The three sums of the loop, in closed form. *)
Fixpoint dot_product (ab : list (R * R)) : R :=
  match ab with
  | [] => 0%R
  | (a, b) :: rest => (a * b + dot_product rest)%R
  end.

Definition sum_squares (v : list R) : R := dot_product (combine v v).





(** ** Vocabulary of the chunker's specification *)

(** The sentence sequence of a text, as the chunker reads it. *)
Definition sentences_of (text : jsstring) : list jsstring :=
  map (fun s => trim s ++ [FULL_STOP]) (split_sentences text).

(** The words a chunk hands over to the next one, joined by single spaces. *)
Definition overlap_seed (overlap : Z) (previous : jsstring) : jsstring :=
  join [SPACE] (slice (- overlap) None (split_on is_space previous)).

(** A chunk made of a block of sentences, after the chunk [previous]. *)
Definition chunk_of (overlap : Z) (previous : option jsstring)
    (block : list jsstring) : jsstring :=
  match previous with
  | None => join [SPACE] block
  | Some p => overlap_seed overlap p ++ [SPACE] ++ join [SPACE] block
  end.

(** The chunks made of consecutive blocks of sentences: the first chunk is
    its block, every later chunk is the seed taken from the chunk before
    it, a space, and its block. *)
Fixpoint assemble (overlap : Z) (previous : option jsstring)
    (blocks : list (list jsstring)) : list jsstring :=
  match blocks with
  | [] => []
  | block :: rest =>
      let c := chunk_of overlap previous block in
      c :: assemble overlap (Some c) rest
  end.

(** The last [n] words of a chunk, all of them when it has fewer. *)
Definition last_words (n : Z) (c : jsstring) : list jsstring :=
  let words := split_on is_space c in
  skipn (length words - Z.to_nat n) words.

(** A chunk without the words it took over from the chunk before it (and
    the space after them). *)
Definition without_seed (overlap : Z) (previous : option jsstring)
    (c : jsstring) : jsstring :=
  match previous with
  | None => c
  | Some p => skipn (length (overlap_seed overlap p) + 1) c
  end.

(** The chunks of a list, each without its overlap region. *)
Fixpoint strip_seeds (overlap : Z) (previous : option jsstring)
    (l : list jsstring) : list jsstring :=
  match l with
  | [] => []
  | c :: rest => without_seed overlap previous c :: strip_seeds overlap (Some c) rest
  end.

(** A string with a first and a last code unit, neither of them white
    space. *)
Definition clean (s : jsstring) : Prop :=
  is_space (hd SPACE s) = false /\ is_space (last s SPACE) = false.

(** The chunk before the next one: the last of [l], else [previous]. *)
Definition last_chunk (previous : option jsstring) (l : list jsstring)
  : option jsstring :=
  match l with
  | [] => previous
  | _ => Some (last l [])
  end.

(** The state of the loop after the sentences [consumed]. *)
Definition chunker_inv (overlap : Z) (st : Chunker) (consumed : list jsstring)
  : Prop :=
  (consumed = [] /\ chunks st = [] /\ currentChunk st = [])
  \/ exists blocks block,
       block <> []
       /\ Forall (fun b => b <> []) blocks
       /\ concat (blocks ++ [block]) = consumed
       /\ assemble overlap None blocks = chunks st
       /\ currentChunk st = chunk_of overlap (last_chunk None (chunks st)) block
       /\ clean (currentChunk st)
       /\ Forall clean (chunks st).

(** A word: not empty, no white space. *)
Definition is_word (w : jsstring) : Prop :=
  w <> [] /\ Forall (fun c => is_space c = false) w.

(** ** Vocabulary of the chat route's specification *)

Section RouteVocabulary.
Context {num : Type} `{JSNumber num}.

(** The rows a search returns when the store reports no error. *)
Definition rpc_rows (env : Providers num) (v : list num) (thr : num) (cap : Z)
  : list (MatchRow num) :=
  match data (match_book_chunks env v thr cap) with
  | Some rows => rows
  | None => []
  end.

(** The (threshold, cap) pairs of the searches in a log, in order. *)
Fixpoint search_calls (log : list (Call num)) : list (num * Z) :=
  match log with
  | [] => []
  | SearchCall _ thr cap :: rest => (thr, cap) :: search_calls rest
  | _ :: rest => search_calls rest
  end.

(** The chunks handed to the chat model, per call. *)
Fixpoint chat_contexts (log : list (Call num)) : list (list (MatchRow num)) :=
  match log with
  | [] => []
  | ChatCall _ context :: rest => context :: chat_contexts rest
  | _ :: rest => chat_contexts rest
  end.

(** The relaxation table: 0.30 -> 10, 0.20 -> 15, 0.10 -> 20. *)
Definition relaxation_steps : list (num * Z) :=
  [(decimal 3 10, 10%Z); (decimal 2 10, 15%Z); (decimal 1 10, 20%Z)].

(** Progressive relaxation as the specification words it: try the steps
    in order until one returns results or the table is exhausted.  The
    result is the steps tried and the rows found. *)
Fixpoint relax (search : num -> Z -> list (MatchRow num))
    (steps : list (num * Z)) : list (num * Z) * list (MatchRow num) :=
  match steps with
  | [] => ([], [])
  | (thr, cap) :: rest =>
      match search thr cap with
      | [] => let '(tried, found) := relax search rest in
              ((thr, cap) :: tried, found)
      | rows => ([(thr, cap)], rows)
      end
  end.

(** The mean of a list of numbers. *)
Definition mean (l : list num) : num :=
  (fold_left num_add l zero / num_of_Z (Z.of_nat (length l)))%js.

(** A rounded percentage. *)
Definition percentage (x : num) : num := num_round (x * num_of_Z 100)%js.

(** A question that passes validation. *)
Definition valid_question (q : jsstring) : Prop :=
  trim q <> [] /\ length q <= 1000.


(** The response and the log of an accepted question whose embedding and
    searches succeed. *)
Definition accepted_run (env : Providers num) (q : jsstring) (v : list num)
  : Response num * list (Call num) :=
  let '(tried, found) := relax (rpc_rows env v) relaxation_steps in
  let searches := map (fun '(thr, cap) => SearchCall v thr cap) tried in
  let top := firstn 5 found in
  match found with
  | [] =>
      ({| status := 200; body := AnswerBody NOT_FOUND_ANSWER [] zero 0 |},
       EmbeddingCall (trim q) :: searches)
  | _ =>
      let log := EmbeddingCall (trim q) :: searches ++ [ChatCall q top] in
      match chat_completions_create env q top with
      | Ok answer =>
          ({| status := 200;
              body := AnswerBody answer (map_indexed make_source 0 top)
                        (percentage (mean (map (@row_similarity num) top)))
                        (length found) |}, log)
      | Throw e =>
          ({| status := 500;
              body := ErrorBody ("An unexpected error occurred: "
                                 ++ "Failed to generate response: "
                                 ++ message e) |}, log)
      end
  end.
End RouteVocabulary.

(** ** Vocabulary of the ingestion's specification *)

Section UploadVocabulary.
Context {num : Type} `{JSNumber num}.

(** The rows of a list of batches, in order. *)
Definition rows_of (todo : list (nat * list (BookChunkRow num)))
  : list (BookChunkRow num) :=
  concat (map snd todo).

(** The batches at the head of [todo] that the store accepts: those
    before the first insert error. *)
Fixpoint accepted_batches (world : World num)
    (todo : list (nat * list (BookChunkRow num)))
  : list (nat * list (BookChunkRow num)) :=
  match todo with
  | [] => []
  | (i, batch) :: rest =>
      match insert_error world i with
      | Some _ => []
      | None => (i, batch) :: accepted_batches world rest
      end
  end.

(** The states of the table after each of the inserts [accepted]. *)
Fixpoint states_after (base : list (BookChunkRow num))
    (accepted : list (nat * list (BookChunkRow num)))
  : list (list (BookChunkRow num)) :=
  match accepted with
  | [] => []
  | (_, batch) :: rest => (base ++ batch) :: states_after (base ++ batch) rest
  end.

(** The rows of the other books. *)
Definition other_books (bookTitle : jsstring) (rows : list (BookChunkRow num))
  : list (BookChunkRow num) :=
  filter (fun r => negb (has_title bookTitle r)) rows.

(** The rows a run makes of the text of a book. *)
Definition new_rows (world : World num) (file : BookFile) (content : jsstring)
  : list (BookChunkRow num) :=
  processedChunks world file
    (splitTextIntoChunks (cleanText content) CHUNK_SIZE CHUNK_OVERLAP).
End UploadVocabulary.

(** ** Sample data *)

Definition sample_metadata : Metadata :=
  {| book_title := Some (js "Alpha"); chunk_index := Some 0%Z;
     chunk_length := None; estimated_tokens := None; file_path := None;
     file_type := None; estimated_page := None; page_number := None;
     chapter := None; uploaded_at := None |}.

Definition sample_chunk {num} (text : string) (v : list num) : Chunk num :=
  {| id := None; content := js text; embedding := v;
     metadata := sample_metadata |}.

Definition sample_row (similarity : float) : MatchRow float :=
  {| row_id := js "7"; row_content := js "Burnout is a state of exhaustion.";
     row_metadata := Some sample_metadata; row_similarity := similarity |}.

(** A store in which one chunk matches at 15%. *)
Definition sample_providers : Providers float :=
  {| embeddings_create := fun _ => Ok [1; 0]%float;
     match_book_chunks := fun _ threshold _ =>
       {| data := Some (if PrimFloat.leb threshold 0x1.3333333333333p-3%float
                        then [sample_row 0x1.3333333333333p-3%float] else []);
          error := None |};
     chat_completions_create := fun _ _ => Ok (js "According to Source 1, it is exhaustion.") |}.

Definition sample_question : jsstring := js "What is burnout?".

Definition sample_request : JSValue float :=
  JSObject [(js "question", JSString sample_question)].


Definition three_sentences : jsstring :=
  js "The quick brown fox jumps over the lazy sleeping dog today. Bb. A second long sentence follows here with many more words inside.".

(** A book of [n] sentences of ten words. *)
Definition sample_book (n : nat) : jsstring :=
  concat (repeat (js "alpha beta gamma delta epsilon zeta eta theta iota kappa. ") n).

(** A world in which the insert of the batch that starts at chunk 10
    fails. *)
Definition sample_world : World float :=
  {| create_embedding := fun _ => Ok [1; 0]%float;
     now := fun _ => js "2024-01-01T00:00:00.000Z";
     delete_error := None;
     insert_error := fun i =>
       if i =? 10 then Some (mkError "upstream request timeout") else None |}.

Definition sample_file : BookFile :=
  {| filePath := js "books/Alpha.txt"; extension := js ".txt";
     title := js "Alpha"; contents := Ok (sample_book 240) |}.

Definition old_row : BookChunkRow float :=
  {| chunk_content := js "An old chunk of Alpha.";
     chunk_embedding := [0; 1]%float;
     chunk_metadata := sample_metadata |}.

Definition sample_db : Database float :=
  {| table := [old_row]; written := [] |}.

(** * Further parts of the program *)

(** ** Vocabulary of the text cleaner *)

(** White space only as single spaces: every white-space code unit is a
    space, and the code unit after it is not white space. *)
Fixpoint single_spaced (s : jsstring) : bool :=
  match s with
  | [] => true
  | c :: s' =>
      (if is_space c then
         (c =? SPACE)%N
         && match s' with
            | c' :: _ => negb (is_space c')
            | [] => true
            end
       else true)
      && single_spaced s'
  end.

(** A complete tag is left: a [<] with a [>] somewhere after it. *)
Fixpoint has_tag (s : jsstring) : bool :=
  match s with
  | [] => false
  | c :: s' => (if is_lt c then existsb is_gt s' else false) || has_tag s'
  end.

(** The angle brackets of a text, in order. *)
Definition angles (s : jsstring) : jsstring :=
  filter (fun c => is_lt c || is_gt c) s.

(** ** Vocabulary of the chunker's size bound *)

(** A chunk made of two or more sentences of its own is within the target
    size. *)
Definition within_size (chunkSize : Z) (c : jsstring) (block : list jsstring)
  : Prop :=
  2 <= length block -> (estimateTokens c <= chunkSize)%Z.

(** The state of the loop after the sentences [consumed], with its token
    count: the count bounds the estimate of the current chunk, and is
    within the target size once the chunk holds two sentences of its own. *)
Definition sized_inv (chunkSize overlap : Z) (st : Chunker)
    (consumed : list jsstring) : Prop :=
  (consumed = [] /\ chunks st = [] /\ currentChunk st = []
   /\ currentTokens st = 0%Z)
  \/ exists blocks block,
       block <> []
       /\ Forall (fun b => b <> []) blocks
       /\ concat (blocks ++ [block]) = consumed
       /\ assemble overlap None blocks = chunks st
       /\ currentChunk st = chunk_of overlap (last_chunk None (chunks st)) block
       /\ clean (currentChunk st)
       /\ Forall clean (chunks st)
       /\ (estimateTokens (currentChunk st) <= currentTokens st)%Z
       /\ (2 <= length block -> (currentTokens st <= chunkSize)%Z)
       /\ Forall2 (within_size chunkSize) (chunks st) blocks.

(** ** lib/local-storage.js: the statistics of the store *)

(** The properties an object literal inherits from [Object.prototype]; each
    holds a function or an object, so reading it yields a truthy value. *)
Definition OBJECT_PROTOTYPE : list jsstring :=
  map js ["constructor"; "__defineGetter__"; "__defineSetter__";
          "hasOwnProperty"; "__lookupGetter__"; "__lookupSetter__";
          "isPrototypeOf"; "propertyIsEnumerable"; "toString"; "valueOf";
          "__proto__"; "toLocaleString"]%string.

Definition inherited (name : jsstring) : bool :=
  existsb (jsstring_eqb name) OBJECT_PROTOTYPE.

Section BookStats.
Context {num : Type} `{JSNumber num}.

(** [{ chunkCount, totalTokens }]. *)
Record BookStat := {
  chunkCount : Z;
  totalTokens : num
}.

(** The own properties of [bookStats], in the order they were created. *)
Definition BookStatsObject : Type := list (jsstring * BookStat).

(** [chunk.metadata?.book_title || 'Unknown']. *)
Definition title_of (c : Chunk num) : jsstring :=
  or_else_string (book_title (metadata c)) (js "Unknown").

(** [parseInt(chunk.metadata?.estimated_tokens) || 0]. *)
Definition tokens_of (c : Chunk num) : num :=
  num_of_Z (or_else (estimated_tokens (metadata c)) 0).

(** The two [+=] on the own property [title], created first when it is
    not there. *)
Fixpoint add_chunk (title : jsstring) (tokens : num) (bookStats : BookStatsObject)
  : BookStatsObject :=
  match bookStats with
  | [] =>
      [(title, {| chunkCount := 0 + 1;
                  totalTokens := (num_of_Z 0 + tokens)%js |})]
  | (t, s) :: rest =>
      if jsstring_eqb t title then
        (t, {| chunkCount := chunkCount s + 1;
               totalTokens := (totalTokens s + tokens)%js |}) :: rest
      else (t, s) :: add_chunk title tokens rest
  end.

(** One turn of [chunks.forEach].  For a title that names an inherited
    property [bookStats[title]] is truthy, no own property is created, and
    the two [+=] write to the inherited function or object instead. *)
Definition stats_step (bookStats : BookStatsObject) (c : Chunk num)
  : BookStatsObject :=
  let title := title_of c in
  if inherited title then bookStats
  else add_chunk title (tokens_of c) bookStats.

Record Stats := {
  totalChunks : Z;
  totalBooks : Z;
  bookBreakdown : BookStatsObject
}.

Definition getBookStats (file : ChunksFile num) : Stats :=
  let chunks := loadBookChunks file in
  if length chunks =? 0 then
    {| totalChunks := 0; totalBooks := 0; bookBreakdown := [] |}
  else
    let bookStats := fold_left stats_step chunks [] in
    {| totalChunks := Z.of_nat (length chunks);
       totalBooks := Z.of_nat (length bookStats);
       bookBreakdown := bookStats |}.
End BookStats.

Arguments BookStat num : clear implicits.
Arguments BookStatsObject num : clear implicits.
Arguments Stats num : clear implicits.

(** ** Vocabulary of the statistics *)

(** The chunk count the breakdown holds for a title, 0 when it has none. *)
Fixpoint count_for {num} (title : jsstring) (bookStats : BookStatsObject num)
  : Z :=
  match bookStats with
  | [] => 0
  | (t, s) :: rest =>
      if jsstring_eqb t title then chunkCount s else count_for title rest
  end.

(** The number of chunks of a list that carry a title. *)
Definition titled {num} (title : jsstring) (chunks : list (Chunk num)) : Z :=
  Z.of_nat (length (filter (fun c => jsstring_eqb (title_of c) title) chunks)).

(** The sum of the chunk counts of a breakdown. *)
Definition counted {num} (bookStats : BookStatsObject num) : Z :=
  fold_right (fun p acc => (chunkCount (snd p) + acc)%Z) 0%Z bookStats.

(** ** Vocabulary of the chat route's calls *)

(** The inputs of the embedding calls in a log, in order. *)
Fixpoint embedding_calls {num} (log : list (Call num)) : list jsstring :=
  match log with
  | [] => []
  | EmbeddingCall input :: rest => input :: embedding_calls rest
  | _ :: rest => embedding_calls rest
  end.

(** The response of the [catch] block of [POST]. *)
Definition unexpected_error {num} (msg : string) : Response num :=
  {| status := 500;
     body := ErrorBody ("An unexpected error occurred: " ++ msg) |}.

(** What holds of every run of [POST]: the status is one of three; a 400
    comes before any call; there is at most one embedding call, the
    searches are the first steps of the relaxation table, there is at most
    one chat call and its context holds one to five rows; a search is
    preceded by the embedding call and a chat call by a search; an answer
    has status 200, at most five sources and no more sources than chunks
    found, and reports no chunk exactly when the chat model was not
    called. *)
Definition calls_bounded {num} `{JSNumber num}
    (run : Response num * list (Call num)) : Prop :=
  let response := fst run in
  let log := snd run in
  (status response = 200 \/ status response = 400 \/ status response = 500)
  /\ (status response = 400 -> log = [])
  /\ length (embedding_calls log) <= 1
  /\ (exists n, search_calls log = firstn n relaxation_steps)
  /\ length (chat_contexts log) <= 1
  /\ Forall (fun context => 1 <= length context <= 5) (chat_contexts log)
  /\ (search_calls log <> [] -> length (embedding_calls log) = 1)
  /\ (chat_contexts log <> [] -> search_calls log <> [])
  /\ forall answer sources confidence n,
       body response = AnswerBody answer sources confidence n ->
       status response = 200
       /\ length sources <= 5 /\ length sources <= n
       /\ (n = 0 <-> chat_contexts log = []).


(** ** The chat route over the linear-scan store (the route.js that imports
       lib/local-storage) *)

(** [s.includes(search)]. *)
Fixpoint includes (s search : string) : bool :=
  if String.prefix search s then true
  else
    match s with
    | EmptyString => false
    | String _ s' => includes s' search
    end.

(** The decimal numeral a template literal renders an index as. *)
Definition decimal_numeral (n : nat) : jsstring :=
  js (NilEmpty.string_of_uint (Nat.to_uint n)).

Section LocalRoute.
Context {num : Type} `{JSNumber num}.

(** The OpenAI client of this route: its chat call receives the scored
    chunks of the local store. *)
Record LocalProviders := {
  local_embeddings_create : jsstring -> result (list num);
  local_chat_completions_create :
    jsstring -> list (ScoredChunk num) -> result jsstring
}.

Inductive LocalCall :=
| LocalEmbeddingCall (input : jsstring)
| LocalChatCall (question : jsstring) (context : list (ScoredChunk num)).

Record LocalSource := {
  local_id : jsstring;
  local_bookTitle : jsstring;
  local_chunkIndex : Z;
  local_similarity : num;
  local_preview : jsstring
}.

(** The JSON bodies of the route; the "cannot find" answer carries no
    [chunksFound]. *)
Inductive LocalBody :=
| LocalError (error_message : string)
| LocalAnswer (answer : jsstring) (sources : list LocalSource)
              (confidence : num) (chunksFound : option nat).

Record LocalResponse := {
  local_status : nat;
  local_body : LocalBody
}.

(** The callback of [relevantChunks.map((chunk, index) => ...)]. *)
Definition local_make_source (index : nat) (c : ScoredChunk num) : LocalSource :=
  {| local_id :=
       or_else_string (id (chunk c)) (js "chunk-" ++ decimal_numeral index);
     local_bookTitle :=
       or_else_string (book_title (metadata (chunk c))) (js "Unknown Book");
     local_chunkIndex :=
       or_else (chunk_index (metadata (chunk c))) (Z.of_nat index);
     local_similarity := num_round (similarity c * hundred)%js;
     local_preview := firstn 200 (content (chunk c)) ++ js "..." |}.

Definition local_averageConfidence (relevantChunks : list (ScoredChunk num))
  : num :=
  if 0 <? length relevantChunks then
    num_round
      (fold_left (fun sum c => (sum + similarity c)%js) relevantChunks zero
       / num_of_Z (Z.of_nat (length relevantChunks))
       * hundred)%js
  else zero.

(** The [catch] block: the response is chosen by words in the message. *)
Definition local_catch (e : Error) : LocalResponse :=
  if includes (message e) "embedding" then
    {| local_status := 500;
       local_body :=
         LocalError "Failed to process your question. Please try again." |}
  else if includes (message e) "chunks" || includes (message e) "storage" then
    {| local_status := 503;
       local_body :=
         LocalError
           "Book data not available. Please run the ingestion script first." |}
  else if includes (message e) "OpenAI" || includes (message e) "API" then
    {| local_status := 503;
       local_body :=
         LocalError "AI service temporarily unavailable. Please try again." |}
  else
    {| local_status := 500;
       local_body :=
         LocalError "An unexpected error occurred. Please try again." |}.

Variable env : LocalProviders.
Variable file : ChunksFile num.

(** The [try] block, with the calls made up to its return or its throw. *)
Definition local_POST_body (request_json : result (JSValue num))
  : result LocalResponse * list LocalCall :=
  match bind request_json destructure_question with
  | Throw e => (Throw e, [])
  | Ok (JSString q) =>
      if negb (truthy (@JSString num q)) || (length (trim q) =? 0) then
        (Ok {| local_status := 400;
               local_body :=
                 LocalError "Question is required and must be a non-empty string" |},
         [])
      else if 1000 <? length q then
        (Ok {| local_status := 400;
               local_body :=
                 LocalError
                   "Question is too long. Please keep it under 1000 characters." |},
         [])
      else
        let log := [LocalEmbeddingCall (trim q)] in
        match local_embeddings_create env (trim q) with
        | Throw e =>
            (Throw (mkError ("Failed to generate embedding: " ++ message e)), log)
        | Ok questionEmbedding =>
            match searchBookChunks file questionEmbedding (decimal 75 100) 5 with
            | Throw e => (Throw e, log)
            | Ok relevantChunks =>
                if length relevantChunks =? 0 then
                  (Ok {| local_status := 200;
                         local_body :=
                           LocalAnswer NOT_FOUND_ANSWER [] zero None |},
                   log)
                else
                  let log := log ++ [LocalChatCall q relevantChunks] in
                  match local_chat_completions_create env q relevantChunks with
                  | Throw e =>
                      (Throw (mkError ("Failed to generate response: "
                                       ++ message e)), log)
                  | Ok answer =>
                      (Ok {| local_status := 200;
                             local_body :=
                               LocalAnswer answer
                                 (map_indexed local_make_source 0 relevantChunks)
                                 (local_averageConfidence relevantChunks)
                                 (Some (length relevantChunks)) |},
                       log)
                  end
            end
        end
  | Ok _ =>
      (Ok {| local_status := 400;
             local_body :=
               LocalError "Question is required and must be a non-empty string" |},
       [])
  end.

Definition local_POST (request_json : result (JSValue num))
  : LocalResponse * list LocalCall :=
  match local_POST_body request_json with
  | (Ok response, log) => (response, log)
  | (Throw e, log) => (local_catch e, log)
  end.
End LocalRoute.

Arguments LocalProviders num : clear implicits.
Arguments LocalCall num : clear implicits.
Arguments LocalSource num : clear implicits.
Arguments LocalBody num : clear implicits.
Arguments LocalResponse num : clear implicits.

(** ** Vocabulary of the local route *)


(** ** scripts/ingest-books.js: ingestion into the local store *)

Definition is_alphanumeric (c : char) : bool :=
  ((48 <=? c) && (c <=? 57) || (65 <=? c) && (c <=? 90)
   || (97 <=? c) && (c <=? 122))%N.

Definition UNDERSCORE : char := 95%N.

(** [`${bookTitle.replace(/[^a-zA-Z0-9]/g, '_')}_chunk_${chunkIndex}`]; the
    pattern has no [u] flag, so it replaces code unit by code unit. *)
Definition generateChunkId (bookTitle : jsstring) (chunkIndex : nat) : jsstring :=
  map (fun c => if is_alphanumeric c then c else UNDERSCORE) bookTitle
  ++ js "_chunk_" ++ decimal_numeral chunkIndex.

Section LocalIngest.
Context {num : Type} `{JSNumber num}.
Variable world : World num.

(** The callback of [batch.map(async (chunk, index) => ...)]: the chunk
    object, or [null] when the embedding call throws. *)
Definition embed_local_chunk (file : BookFile) (i index : nat)
    (chunk : jsstring) : option (Chunk num) :=
  let globalIndex := i + index in
  match create_embedding world chunk with
  | Ok embedding =>
      Some {| id := Some (generateChunkId (title file) globalIndex);
              content := chunk;
              embedding := embedding;
              metadata :=
                {| book_title := Some (title file);
                   chunk_index := Some (Z.of_nat globalIndex);
                   chunk_length := Some (Z.of_nat (length chunk));
                   estimated_tokens := Some (estimateTokens chunk);
                   file_path := Some (filePath file);
                   file_type := Some (extension file);
                   estimated_page := None;
                   page_number := None;
                   chapter := None;
                   uploaded_at := None |} |}
  | Throw _ => None
  end.

(** The batch loop of [processBook]: [allChunks] is the array of the
    caller, which the loop pushes to. *)
Fixpoint processBook_loop (file : BookFile) (todo : list (nat * list jsstring))
    (processedCount : nat) (allChunks : list (Chunk num))
  : nat * list (Chunk num) :=
  match todo with
  | [] => (processedCount, allChunks)
  | (i, batch) :: rest =>
      let embeddedChunks :=
        filter_some (map_indexed (embed_local_chunk file i) 0 batch) in
      processBook_loop file rest (processedCount + length embeddedChunks)
        (allChunks ++ embeddedChunks)
  end.

(** [processBook(filePath, allChunks)]: the count it returns and the
    array [allChunks] when it returns. *)
Definition processBook (file : BookFile) (allChunks : list (Chunk num))
  : nat * list (Chunk num) :=
  if negb (jsstring_eqb (extension file) (js ".txt")) then (0, allChunks)
  else
    match contents file with
    | Throw _ => (0, allChunks)
    | Ok content =>
        if length content <? 100 then (0, allChunks)
        else
          let content := cleanText content in
          let chunks := splitTextIntoChunks content CHUNK_SIZE CHUNK_OVERLAP in
          processBook_loop file (batches 5 chunks) 0 allChunks
    end.

(** [ingestBooks] once the key and the books directory are there, for the
    files of the directory and the chunks file as it is: the total it
    reports and the chunks file it leaves.  [saveBookChunks] replaces the
    file by the array (a write that succeeds). *)
Definition ingestBooks (directory : list BookFile) (stored : ChunksFile num)
  : nat * ChunksFile num :=
  let supportedFiles :=
    filter (fun f => jsstring_eqb (extension f) (js ".txt")) directory in
  if length supportedFiles =? 0 then (0, stored)
  else
    let '(totalProcessedChunks, allChunks) :=
      fold_left
        (fun '(total, allChunks) filePath =>
           let '(chunkCount, allChunks) := processBook filePath allChunks in
           (total + chunkCount, allChunks))
        supportedFiles (0, []) in
    (totalProcessedChunks,
     if 0 <? length allChunks then FileChunks allChunks else stored).
End LocalIngest.

(** ** The ingestion script of the remote store with EPUB support
       (the second scripts/ingest-books.js) *)

Section RemoteIngest.
Context {num : Type} `{JSNumber num}.
Variable world : World num.

(** The callback of [batch.map], with the metadata this script writes. *)
Definition embed_remote_chunk (file : BookFile) (i index : nat)
    (chunk : jsstring) : option (BookChunkRow num) :=
  let globalIndex := i + index in
  match create_embedding world chunk with
  | Ok embedding =>
      Some {| chunk_content := chunk;
              chunk_embedding := embedding;
              chunk_metadata :=
                {| book_title := Some (title file);
                   chunk_index := Some (Z.of_nat globalIndex);
                   chunk_length := Some (Z.of_nat (length chunk));
                   estimated_tokens := Some (estimateTokens chunk);
                   file_path := Some (filePath file);
                   file_type := Some (extension file);
                   estimated_page := None;
                   page_number := None;
                   chapter := None;
                   uploaded_at := None |} |}
  | Throw _ => None
  end.

(** The batch loop: each batch is embedded and inserted; an insert error
    is logged and the loop goes on. *)
Fixpoint insert_loop (file : BookFile) (todo : list (nat * list jsstring))
    (processedCount : nat) (db : Database num) : nat * Database num :=
  match todo with
  | [] => (processedCount, db)
  | (i, batch) :: rest =>
      let embeddedChunks :=
        filter_some (map_indexed (embed_remote_chunk file i) 0 batch) in
      if 0 <? length embeddedChunks then
        match insert_error world i with
        | Some _ => insert_loop file rest processedCount db
        | None =>
            insert_loop file rest (processedCount + length embeddedChunks)
              (snd (write (table db ++ embeddedChunks) db))
        end
      else insert_loop file rest processedCount db
  end.

(** [processBook(filePath)] of this script; [contents] is the text of a
    [.txt] file or the text extracted from an [.epub] file.  The text is
    not cleaned. *)
Definition processBook_remote (file : BookFile) (db : Database num)
  : nat * Database num :=
  if jsstring_eqb (extension file) (js ".epub")
     || jsstring_eqb (extension file) (js ".txt") then
    match contents file with
    | Throw _ => (0, db)
    | Ok content =>
        if length content <? 100 then (0, db)
        else
          let chunks := splitTextIntoChunks content CHUNK_SIZE CHUNK_OVERLAP in
          insert_loop file (batches 3 chunks) 0 db
    end
  else (0, db).
End RemoteIngest.

(** ** Vocabulary of the ingestion scripts *)

(** The chunk objects [processBook] makes of the text of a book, one per
    chunk of text whose embedding succeeds, numbered by the position of
    the chunk in the text. *)
Definition local_chunks {num} `{JSNumber num} (world : World num)
    (file : BookFile) (content : jsstring) : list (Chunk num) :=
  filter_some
    (map_indexed (embed_local_chunk world file 0) 0
       (splitTextIntoChunks (cleanText content) CHUNK_SIZE CHUNK_OVERLAP)).

(** ** scripts/upload-to-supabase.js: the loop over the books *)

(** The loop of [uploadBooksToSupabase] over [bookFiles], once the keys
    and the connections are checked: the total it reports and the store
    it leaves.  Each file comes with the world of its run. *)
Definition uploadBooksToSupabase {num} `{JSNumber num}
    (bookFiles : list (World num * BookFile)) (db : Database num)
  : nat * Database num :=
  fold_left
    (fun '(totalChunks, db) '(world, filePath) =>
       let '(chunkCount, db) := processBookToSupabase world filePath true db in
       (totalChunks + chunkCount, db))
    bookFiles (0, db).

(** A row of none of the books of a list. *)
Definition foreign_row {num} `{JSNumber num}
    (bookFiles : list (World num * BookFile)) (r : BookChunkRow num) : bool :=
  negb (existsb (fun b => has_title (title (snd b)) r) bookFiles).

(** ** Sample data of the failure paths *)

(** A store that returns no row at 0.30 and fails below. *)
Definition failing_store : Providers float :=
  {| embeddings_create := fun _ => Ok [1; 0]%float;
     match_book_chunks := fun _ threshold _ =>
       if PrimFloat.leb (decimal 3 10) threshold
       then {| data := Some []; error := None |}
       else {| data := Some [sample_row 0x1.3333333333333p-3%float];
               error := Some (mkError "connection timed out") |};
     chat_completions_create := fun _ _ => Ok (js "It is exhaustion.") |}.

(** The OpenAI client of the local route, by what its two calls answer. *)
Definition sample_local_providers (embedding : result (list float))
    (chat : result jsstring) : LocalProviders float :=
  {| local_embeddings_create := fun _ => embedding;
     local_chat_completions_create := fun _ _ => chat |}.

(** * Proofs *)

Ltac split_conjunction :=
  repeat match goal with |- _ /\ _ => split end.


(** ** Cosine similarity *)









Lemma sum_squares_zero (v : list R) :
  Forall (fun x => x = 0%R) v -> sum_squares v = 0%R.
Proof.
  unfold sum_squares. induction 1 as [|x v Hx _ IH]; simpl; [reflexivity|].
  rewrite IH, Hx. lra.
Qed.










Lemma cosineSimilarity_throws_iff {num} `{JSNumber num} (a b : list num) :
  (exists e, cosineSimilarity a b = Throw e) <-> length a <> length b.
Proof.
  unfold cosineSimilarity.
  destruct (length a =? length b) eqn:E; simpl.
  - apply Nat.eqb_eq in E. split; [|tauto].
    intros [e He]. destruct (cosine_sums a b) as [[d na] nb].
    destruct (_ || _); discriminate.
  - apply Nat.eqb_neq in E. split; eauto.
Qed.

(** ** The linear-scan search *)

Lemma map_result_ok {A B} (f : A -> result B) (l : list A) :
  Forall (fun x => exists y, f x = Ok y) l ->
  exists ys, map_result f l = Ok ys /\ Forall2 (fun x y => f x = Ok y) l ys.
Proof.
  induction 1 as [|x l [y Hy] _ (ys & E & F)]; simpl.
  - exists []. auto.
  - exists (y :: ys). rewrite Hy, E. simpl. auto.
Qed.

Lemma slice_prefix {A} (n : Z) (l : list A) :
  (0 <= n)%Z -> slice 0 (Some n) l = firstn (Z.to_nat n) l.
Proof.
  intros Hn. unfold slice, relative_index. simpl.
  destruct (n <? 0)%Z eqn:E; [apply Z.ltb_lt in E; lia|].
  rewrite Nat.sub_0_r.
  destruct (Nat.le_ge_cases (Z.to_nat n) (length l)) as [Hle|Hge].
  - rewrite Nat.min_l by assumption. reflexivity.
  - rewrite Nat.min_r by assumption.
    rewrite !firstn_all2 by lia. reflexivity.
Qed.









Lemma firstn_In {A} (n : nat) (l : list A) (x : A) :
  In x (firstn n l) -> In x l.
Proof.
  intros Hin. rewrite <- (firstn_skipn n l). apply in_or_app. auto.
Qed.







Lemma Forall2_nth_error {A B} (P : A -> B -> Prop) (l : list A) (l' : list B)
    (i : nat) (y : B) :
  Forall2 P l l' -> nth_error l' i = Some y ->
  exists x, nth_error l i = Some x /\ P x y.
Proof.
  intros F. revert i. induction F as [|a b l l' Hab _ IH]; intros [|i] E;
    simpl in *; try discriminate.
  - inversion E; subst. eauto.
  - auto.
Qed.

Lemma score_ok {num} `{JSNumber num} (q : list num) (c : Chunk num)
    (sc : ScoredChunk num) :
  score q c = Ok sc ->
  chunk sc = c /\ cosineSimilarity q (embedding c) = Ok (similarity sc).
Proof.
  unfold score. destruct (cosineSimilarity q (embedding c)) as [s|e]; simpl;
    intros E; inversion E; subst; simpl; auto.
Qed.

Lemma score_total {num} `{JSNumber num} (q : list num) (c : Chunk num) :
  length (embedding c) = length q -> exists sc, score q c = Ok sc.
Proof.
  intros Hlen. unfold score.
  destruct (cosineSimilarity q (embedding c)) as [s|e] eqn:E; simpl; eauto.
  exfalso. apply (proj1 (cosineSimilarity_throws_iff q (embedding c))); eauto.
Qed.

Lemma searchBookChunks_total {num} `{JSNumber num} (file : ChunksFile num)
    (q : list num) (thr : num) (limit : Z) :
  Forall (fun c => length (embedding c) = length q) (loadBookChunks file) ->
  exists sims,
    map_result (score q) (loadBookChunks file) = Ok sims
    /\ Forall2 (fun c sc => score q c = Ok sc) (loadBookChunks file) sims
    /\ searchBookChunks file q thr limit
       = Ok (if length (loadBookChunks file) =? 0 then []
             else slice 0 (Some limit)
                    (sort by_similarity
                       (filter (fun c => (thr <=? similarity c)%js) sims))).
Proof.
  intros Hdim.
  destruct (@map_result_ok _ _ (score q) (loadBookChunks file)) as (sims & E & F).
  { eapply Forall_impl; [|exact Hdim]. intros c Hc. apply score_total, Hc. }
  exists sims. repeat split; auto.
  unfold searchBookChunks. destruct (length (loadBookChunks file) =? 0); auto.
  rewrite E. reflexivity.
Qed.








(** In binary64: two chunks tie at similarity 1 and keep the order of the
    store; the chunk below the threshold is left out. *)
Example search_ties_keep_store_order :
  searchBookChunks
    (FileChunks [sample_chunk "first" [2; 0]%float;
                 sample_chunk "other" [0; 1]%float;
                 sample_chunk "second" [1; 0]%float])
    [1; 0]%float 0.75%float 5
  = Ok [ {| chunk := sample_chunk "first" [2; 0]%float; similarity := 1%float |};
         {| chunk := sample_chunk "second" [1; 0]%float; similarity := 1%float |} ].
Proof. vm_compute. reflexivity. Qed.


(** ** The chat route *)

Section RouteProofs.
Context {num : Type} `{JSNumber num}.

Lemma sum_similarity_map (l : list (MatchRow num)) (acc : num) :
  fold_left (fun sum c => (sum + row_similarity c)%js) l acc
  = fold_left num_add (map (@row_similarity num) l) acc.
Proof.
  revert acc. induction l as [|c l IH]; intros; simpl; auto.
Qed.

Lemma averageConfidence_mean (top : list (MatchRow num)) :
  top <> [] ->
  averageConfidence top = percentage (mean (map (@row_similarity num) top)).
Proof.
  intros Hne. unfold averageConfidence, percentage, mean, sum_similarity, hundred.
  destruct top as [|c top]; [congruence|].
  cbn [length Nat.ltb Nat.leb]. rewrite sum_similarity_map, length_map.
  reflexivity.
Qed.

Lemma length_zero_iff {A} (l : list A) : (length l =? 0) = true <-> l = [].
Proof. destruct l; simpl; split; intros; congruence. Qed.

Lemma trim_nonempty_length (q : jsstring) :
  trim q <> [] -> (length (trim q) =? 0) = false /\ (0 <? length q) = true.
Proof.
  intros Hne. split.
  - destruct (trim q); [congruence|reflexivity].
  - destruct q; [exfalso; apply Hne; reflexivity|reflexivity].
Qed.

Lemma remoteSearch_ok (env : Providers num) (v : list num) (thr : num)
    (cap : Z) (log : list (Call num)) :
  error (match_book_chunks env v thr cap) = None ->
  remoteSearchBookChunks env v thr cap log
  = (Ok (rpc_rows env v thr cap), log ++ [SearchCall v thr cap]).
Proof.
  intros E. unfold remoteSearchBookChunks, bindIO, call, rpc_rows.
  rewrite E. reflexivity.
Qed.

Lemma POST_accepted (env : Providers num) (body : JSValue num)
    (q : jsstring) (v : list num) :
  destructure_question body = Ok (JSString q) ->
  valid_question q ->
  embeddings_create env (trim q) = Ok v ->
  (forall thr cap, error (match_book_chunks env v thr cap) = None) ->
  POST env (Ok body) = accepted_run env q v.
Proof.
  intros Hq [Hne Hlen] Hv Herr.
  destruct (trim_nonempty_length q Hne) as [Ht Hl].
  unfold POST, try_catch, POST_body, bindIO at 1, lift at 1. simpl bind.
  rewrite Hq. cbn [truthy]. rewrite Hl, Ht. cbn [negb orb].
  assert (Hlong : (1000 <? length q) = false) by (apply Nat.ltb_ge; lia).
  rewrite Hlong.
  unfold bindIO at 1.
  unfold generateEmbedding, try_catch, bindIO at 1, call, lift. rewrite Hv.
  unfold bindIO at 1. rewrite remoteSearch_ok by apply Herr.
  unfold accepted_run, relaxation_steps. cbn [relax].
  cbn [app].
  destruct (rpc_rows env v (decimal 3 10) 10) as [|a1 r1] eqn:E1.
  - unfold bindIO at 1. cbn [length Nat.eqb].
    rewrite remoteSearch_ok by apply Herr.
    destruct (rpc_rows env v (decimal 2 10) 15) as [|a2 r2] eqn:E2.
    + unfold bindIO at 1. cbn [length Nat.eqb].
      rewrite remoteSearch_ok by apply Herr.
      destruct (rpc_rows env v (decimal 1 10) 20) as [|a3 r3] eqn:E3.
      * reflexivity.
      * cbn [length Nat.eqb]. rewrite slice_prefix by lia.
        unfold bindIO, generateChatResponse, try_catch, bindIO, call, lift,
          json_response, ret.
        rewrite averageConfidence_mean by discriminate.
        destruct (chat_completions_create env q _); reflexivity.
    + unfold bindIO at 1. cbn [length Nat.eqb]. unfold ret at 1.
      rewrite slice_prefix by lia.
      unfold bindIO, generateChatResponse, try_catch, bindIO, call, lift,
        json_response, ret.
      rewrite averageConfidence_mean by discriminate.
      destruct (chat_completions_create env q _); reflexivity.
  - unfold bindIO at 1. cbn [length Nat.eqb]. unfold ret at 1.
    unfold bindIO at 1. cbn [length Nat.eqb]. unfold ret at 1.
    rewrite slice_prefix by lia.
    unfold bindIO, generateChatResponse, try_catch, bindIO, call, lift,
      json_response, ret.
    rewrite averageConfidence_mean by discriminate.
    destruct (chat_completions_create env q _); reflexivity.
Qed.
End RouteProofs.

Section RouteTheorems.
Context {num : Type} `{JSNumber num}.


End RouteTheorems.

(** ** Strings *)

Lemma clean_nonempty (s : jsstring) : clean s -> s <> [].
Proof. intros [H _] E. subst. discriminate. Qed.

Lemma drop_while_clean (s : jsstring) :
  is_space (hd SPACE s) = false -> drop_while is_space s = s.
Proof. destruct s as [|c s]; simpl; [auto|]. intros ->. reflexivity. Qed.

Lemma drop_while_end_cons {A} (p : A -> bool) (x : A) (l : list A) :
  drop_while_end p (x :: l)
  = match drop_while_end p l with
    | [] => if p x then [] else [x]
    | kept => x :: kept
    end.
Proof. reflexivity. Qed.

Lemma drop_while_end_clean (s : jsstring) :
  is_space (last s SPACE) = false -> drop_while_end is_space s = s.
Proof.
  induction s as [|c s IH]; [reflexivity|]. intros Hlast.
  destruct s as [|c' s'].
  - simpl in *. rewrite Hlast. reflexivity.
  - rewrite drop_while_end_cons, IH by exact Hlast. reflexivity.
Qed.

Lemma trim_clean (s : jsstring) : clean s -> trim s = s.
Proof.
  intros [Hhd Hlast]. unfold trim.
  rewrite (drop_while_clean s Hhd). apply drop_while_end_clean. exact Hlast.
Qed.

Lemma drop_while_hd (p : char -> bool) (l : jsstring) (d : char) :
  drop_while p l <> [] -> p (hd d (drop_while p l)) = false.
Proof.
  induction l as [|x l IH]; simpl; [congruence|].
  destruct (p x) eqn:E; [assumption|]. intros _. exact E.
Qed.

Lemma drop_while_end_hd (p : char -> bool) (l : jsstring) (d : char) :
  drop_while_end p l <> [] -> hd d (drop_while_end p l) = hd d l.
Proof.
  destruct l as [|x l]; [reflexivity|]. rewrite drop_while_end_cons.
  destruct (drop_while_end p l); [|reflexivity].
  destruct (p x); [congruence|reflexivity].
Qed.

Lemma drop_while_end_last (p : char -> bool) (l : jsstring) (d : char) :
  drop_while_end p l <> [] -> p (last (drop_while_end p l) d) = false.
Proof.
  induction l as [|x l IH]; [simpl; congruence|]. rewrite drop_while_end_cons.
  destruct (drop_while_end p l) as [|y kept] eqn:E.
  - destruct (p x) eqn:Ex; [congruence|]. intros _. exact Ex.
  - intros _. change (last (x :: y :: kept) d) with (last (y :: kept) d).
    apply IH. discriminate.
Qed.

Lemma last_app_nonempty {A} (pre l : list A) (d : A) :
  l <> [] -> last (pre ++ l) d = last l d.
Proof.
  intros Hne. induction pre as [|x pre IH]; [reflexivity|].
  simpl app. destruct (pre ++ l) eqn:E.
  - destruct pre; simpl in E; congruence.
  - rewrite <- E in *. simpl. rewrite E. rewrite <- E. exact IH.
Qed.

(** A trimmed string is empty or has no white space at either end. *)
Lemma trim_is_clean (s : jsstring) : trim s <> [] -> clean (trim s).
Proof.
  unfold trim. intros Hne. split.
  - rewrite drop_while_end_hd by exact Hne.
    apply drop_while_hd. intros E. rewrite E in Hne. apply Hne. reflexivity.
  - apply drop_while_end_last. exact Hne.
Qed.

Lemma last_snoc {A} (l : list A) (x d : A) : last (l ++ [x]) d = x.
Proof. apply last_app_nonempty with (l := [x]). discriminate. Qed.

Lemma hd_app_nonempty {A} (l l' : list A) (d : A) :
  l <> [] -> hd d (l ++ l') = hd d l.
Proof. destruct l; [congruence|reflexivity]. Qed.

(** A sentence of the chunker is clean. *)
Lemma sentence_clean (s : jsstring) :
  trim s <> [] -> clean (trim s ++ [FULL_STOP]).
Proof.
  intros Hne. destruct (trim_is_clean s Hne) as [Hhd _]. split.
  - rewrite hd_app_nonempty by assumption. exact Hhd.
  - rewrite last_snoc. reflexivity.
Qed.

(** ** Splitting and joining *)

Lemma split_on_nonempty (sep : char -> bool) (s : jsstring) :
  split_on sep s <> [].
Proof.
  induction s as [|c s IH]; simpl; [discriminate|].
  destruct (sep c).
  - destruct s as [|c' s']; [discriminate|].
    destruct (sep c'); [assumption|discriminate].
  - destruct (split_on sep s); discriminate.
Qed.

(** No piece holds a separator. *)
Lemma split_on_pieces (sep : char -> bool) (s : jsstring) :
  Forall (Forall (fun c => sep c = false)) (split_on sep s).
Proof.
  induction s as [|c s IH]; simpl; [repeat constructor|].
  destruct (sep c) eqn:E.
  - destruct s as [|c' s']; [repeat constructor|].
    destruct (sep c'); [assumption|constructor; [constructor|assumption]].
  - destruct (split_on sep s) as [|piece rest]; [repeat constructor; assumption|].
    inversion IH; subst. constructor; [constructor|]; assumption.
Qed.

Lemma split_on_cons (sep : char -> bool) (c c' : char) (s : jsstring) :
  split_on sep (c :: c' :: s)
  = if sep c then
      (if sep c' then split_on sep (c' :: s) else [] :: split_on sep (c' :: s))
    else
      match split_on sep (c' :: s) with
      | piece :: rest => (c :: piece) :: rest
      | [] => [[c]]
      end.
Proof. reflexivity. Qed.

(** When the text ends outside a separator, only the first piece can be
    empty, and it is so exactly when the text begins with a separator. *)
Lemma split_on_inner (sep : char -> bool) (s : jsstring) :
  sep (last s SPACE) = false ->
  s <> [] ->
  Forall (fun w => w <> []) (tl (split_on sep s))
  /\ (sep (hd SPACE s) = false -> hd [] (split_on sep s) <> []).
Proof.
  intros Hlast Hne. induction s as [|c s IH]; [congruence|].
  destruct s as [|c' s'].
  - simpl in *. rewrite Hlast. simpl. split; [constructor|discriminate].
  - assert (Hlast' : sep (last (c' :: s') SPACE) = false) by exact Hlast.
    specialize (IH Hlast' ltac:(discriminate)). destruct IH as [IHtl IHhd].
    rewrite split_on_cons.
    set (pieces := split_on sep (c' :: s')) in *. clearbody pieces.
    cbn [hd] in *.
    destruct (sep c) eqn:Ec.
    + destruct (sep c') eqn:Ec'.
      * split; [assumption|]. congruence.
      * split; [|congruence]. cbn [tl].
        specialize (IHhd eq_refl).
        destruct pieces as [|piece rest]; [constructor|].
        constructor; assumption.
    + destruct pieces as [|piece rest].
      * split; [constructor|discriminate].
      * split; [assumption|]. simpl. discriminate.
Qed.

(** The words of a clean string are not empty. *)
Lemma words_nonempty (s : jsstring) :
  clean s -> Forall (fun w => w <> []) (split_on is_space s).
Proof.
  intros Hc. pose proof (clean_nonempty s Hc) as Hne. destruct Hc as [Hhd Hlast].
  destruct (split_on_inner is_space s Hlast Hne) as [Htl Hfirst].
  specialize (Hfirst Hhd).
  destruct (split_on is_space s) as [|w ws]; constructor; assumption.
Qed.

Lemma words_are_words (s : jsstring) :
  clean s -> Forall is_word (split_on is_space s).
Proof.
  intros Hc. pose proof (words_nonempty s Hc) as H1.
  pose proof (split_on_pieces is_space s) as H2.
  rewrite Forall_forall in *. intros w Hw. split; auto.
Qed.

Lemma split_on_space (t : jsstring) :
  is_space (hd SPACE t) = false ->
  split_on is_space (SPACE :: t) = [] :: split_on is_space t.
Proof.
  destruct t as [|d t]; [discriminate|]. cbn [hd]. intros Ht.
  rewrite split_on_cons, Ht. reflexivity.
Qed.

Lemma split_on_word (w t : jsstring) :
  is_word w -> is_space (hd SPACE t) = false ->
  split_on is_space (w ++ SPACE :: t) = w :: split_on is_space t.
Proof.
  intros [Hne Hw] Ht. induction w as [|c w IH]; [congruence|].
  inversion Hw as [|? ? Hc Hw']; subst.
  destruct w as [|c' w'].
  - cbn [app]. rewrite split_on_cons, Hc, split_on_space by assumption.
    reflexivity.
  - specialize (IH ltac:(discriminate) Hw').
    change ((c :: c' :: w') ++ SPACE :: t)
      with (c :: c' :: (w' ++ SPACE :: t)).
    rewrite split_on_cons, Hc.
    change (c' :: w' ++ SPACE :: t) with ((c' :: w') ++ SPACE :: t).
    rewrite IH. reflexivity.
Qed.

Lemma join_cons (sep w : jsstring) (ws : list jsstring) :
  ws <> [] -> join sep (w :: ws) = w ++ sep ++ join sep ws.
Proof. destruct ws; [congruence|reflexivity]. Qed.

Lemma join_snoc (sep s : jsstring) (block : list jsstring) :
  block <> [] -> join sep (block ++ [s]) = join sep block ++ sep ++ s.
Proof.
  induction block as [|w block IH]; [congruence|]. intros _.
  destruct block as [|w' block'].
  - reflexivity.
  - change ((w :: w' :: block') ++ [s]) with (w :: ((w' :: block') ++ [s])).
    rewrite join_cons by (destruct block'; discriminate).
    rewrite IH by discriminate.
    rewrite (join_cons sep w (w' :: block')) by discriminate.
    rewrite <- !app_assoc. reflexivity.
Qed.

Lemma join_hd (sep : jsstring) (ws : list jsstring) (d : char) :
  hd [] ws <> [] -> hd d (join sep ws) = hd d (hd [] ws).
Proof.
  destruct ws as [|w ws]; cbn [hd]; intros Hw; [congruence|].
  destruct ws; [reflexivity|].
  rewrite join_cons by discriminate. apply hd_app_nonempty. exact Hw.
Qed.

Lemma join_nonempty (sep : jsstring) (ws : list jsstring) :
  last ws [] <> [] -> join sep ws <> [].
Proof.
  induction ws as [|w ws IH]; [simpl; intros; congruence|].
  destruct ws as [|w' ws']; [simpl; auto|].
  intros Hl. rewrite join_cons by discriminate. intros E.
  apply app_eq_nil in E. destruct E as [_ E].
  apply app_eq_nil in E. destruct E as [_ E].
  revert E. apply IH. exact Hl.
Qed.

Lemma join_last (sep : jsstring) (ws : list jsstring) (d : char) :
  last ws [] <> [] -> last (join sep ws) d = last (last ws []) d.
Proof.
  induction ws as [|w ws IH]; [simpl; intros; congruence|].
  destruct ws as [|w' ws']; [reflexivity|].
  intros Hl. rewrite join_cons by discriminate. rewrite app_assoc.
  rewrite last_app_nonempty by (apply join_nonempty; exact Hl).
  apply IH. exact Hl.
Qed.

Lemma last_In {A} (l : list A) (d : A) : l <> [] -> In (last l d) l.
Proof.
  intros Hne. destruct (exists_last Hne) as (l' & a & ->).
  rewrite last_snoc. apply in_or_app. right. left. reflexivity.
Qed.

(** The words of "[ws] joined, a space, [t]" are [ws] and the words of [t]. *)
Lemma split_on_join (ws : list jsstring) (t : jsstring) :
  ws <> [] -> Forall is_word ws -> is_space (hd SPACE t) = false ->
  split_on is_space (join [SPACE] ws ++ [SPACE] ++ t)
  = ws ++ split_on is_space t.
Proof.
  intros Hne Hws Ht. induction ws as [|w ws IH]; [congruence|].
  inversion Hws as [|? ? Hw Hws']; subst.
  destruct ws as [|w' ws'].
  - cbn [join app]. apply split_on_word; assumption.
  - rewrite join_cons by discriminate.
    rewrite <- !app_assoc. cbn [app].
    rewrite split_on_word.
    + cbn [app]. f_equal. apply (IH ltac:(discriminate) Hws').
    + exact Hw.
    + inversion Hws' as [|? ? [Hw'ne Hw'] _]; subst.
      rewrite hd_app_nonempty.
      * rewrite join_hd by exact Hw'ne. cbn [hd].
        destruct w' as [|c w'']; [congruence|].
        inversion Hw'; subst. assumption.
      * apply join_nonempty.
        rewrite Forall_forall in Hws'.
        apply (Hws' (last (w' :: ws') [])), last_In. discriminate.
Qed.

(** [words.slice(-overlap)] for a non-negative [overlap] is a non-empty
    end of [words]: all of it when [overlap] is 0, its last [overlap]
    entries otherwise. *)
Lemma slice_overlap {A} (overlap : Z) (words : list A) :
  (0 <= overlap)%Z ->
  slice (- overlap) None words
  = skipn (if (overlap =? 0)%Z then 0 else length words - Z.to_nat overlap) words.
Proof.
  intros Ho. unfold slice, relative_index.
  destruct (overlap =? 0)%Z eqn:E0.
  - apply Z.eqb_eq in E0. subst. simpl. rewrite Nat.sub_0_r. apply firstn_all.
  - apply Z.eqb_neq in E0.
    destruct (- overlap <? 0)%Z eqn:E; [|apply Z.ltb_ge in E; lia].
    replace (Z.to_nat (Z.max (Z.of_nat (length words) + - overlap) 0))
      with (length words - Z.to_nat overlap) by lia.
    rewrite <- (length_skipn (length words - Z.to_nat overlap) words) at 1.
    replace (length words - (length words - Z.to_nat overlap))
      with (length (skipn (length words - Z.to_nat overlap) words))
      by (rewrite length_skipn; lia).
    apply firstn_all.
Qed.

Lemma slice_overlap_last_words (overlap : Z) (c : jsstring) :
  (1 <= overlap)%Z ->
  slice (- overlap) None (split_on is_space c) = last_words overlap c.
Proof.
  intros Ho. rewrite slice_overlap by lia.
  destruct (overlap =? 0)%Z eqn:E; [apply Z.eqb_eq in E; lia|]. reflexivity.
Qed.

Lemma skipn_In {A} (n : nat) (l : list A) (x : A) :
  In x (skipn n l) -> In x l.
Proof.
  intros Hin. rewrite <- (firstn_skipn n l). apply in_or_app. auto.
Qed.

(** The overlap words of a clean chunk: at least one, all of them words. *)
Lemma overlap_words (overlap : Z) (c : jsstring) :
  (0 <= overlap)%Z -> clean c ->
  slice (- overlap) None (split_on is_space c) <> []
  /\ Forall is_word (slice (- overlap) None (split_on is_space c)).
Proof.
  intros Ho Hc. rewrite slice_overlap by assumption.
  pose proof (split_on_nonempty is_space c) as Hne.
  pose proof (words_are_words c Hc) as Hw.
  set (words := split_on is_space c) in *.
  set (k := if (overlap =? 0)%Z then 0 else length words - Z.to_nat overlap).
  assert (Hk : k < length words).
  { unfold k. destruct words; [congruence|]. simpl length.
    destruct (overlap =? 0)%Z eqn:E; [lia|]. apply Z.eqb_neq in E. lia. }
  split.
  - intros E. apply (f_equal (@length _)) in E. rewrite length_skipn in E.
    simpl in E. lia.
  - rewrite Forall_forall in *. intros w Hin. apply Hw.
    apply (skipn_In k). exact Hin.
Qed.

Lemma overlap_seed_hd (overlap : Z) (c : jsstring) :
  (0 <= overlap)%Z -> clean c ->
  is_space (hd SPACE (overlap_seed overlap c)) = false
  /\ overlap_seed overlap c <> [].
Proof.
  intros Ho Hc. destruct (overlap_words overlap c Ho Hc) as [Hne Hw].
  unfold overlap_seed.
  destruct (slice (- overlap) None (split_on is_space c)) as [|w ws];
    [congruence|].
  inversion Hw as [|? ? [Hwne Hwc] _]; subst.
  assert (Hhd : is_space (hd SPACE (join [SPACE] (w :: ws))) = false).
  { rewrite join_hd by exact Hwne. cbn [hd].
    destruct w; [congruence|]. inversion Hwc; subst. assumption. }
  split; [exact Hhd|].
  intros E. rewrite E in Hhd. discriminate.
Qed.

(** ** The chunker *)

Lemma block_join_clean (block : list jsstring) :
  block <> [] -> Forall clean block -> clean (join [SPACE] block).
Proof.
  intros Hne Hb. rewrite Forall_forall in Hb. split.
  - destruct block as [|s block]; [congruence|].
    destruct (Hb s (or_introl eq_refl)) as [Hhd _].
    rewrite join_hd; cbn [hd]; [exact Hhd|].
    intros E. rewrite E in Hhd. discriminate.
  - pose proof (Hb _ (last_In block [] Hne)) as [Hhd Hlast].
    rewrite join_last; [exact Hlast|].
    intros E. rewrite E in Hhd. discriminate.
Qed.

Lemma chunk_of_clean (overlap : Z) (previous : option jsstring)
    (block : list jsstring) :
  (0 <= overlap)%Z ->
  match previous with Some p => clean p | None => True end ->
  block <> [] -> Forall clean block ->
  clean (chunk_of overlap previous block).
Proof.
  intros Ho Hp Hne Hb. pose proof (block_join_clean block Hne Hb) as [Hhd Hlast].
  destruct previous as [p|]; [|split; assumption].
  unfold chunk_of. destruct (overlap_seed_hd overlap p Ho Hp) as [Hs Hsne].
  split.
  - rewrite hd_app_nonempty by exact Hsne. exact Hs.
  - rewrite app_assoc, last_app_nonempty; [exact Hlast|].
    intros E. rewrite E in Hhd. discriminate.
Qed.

Lemma chunk_of_snoc (overlap : Z) (previous : option jsstring)
    (block : list jsstring) (s : jsstring) :
  block <> [] ->
  chunk_of overlap previous (block ++ [s])
  = chunk_of overlap previous block ++ [SPACE] ++ s.
Proof.
  intros Hne. unfold chunk_of. rewrite join_snoc by exact Hne.
  destruct previous; [|reflexivity]. rewrite <- !app_assoc. reflexivity.
Qed.

Lemma assemble_snoc (overlap : Z) (previous : option jsstring)
    (blocks : list (list jsstring)) (block : list jsstring) :
  assemble overlap previous (blocks ++ [block])
  = assemble overlap previous blocks
    ++ [chunk_of overlap
          (last_chunk previous (assemble overlap previous blocks)) block].
Proof.
  revert previous. induction blocks as [|b blocks IH]; intros previous.
  - reflexivity.
  - cbn [app assemble]. rewrite IH. cbn [app]. do 3 f_equal.
    unfold last_chunk.
    destruct (assemble overlap (Some (chunk_of overlap previous b)) blocks)
      as [|c cs] eqn:E; reflexivity.
Qed.

Lemma last_chunk_snoc (previous : option jsstring) (l : list jsstring)
    (c : jsstring) :
  last_chunk previous (l ++ [c]) = Some c.
Proof.
  unfold last_chunk. rewrite last_snoc. destruct l; reflexivity.
Qed.

Lemma last_chunk_clean (l : list jsstring) :
  Forall clean l ->
  match last_chunk None l with Some p => clean p | None => True end.
Proof.
  intros Hl. destruct l as [|c l]; [exact I|]. unfold last_chunk.
  rewrite Forall_forall in Hl. apply Hl, last_In. discriminate.
Qed.

Lemma concat_snoc_block (blocks : list (list jsstring)) (block : list jsstring)
    (s : jsstring) :
  concat (blocks ++ [block ++ [s]]) = concat (blocks ++ [block]) ++ [s].
Proof. rewrite !concat_app. simpl. rewrite !app_nil_r, app_assoc. reflexivity. Qed.

(** One turn of the loop keeps the invariant. *)
Lemma chunker_step_inv (chunkSize overlap : Z) (st : Chunker)
    (consumed : list jsstring) (raw : jsstring) :
  (0 <= overlap)%Z ->
  trim raw <> [] ->
  chunker_inv overlap st consumed ->
  chunker_inv overlap (chunker_step chunkSize overlap st raw)
    (consumed ++ [trim raw ++ [FULL_STOP]]).
Proof.
  intros Ho Hraw Hinv.
  pose proof (sentence_clean raw Hraw) as Hs.
  set (sentence := trim raw ++ [FULL_STOP]) in *.
  destruct Hinv as [(-> & Hchunks & Hcur)
                   | (blocks & block & Hne & Hblocks & Hcat & Hasm & Hcur & Hcc & Hcs)].
  - right. exists [], [sentence].
    unfold chunker_step. rewrite Hcur, Hchunks. cbn [length Nat.ltb Nat.leb].
    rewrite andb_false_r. cbn [chunks currentChunk app].
    repeat split; try discriminate; try constructor; apply Hs.
  - right. unfold chunker_step. fold sentence.
    destruct ((chunkSize <? currentTokens st + estimateTokens sentence)%Z
              && (0 <? length (currentChunk st))) eqn:Econd.
    + exists (blocks ++ [block]), [sentence].
      cbn [chunks currentChunk]. rewrite (trim_clean _ Hcc).
      split; [discriminate|].
      split; [apply Forall_app; split; [assumption|repeat constructor; assumption]|].
      split; [rewrite concat_app; cbn [concat]; rewrite app_nil_r;
              rewrite Hcat; reflexivity|].
      split; [rewrite assemble_snoc, Hasm, <- Hcur; reflexivity|].
      rewrite last_chunk_snoc.
      assert (Hnext : join [SPACE] (slice (- overlap) None (split_on is_space (currentChunk st)))
                      ++ [SPACE] ++ sentence
                      = chunk_of overlap (Some (currentChunk st)) [sentence])
        by reflexivity.
      rewrite Hnext.
      split; [reflexivity|].
      split; [|apply Forall_app; split; [assumption|constructor; [exact Hcc|constructor]]].
      apply chunk_of_clean;
        [exact Ho | exact Hcc | discriminate | constructor; [exact Hs|constructor]].
    + exists blocks, (block ++ [sentence]).
      cbn [chunks currentChunk].
      assert (Hlen : (0 <? length (currentChunk st)) = true).
      { pose proof (clean_nonempty _ Hcc). destruct (currentChunk st);
          [congruence|reflexivity]. }
      rewrite Hlen.
      split; [destruct block; discriminate|].
      split; [assumption|].
      split; [rewrite concat_snoc_block, Hcat; reflexivity|].
      split; [assumption|].
      split; [rewrite chunk_of_snoc, <- Hcur by assumption; reflexivity|].
      split; [|assumption].
      destruct Hcc as [Hhd _]. destruct Hs as [_ Hslast]. split.
      * rewrite hd_app_nonempty; [exact Hhd|].
        intros E. rewrite E in Hhd. discriminate.
      * rewrite app_assoc, last_app_nonempty; [exact Hslast|].
        unfold sentence. destruct (trim raw); discriminate.
Qed.

Lemma chunker_fold_inv (chunkSize overlap : Z) (raws : list jsstring)
    (st : Chunker) (consumed : list jsstring) :
  (0 <= overlap)%Z ->
  Forall (fun raw => trim raw <> []) raws ->
  chunker_inv overlap st consumed ->
  chunker_inv overlap (fold_left (chunker_step chunkSize overlap) raws st)
    (consumed ++ map (fun s => trim s ++ [FULL_STOP]) raws).
Proof.
  intros Ho Hraws. revert st consumed.
  induction Hraws as [|raw raws Hraw _ IH]; intros st consumed Hinv.
  - simpl. rewrite app_nil_r. exact Hinv.
  - cbn [fold_left map].
    replace (consumed ++ (trim raw ++ [FULL_STOP]) :: map (fun s => trim s ++ [FULL_STOP]) raws)
      with ((consumed ++ [trim raw ++ [FULL_STOP]])
            ++ map (fun s => trim s ++ [FULL_STOP]) raws)
      by (rewrite <- app_assoc; reflexivity).
    apply IH. apply chunker_step_inv; assumption.
Qed.

Lemma split_sentences_trimmed (text : jsstring) :
  Forall (fun raw => trim raw <> []) (split_sentences text).
Proof.
  unfold split_sentences. rewrite Forall_forall. intros raw Hin.
  apply filter_In in Hin. destruct Hin as [_ Hlen].
  intros E. rewrite E in Hlen. discriminate.
Qed.

(** The finalized chunks are assembled from a partition of the sentence
    sequence into non-empty blocks, and are clean. *)
Lemma finalizedChunks_assemble (text : jsstring) (chunkSize overlap : Z) :
  (0 <= overlap)%Z ->
  exists blocks,
    Forall (fun b => b <> []) blocks
    /\ concat blocks = sentences_of text
    /\ finalizedChunks text chunkSize overlap = assemble overlap None blocks
    /\ Forall clean (finalizedChunks text chunkSize overlap).
Proof.
  intros Ho. unfold finalizedChunks, sentences_of.
  pose proof (chunker_fold_inv chunkSize overlap (split_sentences text)
                {| chunks := []; currentChunk := []; currentTokens := 0 |} []
                Ho (split_sentences_trimmed text)
                (or_introl (conj eq_refl (conj eq_refl eq_refl)))) as Hinv.
  cbn [app] in Hinv. cbv zeta.
  set (st := fold_left _ _ _) in *. clearbody st.
  destruct Hinv as [(Hnil & Hchunks & Hcur)
                   | (blocks & block & Hne & Hblocks & Hcat & Hasm & Hcur & Hcc & Hcs)].
  - exists []. rewrite Hcur, Hchunks, Hnil. simpl. repeat split; constructor.
  - exists (blocks ++ [block]).
    rewrite (trim_clean _ Hcc).
    assert (Hlen : (0 <? length (currentChunk st)) = true).
    { pose proof (clean_nonempty _ Hcc). destruct (currentChunk st);
        [congruence|reflexivity]. }
    rewrite Hlen.
    split; [apply Forall_app; split; [assumption|constructor; [assumption|constructor]]|].
    split; [assumption|].
    split; [rewrite assemble_snoc, Hasm, <- Hcur; reflexivity|].
    apply Forall_app; split; [assumption|constructor; [assumption|constructor]].
Qed.

Lemma strip_seeds_assemble (overlap : Z) (previous : option jsstring)
    (blocks : list (list jsstring)) :
  strip_seeds overlap previous (assemble overlap previous blocks)
  = map (join [SPACE]) blocks.
Proof.
  revert previous. induction blocks as [|b blocks IH]; intros previous;
    [reflexivity|].
  cbn [assemble strip_seeds map]. rewrite IH. f_equal.
  destruct previous as [p|]; [|reflexivity].
  unfold without_seed, chunk_of.
  rewrite app_assoc, skipn_app.
  replace (length (overlap_seed overlap p) + 1)
    with (length (overlap_seed overlap p ++ [SPACE]))
    by (rewrite length_app; reflexivity).
  rewrite skipn_all, Nat.sub_diag. reflexivity.
Qed.

Lemma join_app (sep : jsstring) (l1 l2 : list jsstring) :
  l1 <> [] -> l2 <> [] ->
  join sep (l1 ++ l2) = join sep l1 ++ sep ++ join sep l2.
Proof.
  intros H1 H2. induction l1 as [|s l1 IH]; [congruence|].
  destruct l1 as [|s' l1'].
  - cbn [app]. rewrite join_cons by exact H2. reflexivity.
  - change ((s :: s' :: l1') ++ l2) with (s :: ((s' :: l1') ++ l2)).
    rewrite join_cons by discriminate.
    rewrite IH by discriminate.
    rewrite (join_cons sep s (s' :: l1')) by discriminate.
    rewrite <- !app_assoc. reflexivity.
Qed.

Lemma join_concat (blocks : list (list jsstring)) :
  Forall (fun b => b <> []) blocks ->
  join [SPACE] (map (join [SPACE]) blocks) = join [SPACE] (concat blocks).
Proof.
  induction 1 as [|b blocks Hb Hblocks IH]; [reflexivity|].
  destruct blocks as [|b' blocks'].
  - cbn [map concat join]. rewrite app_nil_r. reflexivity.
  - change (map (join [SPACE]) (b :: b' :: blocks'))
      with (join [SPACE] b :: map (join [SPACE]) (b' :: blocks')).
    rewrite join_cons by discriminate. rewrite IH.
    change (concat (b :: b' :: blocks')) with (b ++ concat (b' :: blocks')).
    rewrite join_app; [reflexivity|exact Hb|].
    inversion Hblocks as [|? ? Hb' _]; subst.
    cbn [concat]. destruct b'; [congruence|discriminate].
Qed.

Lemma sentences_of_clean (text : jsstring) :
  Forall clean (sentences_of text).
Proof.
  unfold sentences_of. rewrite Forall_map.
  eapply Forall_impl; [|apply split_sentences_trimmed].
  intros raw Hraw. apply sentence_clean. exact Hraw.
Qed.

Lemma assemble_consecutive (overlap : Z) (previous : option jsstring)
    (blocks : list (list jsstring)) (i : nat) (c c' : jsstring) :
  nth_error (assemble overlap previous blocks) i = Some c ->
  nth_error (assemble overlap previous blocks) (S i) = Some c' ->
  exists block,
    nth_error blocks (S i) = Some block
    /\ c' = chunk_of overlap (Some c) block.
Proof.
  revert previous i. induction blocks as [|b blocks IH]; intros previous i Hc Hc'.
  - destruct i; discriminate.
  - cbn [assemble] in *. destruct i as [|i].
    + cbn [nth_error] in Hc. inversion Hc; subst c.
      destruct blocks as [|b' blocks']; [discriminate|].
      cbn [assemble nth_error] in Hc'. inversion Hc'; subst c'.
      exists b'. split; reflexivity.
    + cbn [nth_error] in Hc, Hc'.
      destruct (IH _ _ Hc Hc') as (block & Hb & E).
      exists block. split; assumption.
Qed.

(** C4 (amended). For a non-negative overlap the chunks finalized by
    [splitTextIntoChunks], before its minimum-length filter, are assembled
    from a partition of the sentence sequence of the text into non-empty
    blocks; without their overlap regions and joined by spaces they are the
    sentence sequence joined by spaces, so no sentence is dropped.  The
    result of the function is this list without the chunks of at most 50
    code units, and is a function of the three arguments. *)
Theorem finalized_chunks_reconstruct_sentences
    (text : jsstring) (chunkSize overlap : Z) :
  (0 <= overlap)%Z ->
  (forall r1 r2,
     splitTextIntoChunks text chunkSize overlap = r1 ->
     splitTextIntoChunks text chunkSize overlap = r2 -> r1 = r2)
  /\ splitTextIntoChunks text chunkSize overlap
     = filter (fun c => 50 <? length c) (finalizedChunks text chunkSize overlap)
  /\ (exists blocks,
        Forall (fun b => b <> []) blocks
        /\ concat blocks = sentences_of text
        /\ finalizedChunks text chunkSize overlap = assemble overlap None blocks
        /\ strip_seeds overlap None (finalizedChunks text chunkSize overlap)
           = map (join [SPACE]) blocks)
  /\ join [SPACE] (strip_seeds overlap None (finalizedChunks text chunkSize overlap))
     = join [SPACE] (sentences_of text).
Proof.
  intros Ho.
  destruct (finalizedChunks_assemble text chunkSize overlap Ho)
    as (blocks & Hne & Hcat & Hasm & _).
  split; [intros r1 r2 E1 E2; congruence|].
  split; [reflexivity|].
  split.
  - exists blocks. repeat split; try assumption.
    rewrite Hasm. apply strip_seeds_assemble.
  - rewrite Hasm, strip_seeds_assemble, join_concat by assumption.
    rewrite Hcat. reflexivity.
Qed.

(** C9 (amended). For an overlap of at least 1 and two consecutive chunks
    [c], [c'] in the list finalized by [splitTextIntoChunks] before its
    minimum-length filter: [c'] is the last [overlap] words of [c] (all of
    them when [c] has fewer) joined by single spaces, a space, and a
    non-empty block of sentences of the text; and these words are exactly
    the first words of [c']. *)
Theorem consecutive_chunks_share_overlap_words
    (text : jsstring) (chunkSize overlap : Z) (i : nat) (c c' : jsstring) :
  (1 <= overlap)%Z ->
  nth_error (finalizedChunks text chunkSize overlap) i = Some c ->
  nth_error (finalizedChunks text chunkSize overlap) (S i) = Some c' ->
  length (last_words overlap c)
  = Nat.min (Z.to_nat overlap) (length (split_on is_space c))
  /\ exists block,
       block <> []
       /\ (forall s, In s block -> In s (sentences_of text))
       /\ c' = join [SPACE] (last_words overlap c) ++ [SPACE] ++ join [SPACE] block
       /\ split_on is_space c'
          = last_words overlap c ++ split_on is_space (join [SPACE] block).
Proof.
  intros Ho Hc Hc'.
  split; [unfold last_words; rewrite length_skipn; lia|].
  destruct (finalizedChunks_assemble text chunkSize overlap)
    as (blocks & Hne & Hcat & Hasm & Hclean); [lia|].
  rewrite Hasm in Hc, Hc'.
  destruct (assemble_consecutive _ _ _ _ _ _ Hc Hc') as (block & Hb & E).
  pose proof (nth_error_In _ _ Hb) as Hin.
  assert (Hblock : block <> [])
    by (rewrite Forall_forall in Hne; apply Hne; exact Hin).
  assert (Hsub : forall s, In s block -> In s (sentences_of text)).
  { intros s Hs. rewrite <- Hcat. apply in_concat. eauto. }
  assert (Hcc : clean c).
  { rewrite Hasm in Hclean. rewrite Forall_forall in Hclean.
    apply Hclean. eapply nth_error_In; eauto. }
  assert (Hbc : Forall clean block).
  { pose proof (sentences_of_clean text) as Hs. rewrite Forall_forall in *.
    intros s Hin'. apply Hs, Hsub, Hin'. }
  exists block. split; [exact Hblock|]. split; [exact Hsub|].
  unfold chunk_of, overlap_seed in E.
  rewrite slice_overlap_last_words in E by exact Ho.
  split; [exact E|]. rewrite E.
  destruct (overlap_words overlap c ltac:(lia) Hcc) as [Hwne Hw].
  rewrite slice_overlap_last_words in Hwne, Hw by exact Ho.
  apply split_on_join; try assumption.
  apply block_join_clean; assumption.
Qed.

(** ** Ingestion into the remote store *)

Section UploadProofs.
Context {num : Type} `{JSNumber num}.

Lemma slice_range {A} (i n : nat) (l : list A) :
  slice (Z.of_nat i) (Some (Z.of_nat (i + n))) l = firstn n (skipn i l).
Proof.
  unfold slice, relative_index.
  destruct (Z.of_nat i <? 0)%Z eqn:E1; [apply Z.ltb_lt in E1; lia|].
  destruct (Z.of_nat (i + n) <? 0)%Z eqn:E2; [apply Z.ltb_lt in E2; lia|].
  rewrite !Nat2Z.id.
  destruct (Nat.le_gt_cases (length l) i) as [Hi|Hi].
  - rewrite !(Nat.min_r _ (length l)) by lia.
    rewrite skipn_all2 by lia. rewrite !firstn_nil. rewrite skipn_all2 by lia.
    rewrite firstn_nil. reflexivity.
  - rewrite (Nat.min_l i) by lia.
    destruct (Nat.le_gt_cases (i + n) (length l)) as [Hn|Hn].
    + rewrite Nat.min_l by lia. f_equal. lia.
    + rewrite Nat.min_r by lia.
      rewrite !firstn_all2; try reflexivity; rewrite length_skipn; lia.
Qed.

Lemma firstn_skipn_add {A} (n k : nat) (l : list A) :
  firstn n l ++ firstn k (skipn n l) = firstn (n + k) l.
Proof.
  revert l. induction n as [|n IH]; intros l; [reflexivity|].
  destruct l as [|x l]; [simpl; rewrite firstn_nil; reflexivity|].
  simpl. rewrite IH. reflexivity.
Qed.

Lemma skipn_add {A} (i n : nat) (l : list A) :
  skipn (i + n) l = skipn n (skipn i l).
Proof.
  revert l. induction i as [|i IH]; intros l; [reflexivity|].
  destruct l as [|x l]; [simpl; rewrite skipn_nil; reflexivity|].
  simpl. apply IH.
Qed.

(** The rows of the first batches are a prefix of the rows that remain. *)
Lemma batches_rows_prefix (fuel n i j : nat) (l : list (BookChunkRow num)) :
  exists k, rows_of (firstn j (batches_from fuel n l i)) = firstn k (skipn i l).
Proof.
  revert i j. induction fuel as [|fuel IH]; intros i j.
  - exists 0. simpl. rewrite firstn_nil. reflexivity.
  - cbn [batches_from]. destruct (i <? length l).
    + destruct j as [|j]; [exists 0; reflexivity|].
      destruct (IH (i + n) j) as [k Hk].
      exists (n + k). cbn [firstn]. unfold rows_of in *. cbn [map concat snd].
      rewrite Hk, slice_range, skipn_add. apply firstn_skipn_add.
    + exists 0. rewrite firstn_nil. reflexivity.
Qed.

(** The batches cover the list. *)
Lemma batches_rows_all (fuel n i : nat) (l : list (BookChunkRow num)) :
  1 <= n -> length l - i <= fuel ->
  rows_of (batches_from fuel n l i) = skipn i l.
Proof.
  intros Hn. revert i. induction fuel as [|fuel IH]; intros i Hfuel.
  - simpl. rewrite skipn_all2 by lia. reflexivity.
  - cbn [batches_from]. destruct (i <? length l) eqn:E.
    + unfold rows_of in *. cbn [map concat snd].
      apply Nat.ltb_lt in E.
      rewrite IH by lia. rewrite slice_range, skipn_add.
      apply firstn_skipn.
    + apply Nat.ltb_ge in E. rewrite skipn_all2 by lia. reflexivity.
Qed.

Lemma accepted_prefix (world : World num)
    (todo : list (nat * list (BookChunkRow num))) :
  accepted_batches world todo
  = firstn (length (accepted_batches world todo)) todo.
Proof.
  induction todo as [|[i batch] rest IH]; [reflexivity|].
  cbn [accepted_batches]. destruct (insert_error world i); [reflexivity|].
  cbn [length firstn]. rewrite <- IH. reflexivity.
Qed.

Lemma states_after_prefix (base : list (BookChunkRow num))
    (accepted : list (nat * list (BookChunkRow num))) :
  Forall (fun s => exists j, s = base ++ rows_of (firstn j accepted))
    (states_after base accepted).
Proof.
  revert base. induction accepted as [|[i batch] rest IH]; intros base;
    [constructor|].
  cbn [states_after]. constructor.
  - exists 1. unfold rows_of. simpl. rewrite app_nil_r. reflexivity.
  - eapply Forall_impl; [|apply IH]. intros s [j ->].
    exists (S j). unfold rows_of. cbn [firstn map concat snd].
    rewrite app_assoc. reflexivity.
Qed.

Lemma last_default {A} (l : list A) (d d' : A) :
  l <> [] -> last l d = last l d'.
Proof.
  induction l as [|x l IH]; [congruence|]. intros _.
  destruct l as [|y l]; [reflexivity|].
  change (last (y :: l) d = last (y :: l) d'). apply IH. discriminate.
Qed.

Lemma states_after_last (base : list (BookChunkRow num))
    (accepted : list (nat * list (BookChunkRow num))) :
  last (states_after base accepted) base = base ++ rows_of accepted.
Proof.
  revert base. induction accepted as [|[i batch] rest IH]; intros base.
  - simpl. rewrite app_nil_r. reflexivity.
  - cbn [states_after]. unfold rows_of in *. cbn [map concat snd].
    rewrite app_assoc, <- IH.
    destruct (states_after (base ++ batch) rest) as [|s l];
      [reflexivity|].
    change (last ((base ++ batch) :: s :: l) base) with (last (s :: l) base).
    apply last_default. discriminate.
Qed.

(** What the upload loop returns and leaves in the store. *)
Lemma upload_loop_run (world : World num)
    (todo : list (nat * list (BookChunkRow num))) (uploadedCount : nat)
    (db : Database num) :
  let accepted := accepted_batches world todo in
  exists r,
    upload_loop world todo uploadedCount db
    = (r, {| table := table db ++ rows_of accepted;
             written := written db ++ states_after (table db) accepted |})
    /\ (length accepted = length todo ->
        r = Ok (uploadedCount + length (rows_of todo)))
    /\ (length accepted <> length todo -> exists e, r = Throw e).
Proof.
  cbv zeta. revert uploadedCount db.
  induction todo as [|[i batch] rest IH]; intros uploadedCount db.
  - exists (Ok uploadedCount). simpl. rewrite !app_nil_r, Nat.add_0_r.
    destruct db. split; [reflexivity|].
    split; [intros _; reflexivity|intros Hc; congruence].
  - cbn [upload_loop accepted_batches].
    destruct (insert_error world i) as [e|] eqn:E.
    + exists (Throw e). simpl. rewrite !app_nil_r. destruct db.
      split; [reflexivity|]. split; [discriminate|eauto].
    + unfold write.
      destruct (IH (uploadedCount + length batch)
                  {| table := table db ++ batch;
                     written := written db ++ [table db ++ batch] |})
        as (r & Hrun & Hok & Hfail).
      exists r. rewrite Hrun. cbn [table written states_after length].
      unfold rows_of in *. cbn [map concat snd].
      rewrite <- !app_assoc. cbn [app].
      split; [reflexivity|]. split.
      * intros Hlen. rewrite Hok by lia. rewrite length_app. f_equal. lia.
      * intros Hlen. apply Hfail. lia.
Qed.
End UploadProofs.

Section UploadTheorem.
Context {num : Type} `{JSNumber num}.

Lemma jsstring_eqb_refl (s : jsstring) : jsstring_eqb s s = true.
Proof. unfold jsstring_eqb. destruct (list_eq_dec N.eq_dec s s); congruence. Qed.

Lemma filter_some_indexed {A B} (f : nat -> A -> option B) (i : nat)
    (l : list A) (y : B) :
  In y (filter_some (map_indexed f i l)) -> exists j x, f j x = Some y.
Proof.
  revert i. induction l as [|x l IH]; intros i; [simpl; tauto|].
  cbn [map_indexed filter_some]. destruct (f i x) as [z|] eqn:E.
  - intros [->|Hin]; eauto.
  - eauto.
Qed.

Lemma processedChunks_titles (world : World num) (file : BookFile)
    (textChunks : list jsstring) :
  Forall (fun r => has_title (title file) r = true)
    (processedChunks world file textChunks).
Proof.
  rewrite Forall_forall. intros r Hin. unfold processedChunks in Hin.
  apply in_flat_map in Hin. destruct Hin as ([i batch] & _ & Hin).
  apply filter_some_indexed in Hin. destruct Hin as (j & chunk & E).
  unfold embed_chunk in E.
  destruct (create_embedding world chunk); [|discriminate].
  inversion E; subst. unfold has_title. simpl. apply jsstring_eqb_refl.
Qed.

Lemma other_books_titles (bookTitle : jsstring)
    (rows : list (BookChunkRow num)) :
  Forall (fun r => has_title bookTitle r = false) (other_books bookTitle rows).
Proof.
  rewrite Forall_forall. intros r Hin. apply filter_In in Hin.
  destruct Hin as [_ E]. apply negb_true_iff in E. exact E.
Qed.

Lemma accepted_states_prefix (world : World num) (others new : list (BookChunkRow num)) :
  Forall (fun s => exists k, s = others ++ firstn k new)
    (states_after others (accepted_batches world (batches 10 new))).
Proof.
  eapply Forall_impl; [|apply states_after_prefix]. intros s [j ->].
  rewrite accepted_prefix, firstn_firstn. unfold batches.
  destruct (batches_rows_prefix (length new) 10 0
              (Nat.min j (length (accepted_batches world
                                    (batches_from (length new) 10 new 0)))) new)
    as [k Hk].
  exists k. unfold batches. rewrite Hk. reflexivity.
Qed.

Lemma accepted_rows_prefix (world : World num) (new : list (BookChunkRow num)) :
  exists k,
    rows_of (accepted_batches world (batches 10 new)) = firstn k new.
Proof.
  rewrite accepted_prefix. unfold batches.
  destruct (batches_rows_prefix (length new) 10 0
              (length (accepted_batches world
                         (batches_from (length new) 10 new 0))) new)
    as [k Hk].
  exists k. exact Hk.
Qed.

(** C7 (amended). In a run of [processBookToSupabase] with [clearExisting]
    set, every state the run writes to the table is the rows of the
    other books followed by a prefix of the new rows of this book, which
    all carry its title: a reader never sees old and new rows of the book
    together.  The replacement is not atomic: when the file is read and
    chunked, the table ends as the other books' rows followed by the
    batches inserted before the first insert error, the old rows being
    gone, and the count returned is that of all new rows when no insert
    fails and 0 otherwise. *)
Theorem processBookToSupabase_store_states
    (world : World num) (file : BookFile) (db0 : Database num) :
  let others := other_books (title file) (table db0) in
  let run := processBookToSupabase world file true db0 in
  exists new states,
    written (snd run) = written db0 ++ states
    /\ table (snd run) = last states (table db0)
    /\ Forall (fun r => has_title (title file) r = true) new
    /\ Forall (fun r => has_title (title file) r = false) others
    /\ Forall (fun s => exists k, s = others ++ firstn k new) states
    /\ (forall content,
          extension file = js ".txt" ->
          delete_error world = None ->
          contents file = Ok content ->
          100 <= length content ->
          let accepted := accepted_batches world (batches 10 new) in
          new = new_rows world file content
          /\ table (snd run) = others ++ rows_of accepted
          /\ fst run = if length accepted =? length (batches 10 new)
                       then length new else 0).
Proof.
  cbv zeta. unfold processBookToSupabase.
  pose proof (other_books_titles (title file) (table db0)) as Hothers.
  set (others := other_books (title file) (table db0)) in *.
  destruct (jsstring_eqb (extension file) (js ".txt")) eqn:Eext; cbn [negb].
  2:{ exists [], []. cbn [fst snd]. rewrite app_nil_r.
      do 5 (split; [solve [reflexivity | constructor | assumption]|]).
      intros content Hext. rewrite Hext, jsstring_eqb_refl in Eext.
      discriminate. }
  unfold clearBookChunks.
  destruct (delete_error world) as [e|] eqn:Edel.
  { exists [], []. cbn [fst snd]. rewrite app_nil_r.
    do 5 (split; [solve [reflexivity | constructor | assumption]|]).
    intros content _ Hdel. discriminate. }
  unfold write. cbn [table written].
  change (filter (fun r => negb (has_title (title file) r)) (table db0))
    with others.
  destruct (contents file) as [content|e] eqn:Econtent.
  2:{ exists [], [others]. cbn [fst snd table written last].
      do 4 (split; [solve [reflexivity | constructor | assumption]|]).
      split; [constructor; [exists 0; rewrite app_nil_r; reflexivity|constructor]|].
      intros content _ _ Hc. discriminate. }
  destruct (length content <? 100) eqn:Eshort.
  { exists [], [others]. cbn [fst snd table written last].
    do 4 (split; [solve [reflexivity | constructor | assumption]|]).
    split; [constructor; [exists 0; rewrite app_nil_r; reflexivity|constructor]|].
    intros content' _ _ Hc Hlen. inversion Hc; subst.
    apply Nat.ltb_lt in Eshort. lia. }
  cbv zeta. fold (new_rows world file content).
  set (new := new_rows world file content).
  unfold uploadChunksToSupabase.
  destruct (upload_loop_run world (batches 10 new) 0
              {| table := others; written := written db0 ++ [others] |})
    as (r & Hrun & Hok & Hfail).
  cbn [table written] in Hrun. rewrite Hrun.
  set (accepted := accepted_batches world (batches 10 new)) in *.
  exists new, (others :: states_after others accepted).
  assert (Hdb : forall count,
             snd (match r with
                  | Ok uploadedCount =>
                      (uploadedCount,
                       {| table := others ++ rows_of accepted;
                          written := (written db0 ++ [others])
                                     ++ states_after others accepted |})
                  | Throw _ =>
                      (count,
                       {| table := others ++ rows_of accepted;
                          written := (written db0 ++ [others])
                                     ++ states_after others accepted |})
                  end)
             = {| table := others ++ rows_of accepted;
                  written := (written db0 ++ [others])
                             ++ states_after others accepted |})
    by (intros; destruct r; reflexivity).
  rewrite Hdb. cbn [table written].
  split; [rewrite <- app_assoc; reflexivity|].
  split.
  { rewrite <- states_after_last.
    destruct (states_after others accepted) as [|s l]; [reflexivity|].
    change (last (others :: s :: l) (table db0)) with (last (s :: l) (table db0)).
    apply last_default. discriminate. }
  split; [apply processedChunks_titles|].
  split; [exact Hothers|].
  split.
  { constructor; [exists 0; rewrite app_nil_r; reflexivity|].
    apply accepted_states_prefix. }
  intros content' _ _ Hc _. inversion Hc; subst content'.
  split; [reflexivity|]. split; [reflexivity|]. fold accepted.
  destruct (length accepted =? length (batches 10 new)) eqn:Eall.
  - apply Nat.eqb_eq in Eall. rewrite (Hok Eall). cbn [fst].
    unfold batches. rewrite batches_rows_all by lia. reflexivity.
  - apply Nat.eqb_neq in Eall. destruct (Hfail Eall) as [e ->]. reflexivity.
Qed.
End UploadTheorem.

(** * The claims *)




(** C10. [cosineSimilarity] throws exactly when its arguments differ in
    length; so when every stored embedding has the length of the query,
    every similarity is computed and [searchBookChunks] returns a list. *)
Theorem cosineSimilarity_error_unreachable {num : Type} `{JSNumber num} :
  (forall a b : list num,
     (exists e, cosineSimilarity a b = Throw e) <-> length a <> length b)
  /\ (forall (file : ChunksFile num) (q : list num) (thr : num) (limit : Z),
        Forall (fun c => length (embedding c) = length q) (loadBookChunks file) ->
        (exists sims, map_result (score q) (loadBookChunks file) = Ok sims)
        /\ (exists out, searchBookChunks file q thr limit = Ok out)).
Proof.
  split; [exact cosineSimilarity_throws_iff|].
  intros file q thr limit Hdim.
  destruct (searchBookChunks_total file q thr limit Hdim) as (sims & E & _ & S).
  split; eauto.
Qed.

Lemma cosineSimilarity_error_unreachable_witness :
  (exists e, cosineSimilarity [1; 2]%float [1]%float = Throw e)
  /\ exists out,
       searchBookChunks
         (FileChunks [sample_chunk "a" [1; 0]%float; sample_chunk "b" [0; 1]%float])
         [1; 0]%float 0.75%float 5 = Ok out.
Proof.
  destruct (@cosineSimilarity_error_unreachable float _) as (Hthrow & Htotal).
  split.
  - apply Hthrow. simpl. discriminate.
  - apply Htotal. repeat constructor.
Defined.

(** C3 (as stated, refuted). A search against a missing file, and one
    against a file that cannot be parsed, return the empty list a valid
    empty store returns; nothing is thrown. *)
Lemma missing_file_same_as_empty_store :
  searchBookChunks FileMissing [1; 0]%float 0.75%float 5 = Ok []
  /\ searchBookChunks (FileUnreadable (mkError "Unexpected end of JSON input"))
       [1; 0]%float 0.75%float 5 = Ok []
  /\ searchBookChunks (FileChunks []) [1; 0]%float 0.75%float 5 = Ok [].
Proof. split_conjunction; vm_compute; reflexivity. Qed.

(** C3 (amended). [loadBookChunks] absorbs a missing or unreadable chunks
    file: it yields no chunk, and [searchBookChunks] returns the empty list,
    the outcome of a search against a valid empty store. *)
Theorem searchBookChunks_unavailable_store_is_empty {num : Type} `{JSNumber num}
    (file : ChunksFile num) (q : list num) (thr : num) (limit : Z) :
  file = FileMissing \/ (exists e, file = FileUnreadable e) ->
  loadBookChunks file = []
  /\ searchBookChunks file q thr limit = Ok []
  /\ searchBookChunks file q thr limit
     = searchBookChunks (FileChunks []) q thr limit.
Proof.
  intros [-> | [e ->]]; repeat split.
Qed.

Lemma searchBookChunks_unavailable_store_is_empty_witness :
  loadBookChunks (@FileMissing float) = []
  /\ searchBookChunks FileMissing [1; 0]%float 0.75%float 5 = Ok []
  /\ searchBookChunks FileMissing [1; 0]%float 0.75%float 5
     = searchBookChunks (FileChunks []) [1; 0]%float 0.75%float 5.
Proof.
  apply (searchBookChunks_unavailable_store_is_empty
           FileMissing [1; 0]%float 0.75%float 5%Z).
  left. reflexivity.
Defined.

Section RouteClaims.
Context {num : Type} `{JSNumber num}.

Lemma length_map_indexed {A B} (f : nat -> A -> B) (i : nat) (l : list A) :
  length (map_indexed f i l) = length l.
Proof. revert i. induction l; intros; simpl; auto. Qed.

Lemma search_calls_of_tried (v : list num) (tried : list (num * Z))
    (rest : list (Call num)) :
  search_calls (map (fun '(thr, cap) => SearchCall v thr cap) tried ++ rest)
  = tried ++ search_calls rest.
Proof.
  induction tried as [|[thr cap] tried IH]; [reflexivity|].
  cbn [map app search_calls]. rewrite IH. reflexivity.
Qed.

Lemma chat_contexts_of_tried (v : list num) (tried : list (num * Z))
    (rest : list (Call num)) :
  chat_contexts (map (fun '(thr, cap) => SearchCall v thr cap) tried ++ rest)
  = chat_contexts rest.
Proof.
  induction tried as [|[thr cap] tried IH]; [reflexivity|].
  cbn [map app chat_contexts]. exact IH.
Qed.

(** The log and the sources of an accepted run. *)
Lemma accepted_run_calls (env : Providers num) (q : jsstring) (v : list num) :
  let tried := fst (relax (rpc_rows env v) relaxation_steps) in
  let found := snd (relax (rpc_rows env v) relaxation_steps) in
  search_calls (snd (accepted_run env q v)) = tried
  /\ chat_contexts (snd (accepted_run env q v))
     = match found with [] => [] | _ => [firstn 5 found] end
  /\ forall answer sources confidence n,
       body (fst (accepted_run env q v)) = AnswerBody answer sources confidence n ->
       found <> [] ->
       sources = map_indexed make_source 0 (firstn 5 found).
Proof.
  cbv zeta. unfold accepted_run.
  destruct (relax (rpc_rows env v) relaxation_steps) as [tried found].
  cbn [fst snd]. destruct found as [|row found].
  - cbn [snd search_calls chat_contexts].
    rewrite <- (app_nil_r (map _ tried)).
    rewrite search_calls_of_tried, chat_contexts_of_tried, app_nil_r.
    repeat split. intros; congruence.
  - destruct (chat_completions_create env q (firstn 5 (row :: found)));
      cbn [fst snd search_calls chat_contexts body];
      rewrite search_calls_of_tried, chat_contexts_of_tried;
      cbn [search_calls chat_contexts]; rewrite app_nil_r;
      (split; [reflexivity|]); (split; [reflexivity|]);
      intros answer sources confidence n E _; inversion E; reflexivity.
Qed.

(** C1. For an accepted question whose embedding and searches succeed,
    [POST] searches at 0.30 with cap 10; only when that returns no row, at
    0.20 with cap 15; only when that returns none either, at 0.10 with cap
    20; it makes no further search once a step returns rows, and hands the
    first 5 of those rows to the chat model and to the sources of the
    response. *)
Theorem POST_progressive_relaxation (env : Providers num) (request : JSValue num)
    (q : jsstring) (v : list num) :
  destructure_question request = Ok (JSString q) ->
  valid_question q ->
  embeddings_create env (trim q) = Ok v ->
  (forall thr cap, error (match_book_chunks env v thr cap) = None) ->
  let search := rpc_rows env v in
  let tried := fst (relax search relaxation_steps) in
  let found := snd (relax search relaxation_steps) in
  search_calls (snd (POST env (Ok request))) = tried
  /\ (tried, found)
     = match search (decimal 3 10) 10%Z with
       | [] =>
           match search (decimal 2 10) 15%Z with
           | [] =>
               ([(decimal 3 10, 10%Z); (decimal 2 10, 15%Z); (decimal 1 10, 20%Z)],
                search (decimal 1 10) 20%Z)
           | rows => ([(decimal 3 10, 10%Z); (decimal 2 10, 15%Z)], rows)
           end
       | rows => ([(decimal 3 10, 10%Z)], rows)
       end
  /\ chat_contexts (snd (POST env (Ok request)))
     = match found with [] => [] | _ => [firstn 5 found] end
  /\ forall answer sources confidence n,
       body (fst (POST env (Ok request))) = AnswerBody answer sources confidence n ->
       found <> [] ->
       sources = map_indexed make_source 0 (firstn 5 found)
       /\ length sources <= 5.
Proof.
  intros Hq Hvalid Hv Herr. cbv zeta.
  rewrite (POST_accepted env request q v Hq Hvalid Hv Herr).
  destruct (accepted_run_calls env q v) as (Hsearch & Hchat & Hsources).
  split; [exact Hsearch|]. split.
  - unfold relaxation_steps. cbn [relax].
    destruct (rpc_rows env v (decimal 3 10) 10); [|reflexivity].
    destruct (rpc_rows env v (decimal 2 10) 15); [|reflexivity].
    destruct (rpc_rows env v (decimal 1 10) 20); reflexivity.
  - split; [exact Hchat|].
    intros answer sources confidence n E Hfound.
    rewrite (Hsources answer sources confidence n E Hfound).
    split; [reflexivity|].
    rewrite length_map_indexed. apply firstn_le_length.
Qed.

(** C6. For an accepted question whose embedding and searches succeed:
    when every step of the relaxation returns no row, [POST] answers with
    status 200, the "cannot find" message, no source and confidence 0; when
    rows are found and the chat model answers, the confidence is the mean
    similarity of the first 5 rows found, as a rounded percentage. *)
Theorem POST_confidence (env : Providers num) (request : JSValue num)
    (q : jsstring) (v : list num) :
  destructure_question request = Ok (JSString q) ->
  valid_question q ->
  embeddings_create env (trim q) = Ok v ->
  (forall thr cap, error (match_book_chunks env v thr cap) = None) ->
  let found := snd (relax (rpc_rows env v) relaxation_steps) in
  ((forall thr cap, In (thr, cap) relaxation_steps -> rpc_rows env v thr cap = []) ->
   found = [])
  /\ (found = [] ->
      fst (POST env (Ok request))
      = {| status := 200; body := AnswerBody NOT_FOUND_ANSWER [] zero 0 |})
  /\ (forall answer,
        found <> [] ->
        chat_completions_create env q (firstn 5 found) = Ok answer ->
        fst (POST env (Ok request))
        = {| status := 200;
             body := AnswerBody answer
                       (map_indexed make_source 0 (firstn 5 found))
                       (percentage (mean (map (@row_similarity num) (firstn 5 found))))
                       (length found) |}).
Proof.
  intros Hq Hvalid Hv Herr. cbv zeta.
  rewrite (POST_accepted env request q v Hq Hvalid Hv Herr).
  unfold accepted_run.
  split.
  - intros Hempty. unfold relaxation_steps in *. cbn [relax].
    rewrite !Hempty by (simpl; auto). reflexivity.
  - destruct (relax (rpc_rows env v) relaxation_steps) as [tried found].
    cbn [snd]. split.
    + intros ->. reflexivity.
    + intros answer Hfound Hchat. destruct found as [|row found]; [congruence|].
      rewrite Hchat. reflexivity.
Qed.

(** A body that is [null], or that is not JSON, is not destructured: the
    exception is caught and answered with status 500, before any call. *)
Lemma POST_undestructurable_body (env : Providers num) (e : Error) :
  status (fst (POST env (Ok JSNull))) = 500
  /\ snd (POST env (Ok JSNull)) = []
  /\ status (fst (POST env (Throw e))) = 500
  /\ snd (POST env (Throw e)) = [].
Proof. repeat split. Qed.

End RouteClaims.

Lemma sample_question_valid : valid_question sample_question.
Proof. split; [vm_compute; discriminate|vm_compute; lia]. Qed.

Lemma POST_progressive_relaxation_witness :
  search_calls (snd (POST sample_providers (Ok sample_request)))
  = [(decimal 3 10, 10%Z); (decimal 2 10, 15%Z); (decimal 1 10, 20%Z)]
  /\ chat_contexts (snd (POST sample_providers (Ok sample_request)))
     = [[sample_row 0x1.3333333333333p-3%float]].
Proof.
  destruct (POST_progressive_relaxation sample_providers sample_request
              sample_question [1; 0]%float eq_refl sample_question_valid
              eq_refl (fun _ _ => eq_refl))
    as (Hsearch & _ & Hchat & _).
  split; [exact Hsearch|exact Hchat].
Defined.

Lemma POST_confidence_witness :
  fst (POST sample_providers (Ok sample_request))
  = {| status := 200;
       body := AnswerBody (js "According to Source 1, it is exhaustion.")
                 (map_indexed make_source 0 [sample_row 0x1.3333333333333p-3%float])
                 15%float 1 |}.
Proof.
  destruct (POST_confidence sample_providers sample_request
              sample_question [1; 0]%float eq_refl sample_question_valid
              eq_refl (fun _ _ => eq_refl))
    as (_ & _ & Hfound).
  apply (Hfound (js "According to Source 1, it is exhaustion.")).
  - vm_compute. discriminate.
  - reflexivity.
Defined.


(** C4 (as stated, refuted). The text "Hello world." has one sentence,
    finalized as one chunk of 12 code units, which the minimum-length filter
    removes: the result is empty and the sentence is dropped. *)
Lemma short_text_sentence_dropped :
  sentences_of (js "Hello world.") = [js "Hello world."]
  /\ finalizedChunks (js "Hello world.") 400 50 = [js "Hello world."]
  /\ splitTextIntoChunks (js "Hello world.") 400 50 = [].
Proof. split_conjunction; vm_compute; reflexivity. Qed.

Lemma finalized_chunks_reconstruct_sentences_witness :
  join [SPACE] (strip_seeds 1 None (finalizedChunks three_sentences 1 1))
  = join [SPACE] (sentences_of three_sentences).
Proof.
  apply (finalized_chunks_reconstruct_sentences three_sentences 1 1). lia.
Defined.

(** C9 (as stated, refuted). With chunk size 1 and overlap 1 the three
    sentences are finalized as three chunks, the second of which
    ("today. Bb.") is removed by the minimum-length filter: the two chunks
    of the result are consecutive, the first ends with the word "today."
    and the second begins with the word "Bb.".  With overlap 0 the second
    chunk of the result begins with all the words of the first. *)
Lemma filtered_chunk_breaks_overlap :
  splitTextIntoChunks three_sentences 1 1
  = [js "The quick brown fox jumps over the lazy sleeping dog today.";
     js "Bb. A second long sentence follows here with many more words inside."]
  /\ last_words 1 (js "The quick brown fox jumps over the lazy sleeping dog today.")
     = [js "today."]
  /\ firstn 1 (split_on is_space
                 (js "Bb. A second long sentence follows here with many more words inside."))
     = [js "Bb."]
  /\ firstn 2 (splitTextIntoChunks three_sentences 1 0)
     = [js "The quick brown fox jumps over the lazy sleeping dog today.";
        js "The quick brown fox jumps over the lazy sleeping dog today. Bb."]
  /\ last_words 0 (js "The quick brown fox jumps over the lazy sleeping dog today.")
     = [].
Proof. split_conjunction; vm_compute; reflexivity. Qed.

Lemma consecutive_chunks_share_overlap_words_witness :
  exists block,
    js "today. Bb."
    = join [SPACE]
        (last_words 1 (js "The quick brown fox jumps over the lazy sleeping dog today."))
      ++ [SPACE] ++ join [SPACE] block.
Proof.
  destruct (consecutive_chunks_share_overlap_words three_sentences 1 1 0
              (js "The quick brown fox jumps over the lazy sleeping dog today.")
              (js "today. Bb.") ltac:(lia) eq_refl eq_refl)
    as (_ & block & _ & _ & E & _).
  exists block. exact E.
Defined.

(** C7 (as stated, refuted). A book of 11 chunks replaces an old chunk of
    the same title; the insert of the second batch fails.  The run returns
    0 and leaves the first 10 new chunks in the table: the old chunk is
    gone and the replacement is not complete.  Without [clearExisting] the
    old chunk stays next to the 10 new ones. *)
Lemma failed_upload_leaves_partial_replacement :
  length (new_rows sample_world sample_file (sample_book 240)) = 11
  /\ fst (processBookToSupabase sample_world sample_file true sample_db) = 0
  /\ table (snd (processBookToSupabase sample_world sample_file true sample_db))
     = firstn 10 (new_rows sample_world sample_file (sample_book 240))
  /\ table (snd (processBookToSupabase sample_world sample_file false sample_db))
     = old_row :: firstn 10 (new_rows sample_world sample_file (sample_book 240)).
Proof. split_conjunction; vm_compute; reflexivity. Qed.

Lemma processBookToSupabase_store_states_witness :
  exists new states,
    written (snd (processBookToSupabase sample_world sample_file true sample_db))
    = states
    /\ Forall (fun s => exists k, s = firstn k new) states.
Proof.
  destruct (processBookToSupabase_store_states sample_world sample_file sample_db)
    as (new & states & Hwritten & _ & _ & _ & Hprefix & _).
  exists new, states. split; [exact Hwritten|exact Hprefix].
Defined.
(** * Further properties of the code *)

(** ** The text cleaner *)

Lemma collapse_spaces_cons (c c' : char) (s : jsstring) :
  collapse_spaces (c :: c' :: s)
  = if is_space c then
      (if is_space c' then collapse_spaces (c' :: s)
       else SPACE :: collapse_spaces (c' :: s))
    else c :: collapse_spaces (c' :: s).
Proof. reflexivity. Qed.

Lemma collapse_spaces_hd (d : char) (s : jsstring) :
  is_space (hd d (collapse_spaces s)) = is_space (hd d s).
Proof.
  induction s as [|c s IH]; [reflexivity|].
  destruct s as [|c' s'].
  - simpl. destruct (is_space c) eqn:E; simpl; auto.
  - rewrite collapse_spaces_cons. cbn [hd] in *.
    destruct (is_space c) eqn:Ec.
    + destruct (is_space c') eqn:Ec'; [exact IH|reflexivity].
    + cbn [hd]. exact Ec.
Qed.

Lemma single_spaced_cons (c : char) (s : jsstring) :
  single_spaced (c :: s)
  = (if is_space c then (c =? SPACE)%N && negb (is_space (hd 0%N s)) else true)
    && single_spaced s.
Proof. destruct s; simpl; rewrite ?andb_true_r; reflexivity. Qed.

(** After [replace(/\s+/g, ' ')] white space occurs only as single spaces. *)
Lemma collapse_spaces_single_spaced (s : jsstring) :
  single_spaced (collapse_spaces s) = true.
Proof.
  induction s as [|c s IH]; [reflexivity|].
  destruct s as [|c' s'].
  - simpl. destruct (is_space c) eqn:E; simpl; rewrite ?E; reflexivity.
  - rewrite collapse_spaces_cons.
    destruct (is_space c) eqn:Ec.
    + destruct (is_space c') eqn:Ec'; [exact IH|].
      rewrite single_spaced_cons, IH, collapse_spaces_hd. cbn [hd].
      rewrite Ec'. reflexivity.
    + rewrite single_spaced_cons, Ec, IH. reflexivity.
Qed.

Lemma single_spaced_tail (c : char) (s : jsstring) :
  single_spaced (c :: s) = true -> single_spaced s = true.
Proof. rewrite single_spaced_cons. intros E. apply andb_prop in E. apply E. Qed.

Lemma single_spaced_collapse (s : jsstring) :
  single_spaced s = true -> collapse_spaces s = s.
Proof.
  induction s as [|c s IH]; [reflexivity|]. intros Hs.
  pose proof (single_spaced_tail c s Hs) as Ht.
  rewrite single_spaced_cons in Hs. apply andb_prop in Hs. destruct Hs as [Hc _].
  destruct s as [|c' s'].
  - simpl. destruct (is_space c) eqn:E; [|reflexivity].
    apply andb_prop in Hc. destruct Hc as [Hc _].
    apply N.eqb_eq in Hc. subst. reflexivity.
  - rewrite collapse_spaces_cons, (IH Ht). cbn [hd] in Hc.
    destruct (is_space c) eqn:Ec; [|reflexivity].
    apply andb_prop in Hc. destruct Hc as [Hc Hn].
    apply N.eqb_eq in Hc. apply negb_true_iff in Hn. rewrite Hn. subst.
    reflexivity.
Qed.

Lemma single_spaced_no_newline (s : jsstring) :
  single_spaced s = true -> Forall (fun c => (c =? NEWLINE)%N = false) s.
Proof.
  induction s as [|c s IH]; [constructor|]. intros Hs.
  constructor; [|apply IH, (single_spaced_tail c s Hs)].
  rewrite single_spaced_cons in Hs. apply andb_prop in Hs. destruct Hs as [Hc _].
  destruct (c =? NEWLINE)%N eqn:E; [|reflexivity].
  apply N.eqb_eq in E. subst. simpl in Hc. discriminate.
Qed.

(** [replace(/\n\s*\n/g, '\n')] changes nothing in a text without newline. *)
Lemma collapse_blank_lines_id (fuel : nat) (s : jsstring) :
  length s <= fuel ->
  Forall (fun c => (c =? NEWLINE)%N = false) s ->
  collapse_blank_lines fuel s = s.
Proof.
  revert s. induction fuel as [|fuel IH]; intros s Hlen Hs.
  - destruct s; [reflexivity|simpl in Hlen; lia].
  - destruct s as [|c s]; [reflexivity|].
    inversion Hs as [|? ? Hc Hs']; subst.
    cbn [collapse_blank_lines]. rewrite Hc, IH; [reflexivity| |assumption].
    simpl in Hlen. lia.
Qed.

Lemma single_spaced_drop_while (s : jsstring) :
  single_spaced s = true -> single_spaced (drop_while is_space s) = true.
Proof.
  induction s as [|c s IH]; [reflexivity|]. intros Hs.
  cbn [drop_while]. destruct (is_space c); [|exact Hs].
  apply IH, (single_spaced_tail c s Hs).
Qed.

Lemma drop_while_end_hd_space (s : jsstring) :
  is_space (hd 0%N s) = false ->
  is_space (hd 0%N (drop_while_end is_space s)) = false.
Proof.
  destruct s as [|c s]; [auto|]. cbn [hd]. intros Hc.
  rewrite drop_while_end_cons. destruct (drop_while_end is_space s).
  - rewrite Hc. exact Hc.
  - exact Hc.
Qed.

Lemma single_spaced_drop_while_end (s : jsstring) :
  single_spaced s = true -> single_spaced (drop_while_end is_space s) = true.
Proof.
  induction s as [|c s IH]; [reflexivity|]. intros Hs.
  pose proof (IH (single_spaced_tail c s Hs)) as IH'.
  rewrite single_spaced_cons in Hs. apply andb_prop in Hs. destruct Hs as [Hc _].
  rewrite drop_while_end_cons.
  destruct (drop_while_end is_space s) as [|k kept] eqn:E.
  - destruct (is_space c) eqn:Ec; [reflexivity|]. simpl. rewrite Ec. reflexivity.
  - rewrite single_spaced_cons, IH', andb_true_r.
    destruct (is_space c) eqn:Ec; [|reflexivity].
    apply andb_prop in Hc. destruct Hc as [Hc Hn]. rewrite Hc. cbn [andb].
    apply negb_true_iff in Hn. rewrite <- E.
    rewrite (drop_while_end_hd_space s Hn). reflexivity.
Qed.

Lemma trim_single_spaced (s : jsstring) :
  single_spaced s = true -> single_spaced (trim s) = true.
Proof.
  intros Hs. unfold trim.
  apply single_spaced_drop_while_end, single_spaced_drop_while, Hs.
Qed.

Lemma space_not_angle (c : char) :
  is_space c = true -> is_lt c || is_gt c = false.
Proof.
  intros Hc. unfold is_lt, is_gt.
  destruct (c =? 60)%N eqn:E1; [apply N.eqb_eq in E1; subst; discriminate|].
  destruct (c =? 62)%N eqn:E2; [apply N.eqb_eq in E2; subst; discriminate|].
  reflexivity.
Qed.

Lemma existsb_gt_angles (s : jsstring) :
  existsb is_gt (angles s) = existsb is_gt s.
Proof.
  unfold angles. induction s as [|c s IH]; [reflexivity|].
  cbn [filter existsb]. destruct (is_lt c || is_gt c) eqn:E.
  - cbn [existsb]. rewrite IH. reflexivity.
  - apply orb_false_iff in E. destruct E as [_ ->]. exact IH.
Qed.

Lemma has_tag_angles (s : jsstring) : has_tag (angles s) = has_tag s.
Proof.
  induction s as [|c s IH]; [reflexivity|].
  cbn [has_tag]. unfold angles in *. cbn [filter].
  destruct (is_lt c || is_gt c) eqn:E.
  - cbn [has_tag]. fold (angles s). rewrite existsb_gt_angles.
    unfold angles. rewrite IH. reflexivity.
  - apply orb_false_iff in E. destruct E as [-> _]. exact IH.
Qed.

Lemma angles_collapse_spaces (s : jsstring) :
  angles (collapse_spaces s) = angles s.
Proof.
  induction s as [|c s IH]; [reflexivity|].
  destruct s as [|c' s'].
  - simpl. destruct (is_space c) eqn:E; [|reflexivity].
    simpl. rewrite (space_not_angle c E). reflexivity.
  - rewrite collapse_spaces_cons. unfold angles in *.
    destruct (is_space c) eqn:Ec.
    + cbn [filter] in *. rewrite (space_not_angle c Ec).
      destruct (is_space c'); [exact IH|].
      cbn [filter]. simpl (is_lt SPACE || is_gt SPACE). exact IH.
    + cbn [filter] in *. rewrite IH. reflexivity.
Qed.

Lemma angles_drop_while (s : jsstring) :
  angles (drop_while is_space s) = angles s.
Proof.
  induction s as [|c s IH]; [reflexivity|].
  cbn [drop_while]. destruct (is_space c) eqn:E; [|reflexivity].
  rewrite IH. unfold angles. cbn [filter].
  rewrite (space_not_angle c E). reflexivity.
Qed.

Lemma angles_drop_while_end (s : jsstring) :
  angles (drop_while_end is_space s) = angles s.
Proof.
  induction s as [|c s IH]; [reflexivity|].
  rewrite drop_while_end_cons. unfold angles in *. cbn [filter].
  destruct (drop_while_end is_space s) as [|k kept] eqn:E.
  - rewrite <- IH. destruct (is_space c) eqn:Ec.
    + rewrite (space_not_angle c Ec). reflexivity.
    + cbn [filter]. reflexivity.
  - cbn [filter] in *. rewrite IH. reflexivity.
Qed.

Lemma angles_trim (s : jsstring) : angles (trim s) = angles s.
Proof. unfold trim. rewrite angles_drop_while_end. apply angles_drop_while. Qed.

(** What [strip_tags] keeps, it found in the text. *)
Lemma strip_tags_gt (in_tag : bool) (s : jsstring) :
  existsb is_gt s = false -> existsb is_gt (strip_tags in_tag s) = false.
Proof.
  revert in_tag. induction s as [|c s IH]; intros in_tag; [reflexivity|].
  cbn [existsb strip_tags]. intros E. apply orb_false_iff in E.
  destruct E as [Ec Es]. destruct in_tag; [apply IH, Es|].
  rewrite Es. destruct (is_lt c); cbn [existsb]; rewrite Ec, (IH false Es);
    reflexivity.
Qed.

(** [replace(/<[^>]*>/g, '')] leaves no complete tag. *)
Lemma strip_tags_no_tag (in_tag : bool) (s : jsstring) :
  has_tag (strip_tags in_tag s) = false.
Proof.
  revert in_tag. induction s as [|c s IH]; intros in_tag; [reflexivity|].
  cbn [strip_tags]. destruct in_tag; [apply IH|].
  destruct (is_lt c) eqn:Ec.
  - destruct (existsb is_gt s) eqn:Es; [apply IH|].
    cbn [has_tag]. rewrite Ec, (strip_tags_gt false s Es), IH. reflexivity.
  - cbn [has_tag]. rewrite Ec, IH. reflexivity.
Qed.

(** A text without complete tag is left as it is. *)
Lemma strip_tags_id (s : jsstring) :
  has_tag s = false -> strip_tags false s = s.
Proof.
  induction s as [|c s IH]; [reflexivity|].
  cbn [has_tag strip_tags]. intros E. apply orb_false_iff in E.
  destruct E as [Ec Es]. rewrite (IH Es).
  destruct (is_lt c); [rewrite Ec|]; reflexivity.
Qed.

Lemma cleanText_unfold (text : jsstring) :
  cleanText text = trim (collapse_spaces (strip_tags false text)).
Proof.
  unfold cleanText. cbv zeta.
  rewrite collapse_blank_lines_id; [reflexivity|apply Nat.le_refl|].
  apply single_spaced_no_newline, collapse_spaces_single_spaced.
Qed.

(** X1. The cleaned text has white space only as single spaces between
    other code units: none at either end, never two in a row, and no tab,
    newline or other white space than the space. *)
Theorem cleanText_single_spaced (text : jsstring) :
  single_spaced (cleanText text) = true
  /\ (cleanText text = [] \/ clean (cleanText text)).
Proof.
  rewrite cleanText_unfold. split.
  - apply trim_single_spaced, collapse_spaces_single_spaced.
  - destruct (trim (collapse_spaces (strip_tags false text))) eqn:E; [auto|].
    right. rewrite <- E. apply trim_is_clean. rewrite E. discriminate.
Qed.

(** X2. The cleaned text holds no complete tag: no [<] is followed,
    anywhere later, by a [>]. *)
Theorem cleanText_no_tag (text : jsstring) :
  has_tag (cleanText text) = false.
Proof.
  rewrite cleanText_unfold, <- has_tag_angles, angles_trim,
    angles_collapse_spaces, has_tag_angles.
  apply strip_tags_no_tag.
Qed.

(** X3. Cleaning is idempotent: a cleaned text is left as it is. *)
Theorem cleanText_idempotent (text : jsstring) :
  cleanText (cleanText text) = cleanText text.
Proof.
  destruct (cleanText_single_spaced text) as [Hs Hc].
  pose proof (cleanText_no_tag text) as Ht.
  rewrite (cleanText_unfold (cleanText text)).
  rewrite (strip_tags_id _ Ht), (single_spaced_collapse _ Hs).
  destruct Hc as [-> | Hc]; [reflexivity|apply trim_clean, Hc].
Qed.

(** ** The chunker: shape and size of the chunks *)

Lemma split_on_app (a b : jsstring) :
  a <> [] -> is_space (last a SPACE) = false -> is_space (hd SPACE b) = false ->
  split_on is_space (a ++ SPACE :: b)
  = split_on is_space a ++ split_on is_space b.
Proof.
  intros Hne Hlast Hb. induction a as [|c a IH]; [congruence|].
  destruct a as [|c' a'].
  - cbn [app]. simpl in Hlast.
    destruct b as [|d b]; [discriminate|].
    rewrite split_on_cons, Hlast, split_on_space by exact Hb.
    simpl. rewrite Hlast. reflexivity.
  - specialize (IH ltac:(discriminate) Hlast).
    change ((c :: c' :: a') ++ SPACE :: b) with (c :: c' :: (a' ++ SPACE :: b)).
    rewrite !split_on_cons.
    change (c' :: a' ++ SPACE :: b) with ((c' :: a') ++ SPACE :: b).
    rewrite IH.
    pose proof (split_on_nonempty is_space (c' :: a')) as Hp.
    destruct (split_on is_space (c' :: a')) as [|p r]; [congruence|].
    destruct (is_space c); [destruct (is_space c')|]; reflexivity.
Qed.

(** The estimate of "[a], a space, [b]" is at most the sum of the estimates. *)
Lemma estimateTokens_app (a b : jsstring) :
  clean a -> is_space (hd SPACE b) = false ->
  (estimateTokens (a ++ [SPACE] ++ b) <= estimateTokens a + estimateTokens b)%Z.
Proof.
  intros Ha Hb. unfold estimateTokens. cbn [app].
  rewrite split_on_app; [|apply clean_nonempty, Ha|apply Ha|exact Hb].
  rewrite length_app, Nat2Z.inj_add.
  set (m := Z.of_nat (length (split_on is_space a))).
  set (n := Z.of_nat (length (split_on is_space b))).
  assert (0 <= m)%Z by (unfold m; lia). assert (0 <= n)%Z by (unfold n; lia).
  clearbody m n.
  pose proof (Z.div_mod (4 * (m + n) + 2) 3 ltac:(lia)).
  pose proof (Z.mod_pos_bound (4 * (m + n) + 2) 3 ltac:(lia)).
  pose proof (Z.div_mod (4 * m + 2) 3 ltac:(lia)).
  pose proof (Z.mod_pos_bound (4 * m + 2) 3 ltac:(lia)).
  pose proof (Z.div_mod (4 * n + 2) 3 ltac:(lia)).
  pose proof (Z.mod_pos_bound (4 * n + 2) 3 ltac:(lia)).
  lia.
Qed.

(** One turn of the loop keeps the invariant with the token count. *)
Lemma chunker_step_sized (chunkSize overlap : Z) (st : Chunker)
    (consumed : list jsstring) (raw : jsstring) :
  (0 <= overlap)%Z ->
  trim raw <> [] ->
  sized_inv chunkSize overlap st consumed ->
  sized_inv chunkSize overlap (chunker_step chunkSize overlap st raw)
    (consumed ++ [trim raw ++ [FULL_STOP]]).
Proof.
  intros Ho Hraw Hinv.
  pose proof (sentence_clean raw Hraw) as Hs.
  set (sentence := trim raw ++ [FULL_STOP]) in *.
  destruct Hinv as [(-> & Hchunks & Hcur & Htok)
                   | (blocks & block & Hne & Hblocks & Hcat & Hasm & Hcur & Hcc
                      & Hcs & Hest & Hsize & Hsizes)].
  - right. exists [], [sentence].
    unfold chunker_step. rewrite Hcur, Hchunks, Htok.
    cbn [length Nat.ltb Nat.leb]. rewrite andb_false_r.
    cbn [chunks currentChunk currentTokens app].
    split; [discriminate|]. split; [constructor|]. split; [reflexivity|].
    split; [reflexivity|]. split; [reflexivity|]. split; [exact Hs|].
    split; [constructor|]. split; [fold sentence; lia|].
    split; [simpl; lia|constructor].
  - right. unfold chunker_step. fold sentence.
    destruct ((chunkSize <? currentTokens st + estimateTokens sentence)%Z
              && (0 <? length (currentChunk st))) eqn:Econd.
    + exists (blocks ++ [block]), [sentence].
      cbn [chunks currentChunk currentTokens]. rewrite (trim_clean _ Hcc).
      split; [discriminate|].
      split; [apply Forall_app; split; [assumption|repeat constructor; assumption]|].
      split; [rewrite concat_app; cbn [concat]; rewrite app_nil_r;
              rewrite Hcat; reflexivity|].
      split; [rewrite assemble_snoc, Hasm, <- Hcur; reflexivity|].
      rewrite last_chunk_snoc.
      assert (Hnext : join [SPACE] (slice (- overlap) None (split_on is_space (currentChunk st)))
                      ++ [SPACE] ++ sentence
                      = chunk_of overlap (Some (currentChunk st)) [sentence])
        by reflexivity.
      rewrite Hnext.
      split; [reflexivity|].
      split; [apply chunk_of_clean;
              [exact Ho | exact Hcc | discriminate | constructor; [exact Hs|constructor]]|].
      split; [apply Forall_app; split; [assumption|constructor; [exact Hcc|constructor]]|].
      split; [lia|]. split; [simpl; lia|].
      apply Forall2_app; [exact Hsizes|].
      constructor; [|constructor]. intros H2. specialize (Hsize H2). lia.
    + exists blocks, (block ++ [sentence]).
      cbn [chunks currentChunk currentTokens].
      assert (Hlen : (0 <? length (currentChunk st)) = true).
      { pose proof (clean_nonempty _ Hcc). destruct (currentChunk st);
          [congruence|reflexivity]. }
      rewrite Hlen in *. rewrite andb_true_r in Econd. apply Z.ltb_ge in Econd.
      split; [destruct block; discriminate|].
      split; [assumption|].
      split; [rewrite concat_snoc_block, Hcat; reflexivity|].
      split; [assumption|].
      split; [rewrite chunk_of_snoc, <- Hcur by assumption; reflexivity|].
      split.
      { destruct Hcc as [Hhd _]. destruct Hs as [_ Hslast]. split.
        - rewrite hd_app_nonempty; [exact Hhd|].
          intros E. rewrite E in Hhd. discriminate.
        - rewrite app_assoc, last_app_nonempty; [exact Hslast|].
          unfold sentence. destruct (trim raw); discriminate. }
      split; [assumption|].
      split.
      { pose proof (estimateTokens_app (currentChunk st) sentence Hcc (proj1 Hs)).
        lia. }
      split; [intros _; lia|exact Hsizes].
Qed.

Lemma chunker_fold_sized (chunkSize overlap : Z) (raws : list jsstring)
    (st : Chunker) (consumed : list jsstring) :
  (0 <= overlap)%Z ->
  Forall (fun raw => trim raw <> []) raws ->
  sized_inv chunkSize overlap st consumed ->
  sized_inv chunkSize overlap (fold_left (chunker_step chunkSize overlap) raws st)
    (consumed ++ map (fun s => trim s ++ [FULL_STOP]) raws).
Proof.
  intros Ho Hraws. revert st consumed.
  induction Hraws as [|raw raws Hraw _ IH]; intros st consumed Hinv.
  - simpl. rewrite app_nil_r. exact Hinv.
  - cbn [fold_left map].
    replace (consumed ++ (trim raw ++ [FULL_STOP]) :: map (fun s => trim s ++ [FULL_STOP]) raws)
      with ((consumed ++ [trim raw ++ [FULL_STOP]])
            ++ map (fun s => trim s ++ [FULL_STOP]) raws)
      by (rewrite <- app_assoc; reflexivity).
    apply IH. apply chunker_step_sized; assumption.
Qed.

(** X4. For a non-negative overlap the finalized chunks are assembled from
    a partition of the sentences into non-empty blocks, and every chunk whose block
    holds two or more sentences has a token estimate within [chunkSize]:
    only a chunk with a single sentence of its own can exceed the target. *)
Theorem finalizedChunks_within_size (text : jsstring) (chunkSize overlap : Z) :
  (0 <= overlap)%Z ->
  exists blocks,
    Forall (fun b => b <> []) blocks
    /\ concat blocks = sentences_of text
    /\ finalizedChunks text chunkSize overlap = assemble overlap None blocks
    /\ Forall2 (within_size chunkSize)
         (finalizedChunks text chunkSize overlap) blocks.
Proof.
  intros Ho. unfold finalizedChunks, sentences_of.
  pose proof (chunker_fold_sized chunkSize overlap (split_sentences text)
                {| chunks := []; currentChunk := []; currentTokens := 0 |} []
                Ho (split_sentences_trimmed text)
                (or_introl (conj eq_refl (conj eq_refl (conj eq_refl eq_refl)))))
    as Hinv.
  cbn [app] in Hinv. cbv zeta.
  set (st := fold_left _ _ _) in *. clearbody st.
  destruct Hinv as [(Hnil & Hchunks & Hcur & _)
                   | (blocks & block & Hne & Hblocks & Hcat & Hasm & Hcur & Hcc
                      & Hcs & Hest & Hsize & Hsizes)].
  - exists []. rewrite Hcur, Hchunks, Hnil. simpl. repeat split; constructor.
  - exists (blocks ++ [block]).
    rewrite (trim_clean _ Hcc).
    assert (Hlen : (0 <? length (currentChunk st)) = true).
    { pose proof (clean_nonempty _ Hcc). destruct (currentChunk st);
        [congruence|reflexivity]. }
    rewrite Hlen.
    split; [apply Forall_app; split; [assumption|constructor; [assumption|constructor]]|].
    split; [assumption|].
    split; [rewrite assemble_snoc, Hasm, <- Hcur; reflexivity|].
    apply Forall2_app; [exact Hsizes|].
    constructor; [|constructor]. intros H2. specialize (Hsize H2). lia.
Qed.

Lemma finalizedChunks_within_size_witness :
  (0 <= 50)%Z
  /\ exists blocks,
       Forall (fun b => b <> []) blocks
       /\ concat blocks = sentences_of three_sentences
       /\ finalizedChunks three_sentences 400 50 = assemble 50 None blocks
       /\ Forall2 (within_size 400)
            (finalizedChunks three_sentences 400 50) blocks.
Proof.
  split; [lia|]. apply (finalizedChunks_within_size three_sentences 400 50). lia.
Defined.

Lemma assemble_In (overlap : Z) (previous : option jsstring)
    (blocks : list (list jsstring)) (c : jsstring) :
  In c (assemble overlap previous blocks) ->
  exists prev block, In block blocks /\ c = chunk_of overlap prev block.
Proof.
  revert previous. induction blocks as [|b blocks IH]; intros previous Hin.
  - destruct Hin.
  - destruct Hin as [<- | Hin].
    + exists previous, b. split; [left; reflexivity|reflexivity].
    + destruct (IH _ Hin) as (prev & block & Hb & ->).
      exists prev, block. split; [right; exact Hb|reflexivity].
Qed.

Lemma chunk_of_last (overlap : Z) (previous : option jsstring)
    (block : list jsstring) (d : char) :
  last block [] <> [] ->
  last (chunk_of overlap previous block) d = last (last block []) d.
Proof.
  intros Hlast. destruct previous as [p|]; cbn [chunk_of].
  - rewrite app_assoc, last_app_nonempty by (apply join_nonempty, Hlast).
    apply join_last, Hlast.
  - apply join_last, Hlast.
Qed.

Lemma sentences_of_full_stop (text s : jsstring) :
  In s (sentences_of text) -> s <> [] /\ last s SPACE = FULL_STOP.
Proof.
  unfold sentences_of. intros Hin. apply in_map_iff in Hin.
  destruct Hin as (raw & <- & _). split.
  - destruct (trim raw); discriminate.
  - apply last_snoc.
Qed.

Lemma length_concat_nonempty {A} (blocks : list (list A)) :
  Forall (fun b => b <> []) blocks -> length blocks <= length (concat blocks).
Proof.
  induction 1 as [|b blocks Hb _ IH]; [constructor|].
  cbn [concat length]. rewrite length_app.
  destruct b; [congruence|]. simpl. lia.
Qed.

(** X5. For a non-negative overlap every chunk the chunker returns is longer
    than 50 code units, begins and ends with a code unit that is not white
    space, and ends with the full stop the loop puts after each sentence;
    and there are at most as many chunks as the text has sentences. *)
Theorem splitTextIntoChunks_shape (text : jsstring) (chunkSize overlap : Z) :
  (0 <= overlap)%Z ->
  Forall (fun c => 50 < length c /\ clean c /\ last c SPACE = FULL_STOP)
    (splitTextIntoChunks text chunkSize overlap)
  /\ length (splitTextIntoChunks text chunkSize overlap)
     <= length (split_sentences text).
Proof.
  intros Ho.
  destruct (finalizedChunks_assemble text chunkSize overlap Ho)
    as (blocks & Hne & Hcat & Hasm & Hclean).
  unfold splitTextIntoChunks. split.
  - apply Forall_forall. intros c Hin. apply filter_In in Hin.
    destruct Hin as [Hin Hlen]. apply Nat.ltb_lt in Hlen.
    split; [exact Hlen|].
    split; [exact (proj1 (Forall_forall _ _) Hclean c Hin)|].
    rewrite Hasm in Hin. apply assemble_In in Hin.
    destruct Hin as (prev & block & Hb & ->).
    pose proof (proj1 (Forall_forall _ _) Hne block Hb) as Hbne.
    assert (Hs : In (last block []) (sentences_of text)).
    { rewrite <- Hcat. apply in_concat. exists block.
      split; [exact Hb|apply last_In, Hbne]. }
    apply sentences_of_full_stop in Hs. destruct Hs as [Hsne Hstop].
    rewrite chunk_of_last by exact Hsne. exact Hstop.
  - eapply Nat.le_trans; [apply filter_length_le|].
    rewrite Hasm.
    assert (Hl : forall prev, length (assemble overlap prev blocks) = length blocks).
    { clear. induction blocks as [|b bs IH]; intros prev; [reflexivity|].
      cbn [assemble length]. rewrite IH. reflexivity. }
    rewrite Hl. eapply Nat.le_trans; [apply length_concat_nonempty, Hne|].
    rewrite Hcat. unfold sentences_of. rewrite length_map. constructor.
Qed.

Lemma splitTextIntoChunks_shape_witness :
  (0 <= 50)%Z
  /\ Forall (fun c => 50 < length c /\ clean c /\ last c SPACE = FULL_STOP)
       (splitTextIntoChunks (sample_book 240) 400 50)
  /\ length (splitTextIntoChunks (sample_book 240) 400 50)
     <= length (split_sentences (sample_book 240)).
Proof.
  split; [lia|]. apply (splitTextIntoChunks_shape (sample_book 240) 400 50). lia.
Defined.

(** ** The linear-scan search in any arithmetic *)

Lemma sort_insert_perm_any {num} `{JSNumber num} {A} (cmp : A -> A -> num)
    (x : A) (l : list A) :
  Permutation (sort_insert cmp x l) (x :: l).
Proof.
  induction l as [|y l IH]; simpl; [reflexivity|].
  destruct (num_ltb (num_of_Z 0) (cmp x y)); [|reflexivity].
  rewrite IH. apply perm_swap.
Qed.

Lemma sort_perm_any {num} `{JSNumber num} {A} (cmp : A -> A -> num)
    (l : list A) :
  Permutation (sort cmp l) l.
Proof.
  induction l as [|x l IH]; simpl; [reflexivity|].
  rewrite sort_insert_perm_any. constructor. exact IH.
Qed.

Lemma map_result_throw {A B} (f : A -> result B) (l : list A) (e : Error) :
  Forall (fun x => f x = Throw e \/ exists y, f x = Ok y) l ->
  Exists (fun x => f x = Throw e) l ->
  map_result f l = Throw e.
Proof.
  intros Hall Hex. induction Hall as [|x l Hx Hall IH]; [inversion Hex|].
  cbn [map_result]. destruct Hx as [Hx | [y Hy]].
  - rewrite Hx. reflexivity.
  - rewrite Hy. cbn [bind]. inversion Hex as [? ? Hx | ? ? Hl]; subst.
    + congruence.
    + rewrite (IH Hl). reflexivity.
Qed.

Lemma score_throws {num} `{JSNumber num} (q : list num) (c : Chunk num) :
  length (embedding c) <> length q ->
  score q c = Throw (mkError "Vectors must have the same length").
Proof.
  intros Hlen. unfold score, cosineSimilarity.
  destruct (length q =? length (embedding c)) eqn:E.
  - apply Nat.eqb_eq in E. congruence.
  - reflexivity.
Qed.

Lemma score_cases {num} `{JSNumber num} (q : list num) (c : Chunk num) :
  score q c = Throw (mkError "Vectors must have the same length")
  \/ exists sc, score q c = Ok sc.
Proof.
  destruct (Nat.eq_dec (length (embedding c)) (length q)) as [E|E].
  - right. apply score_total, E.
  - left. apply score_throws, E.
Qed.


(** X7. In any arithmetic, so also in binary64 where the order of the
    result is not guaranteed, a list returned for a non-negative count
    holds at most [limit] entries, and each entry is a stored chunk paired
    with the similarity [cosineSimilarity] computes for it, which passes
    the test against the threshold. *)
Theorem searchBookChunks_entries {num : Type} `{JSNumber num}
    (file : ChunksFile num) (q : list num) (thr : num) (limit : Z)
    (out : list (ScoredChunk num)) :
  (0 <= limit)%Z ->
  searchBookChunks file q thr limit = Ok out ->
  length out <= Z.to_nat limit
  /\ length out <= length (loadBookChunks file)
  /\ Forall (fun sc =>
               In (chunk sc) (loadBookChunks file)
               /\ cosineSimilarity q (embedding (chunk sc)) = Ok (similarity sc)
               /\ num_leb thr (similarity sc) = true) out.
Proof.
  intros Hl Hout. unfold searchBookChunks in Hout.
  destruct (length (loadBookChunks file) =? 0) eqn:E0.
  { injection Hout as <-. simpl. repeat split; try lia. constructor. }
  destruct (map_result (score q) (loadBookChunks file)) as [sims|e] eqn:Esims;
    [|discriminate].
  cbn [bind] in Hout. injection Hout as <-.
  rewrite slice_prefix by exact Hl.
  assert (F : Forall2 (fun c sc => score q c = Ok sc) (loadBookChunks file) sims).
  { clear E0. revert sims Esims.
    induction (loadBookChunks file) as [|c l IH]; intros sims Esims.
    - injection Esims as <-. constructor.
    - cbn [map_result] in Esims. destruct (score q c) as [sc|] eqn:Ec; [|discriminate].
      cbn [bind] in Esims.
      destruct (map_result (score q) l) as [scs|]; [|discriminate].
      cbn [bind] in Esims. injection Esims as <-. constructor; auto. }
  split; [rewrite length_firstn; lia|].
  split.
  { rewrite length_firstn.
    rewrite (Permutation_length (sort_perm_any _ _)).
    pose proof (filter_length_le (fun c => num_leb thr (similarity c)) sims).
    rewrite (Forall2_length F). lia. }
  apply Forall_forall. intros sc Hin. apply firstn_In in Hin.
  apply (Permutation_in _ (sort_perm_any _ _)) in Hin.
  apply filter_In in Hin. destruct Hin as [Hin Hthr].
  destruct (In_nth_error _ _ Hin) as [i Hi].
  destruct (Forall2_nth_error _ _ _ _ _ F Hi) as (c & Hc & Hscore).
  apply score_ok in Hscore. destruct Hscore as [Hchunk Hcos].
  rewrite Hchunk. split; [eapply nth_error_In; exact Hc|]. split; assumption.
Qed.

Lemma searchBookChunks_entries_witness :
  (0 <= 5)%Z
  /\ exists out,
       searchBookChunks
         (FileChunks [sample_chunk "first" [2; 0]%float;
                      sample_chunk "other" [0; 1]%float;
                      sample_chunk "second" [1; 0]%float])
         [1; 0]%float 0.75%float 5 = Ok out
       /\ length out <= Z.to_nat 5
       /\ length out <= 3
       /\ Forall (fun sc =>
               In (chunk sc)
                 [sample_chunk "first" [2; 0]%float;
                  sample_chunk "other" [0; 1]%float;
                  sample_chunk "second" [1; 0]%float]
               /\ cosineSimilarity [1; 0]%float (embedding (chunk sc))
                  = Ok (similarity sc)
               /\ num_leb 0.75%float (similarity sc) = true) out.
Proof.
  split; [lia|].
  eexists. split; [vm_compute; reflexivity|].
  apply (searchBookChunks_entries
           (FileChunks [sample_chunk "first" [2; 0]%float;
                        sample_chunk "other" [0; 1]%float;
                        sample_chunk "second" [1; 0]%float])
           [1; 0]%float 0.75%float 5); [lia|vm_compute; reflexivity].
Defined.

(** X8. In any arithmetic the results for a smaller count are a prefix of
    the results for a larger one: asking for fewer matches never changes
    which chunks come first. *)
Theorem searchBookChunks_prefix {num : Type} `{JSNumber num}
    (file : ChunksFile num) (q : list num) (thr : num) (k k' : Z)
    (out' : list (ScoredChunk num)) :
  (0 <= k <= k')%Z ->
  searchBookChunks file q thr k' = Ok out' ->
  searchBookChunks file q thr k = Ok (firstn (Z.to_nat k) out').
Proof.
  intros Hk Hout. unfold searchBookChunks in *.
  destruct (length (loadBookChunks file) =? 0).
  { injection Hout as <-. rewrite firstn_nil. reflexivity. }
  destruct (map_result (score q) (loadBookChunks file)) as [sims|e];
    [|discriminate].
  cbn [bind] in *. injection Hout as <-.
  rewrite !slice_prefix by lia. rewrite firstn_firstn.
  rewrite Nat.min_l by lia. reflexivity.
Qed.

Lemma searchBookChunks_prefix_witness :
  (0 <= 1 <= 5)%Z
  /\ searchBookChunks
       (FileChunks [sample_chunk "first" [2; 0]%float;
                    sample_chunk "second" [1; 0]%float])
       [1; 0]%float 0.75%float 1
     = Ok (firstn (Z.to_nat 1)
             [ {| chunk := sample_chunk "first" [2; 0]%float;
                  similarity := 1%float |};
               {| chunk := sample_chunk "second" [1; 0]%float;
                  similarity := 1%float |} ]).
Proof.
  split; [lia|].
  apply (searchBookChunks_prefix
           (FileChunks [sample_chunk "first" [2; 0]%float;
                        sample_chunk "second" [1; 0]%float])
           [1; 0]%float 0.75%float 1 5); [lia|vm_compute; reflexivity].
Defined.

(** ** The statistics of the store *)

Lemma jsstring_eqb_eq (a b : jsstring) : jsstring_eqb a b = true <-> a = b.
Proof.
  unfold jsstring_eqb. destruct (list_eq_dec N.eq_dec a b); split; congruence.
Qed.

Lemma jsstring_eqb_neq (a b : jsstring) : jsstring_eqb a b = false <-> a <> b.
Proof.
  unfold jsstring_eqb. destruct (list_eq_dec N.eq_dec a b); split; congruence.
Qed.

Lemma count_for_add_chunk {num} `{JSNumber num} (title t : jsstring)
    (tokens : num) (bookStats : BookStatsObject num) :
  count_for title (add_chunk t tokens bookStats)
  = (count_for title bookStats + if jsstring_eqb t title then 1 else 0)%Z.
Proof.
  induction bookStats as [|[k s] rest IH]; cbn [add_chunk count_for fst snd chunkCount].
  - destruct (jsstring_eqb t title); reflexivity.
  - destruct (jsstring_eqb k t) eqn:Ekt; cbn [count_for chunkCount].
    + apply jsstring_eqb_eq in Ekt. subst k.
      destruct (jsstring_eqb t title); lia.
    + destruct (jsstring_eqb k title) eqn:Ek.
      * apply jsstring_eqb_eq in Ek. apply jsstring_eqb_neq in Ekt.
        destruct (jsstring_eqb t title) eqn:Et; [|lia].
        apply jsstring_eqb_eq in Et. congruence.
      * exact IH.
Qed.

Lemma keys_add_chunk {num} `{JSNumber num} (t : jsstring) (tokens : num)
    (bookStats : BookStatsObject num) :
  map fst (add_chunk t tokens bookStats)
  = if existsb (fun k => jsstring_eqb k t) (map fst bookStats)
    then map fst bookStats else map fst bookStats ++ [t].
Proof.
  induction bookStats as [|[k s] rest IH]; cbn [add_chunk map fst existsb app];
    [reflexivity|].
  destruct (jsstring_eqb k t); cbn [orb map fst]; [reflexivity|].
  rewrite IH. destruct (existsb _ _); reflexivity.
Qed.

Lemma counted_add_chunk {num} `{JSNumber num} (t : jsstring) (tokens : num)
    (bookStats : BookStatsObject num) :
  counted (add_chunk t tokens bookStats) = (counted bookStats + 1)%Z.
Proof.
  unfold counted.
  induction bookStats as [|[k s] rest IH]; cbn [add_chunk fold_right snd chunkCount];
    [reflexivity|].
  destruct (jsstring_eqb k t); cbn [fold_right snd chunkCount]; lia.
Qed.

Lemma positive_add_chunk {num} `{JSNumber num} (t : jsstring) (tokens : num)
    (bookStats : BookStatsObject num) :
  Forall (fun p => (1 <= chunkCount (snd p))%Z) bookStats ->
  Forall (fun p => (1 <= chunkCount (snd p))%Z) (add_chunk t tokens bookStats).
Proof.
  induction 1 as [|[k s] rest Hs Hrest IH]; cbn [add_chunk].
  - constructor; [simpl; lia|constructor].
  - destruct (jsstring_eqb k t).
    + constructor; [cbn [snd chunkCount] in *; lia|assumption].
    + constructor; assumption.
Qed.

(** What the loop of [getBookStats] keeps, from any breakdown. *)
Lemma stats_fold {num} `{JSNumber num} (chunks : list (Chunk num))
    (bookStats : BookStatsObject num) :
  let final := fold_left stats_step chunks bookStats in
  (forall title,
     count_for title final
     = (count_for title bookStats
        + if inherited title then 0 else titled title chunks)%Z)
  /\ (NoDup (map fst bookStats) -> NoDup (map fst final))
  /\ (Forall (fun k => inherited k = false) (map fst bookStats) ->
      Forall (fun k => inherited k = false) (map fst final))
  /\ counted final
     = (counted bookStats
        + Z.of_nat (length (filter (fun c => negb (inherited (title_of c))) chunks)))%Z
  /\ (Forall (fun p => (1 <= chunkCount (snd p))%Z) bookStats ->
      Forall (fun p => (1 <= chunkCount (snd p))%Z) final).
Proof.
  revert bookStats. induction chunks as [|c chunks IH]; intros bookStats final.
  - subst final. cbn [fold_left filter length]. unfold titled. cbn [filter length].
    split; [intros title; destruct (inherited title); lia|].
    split; [auto|]. split; [auto|]. split; [lia|auto].
  - subst final. cbn [fold_left].
    destruct (IH (stats_step bookStats c))
      as (Hcount & Hnodup & Hkeys & Hsum & Hpos).
    unfold stats_step in *. cbn [filter].
    destruct (inherited (title_of c)) eqn:Einh; cbn [negb].
    + split.
      { intros title. rewrite Hcount. destruct (inherited title) eqn:Et; [reflexivity|].
        unfold titled. cbn [filter].
        destruct (jsstring_eqb (title_of c) title) eqn:E; [|reflexivity].
        apply jsstring_eqb_eq in E. congruence. }
      split; [exact Hnodup|]. split; [exact Hkeys|]. split; [exact Hsum|exact Hpos].
    + split.
      { intros title. rewrite Hcount, count_for_add_chunk.
        unfold titled. cbn [filter].
        destruct (jsstring_eqb (title_of c) title) eqn:E.
        - apply jsstring_eqb_eq in E. rewrite <- E, Einh.
          cbn [length]. lia.
        - destruct (inherited title); lia. }
      split.
      { intros Hnd. apply Hnodup. rewrite keys_add_chunk.
        destruct (existsb _ _) eqn:Eex; [exact Hnd|].
        apply NoDup_app; [exact Hnd|repeat constructor; intros []|].
        intros k Hk [Ek|[]].
        assert (existsb (fun k' => jsstring_eqb k' (title_of c)) (map fst bookStats)
                = true)
          by (apply existsb_exists; exists k; split;
              [exact Hk|rewrite Ek; apply jsstring_eqb_refl]).
        congruence. }
      split.
      { intros Hk. apply Hkeys. rewrite keys_add_chunk.
        destruct (existsb _ _); [exact Hk|].
        apply Forall_app. split; [exact Hk|]. constructor; [exact Einh|constructor]. }
      split.
      { rewrite Hsum, counted_add_chunk. cbn [length]. lia. }
      intros Hp. apply Hpos, positive_add_chunk, Hp.
Qed.

Lemma counted_lower {num} (bookStats : BookStatsObject num) :
  Forall (fun p => (1 <= chunkCount (snd p))%Z) bookStats ->
  (Z.of_nat (length bookStats) <= counted bookStats)%Z.
Proof.
  unfold counted. induction 1 as [|p rest Hp _ IH]; cbn [fold_right length]; lia.
Qed.

(** X9. The statistics [getBookStats] returns, for any store: the breakdown
    has one entry per title, none for a name inherited from
    [Object.prototype]; the count of a title that is not inherited is the
    number of chunks carrying it, a missing or empty title counting as
    'Unknown'; [totalBooks] is the number of entries and [totalChunks] the
    number of chunks; and the counts add up to the number of chunks whose
    title is not an inherited name, so [totalBooks] is at most that sum
    and the sum at most [totalChunks]. *)
Theorem getBookStats_breakdown {num : Type} `{JSNumber num}
    (file : ChunksFile num) :
  let stats := getBookStats file in
  let chunks := loadBookChunks file in
  totalChunks stats = Z.of_nat (length chunks)
  /\ totalBooks stats = Z.of_nat (length (bookBreakdown stats))
  /\ NoDup (map fst (bookBreakdown stats))
  /\ Forall (fun p => inherited (fst p) = false /\ (1 <= chunkCount (snd p))%Z)
       (bookBreakdown stats)
  /\ (forall title,
        count_for title (bookBreakdown stats)
        = if inherited title then 0%Z else titled title chunks)
  /\ counted (bookBreakdown stats)
     = Z.of_nat (length (filter (fun c => negb (inherited (title_of c))) chunks))
  /\ (totalBooks stats <= counted (bookBreakdown stats) <= totalChunks stats)%Z.
Proof.
  intros stats chunks. subst stats. unfold getBookStats. fold chunks.
  destruct (length chunks =? 0) eqn:E0.
  - apply Nat.eqb_eq in E0. destruct chunks; [|discriminate].
    cbn [totalChunks totalBooks bookBreakdown length map filter counted fold_right].
    split; [reflexivity|]. split; [reflexivity|]. split; [constructor|].
    split; [constructor|].
    split; [intros title; destruct (inherited title); reflexivity|].
    split; [reflexivity|lia].
  - cbn [totalChunks totalBooks bookBreakdown].
    destruct (stats_fold chunks []) as (Hcount & Hnodup & Hkeys & Hsum & Hpos).
    cbv zeta in *. cbn [count_for map counted fold_right] in *.
    specialize (Hnodup (NoDup_nil _)). specialize (Hkeys (Forall_nil _)).
    specialize (Hpos (Forall_nil _)).
    fold (counted (fold_left stats_step chunks [])) in Hsum.
    split; [reflexivity|]. split; [reflexivity|]. split; [exact Hnodup|].
    split.
    { apply Forall_forall. intros p Hp. split.
      - apply (proj1 (Forall_forall _ _) Hkeys). apply in_map, Hp.
      - apply (proj1 (Forall_forall _ _) Hpos p Hp). }
    split; [intros title; rewrite Hcount; destruct (inherited title); lia|].
    split; [rewrite Hsum; lia|].
    split; [apply counted_lower, Hpos|].
    rewrite Hsum.
    pose proof (filter_length_le (fun c => negb (inherited (title_of c))) chunks).
    lia.
Qed.

(** In binary64: a chunk titled [constructor] is counted in
    [totalChunks] and in no book, a chunk without a title is filed under
    'Unknown', and a token count of 0 or none adds nothing. *)
Example getBookStats_inherited_title :
  getBookStats
    (FileChunks
       [ {| id := None; content := js "a"; embedding := [1]%float;
            metadata := {| book_title := Some (js "constructor");
                           chunk_index := None; chunk_length := None;
                           estimated_tokens := Some 7%Z; file_path := None;
                           file_type := None; estimated_page := None;
                           page_number := None; chapter := None;
                           uploaded_at := None |} |};
         {| id := None; content := js "b"; embedding := [1]%float;
            metadata := {| book_title := None;
                           chunk_index := None; chunk_length := None;
                           estimated_tokens := None; file_path := None;
                           file_type := None; estimated_page := None;
                           page_number := None; chapter := None;
                           uploaded_at := None |} |} ])
  = {| totalChunks := 2; totalBooks := 1;
       bookBreakdown :=
         [(js "Unknown", {| chunkCount := 1; totalTokens := 0%float |})] |}.
Proof. vm_compute. reflexivity. Qed.

(** ** The chat route: calls and failures *)

Section RouteCalls.
Context {num : Type} `{JSNumber num}.

Lemma top_chunks_length (row : MatchRow num) (rows : list (MatchRow num)) :
  1 <= length (slice 0 (Some 5%Z) (row :: rows)) <= 5
  /\ length (slice 0 (Some 5%Z) (row :: rows)) <= length (row :: rows).
Proof.
  rewrite slice_prefix by lia. rewrite length_firstn. cbn [length].
  change (Z.to_nat 5) with 5. lia.
Qed.

Ltac bounded_case :=
  unfold calls_bounded;
  cbn [fst snd status body search_calls chat_contexts embedding_calls
       json_response ret app];
  split; [auto|];
  split; [intros; first [reflexivity | exfalso; lia]|];
  split; [cbn [length]; lia|];
  split; [first [exists 0; reflexivity | exists 1; reflexivity
                | exists 2; reflexivity | exists 3; reflexivity]|];
  split; [cbn [length]; lia|];
  split; [first [apply Forall_nil
               | apply Forall_cons; [apply top_chunks_length|apply Forall_nil]]|];
  split; [intros; first [reflexivity | congruence]|];
  split; [intros; congruence|];
  let E := fresh "E" in
  intros ? ? ? ? E;
  first
    [ discriminate E
    | match type of E with
      | AnswerBody _ ?s _ ?k = AnswerBody _ ?s' _ ?k' =>
          replace s' with s by congruence; replace k' with k by congruence
      end;
      split; [reflexivity|];
      first
        [ split; [cbn [length]; lia|]; split; [cbn [length]; lia|];
          split; intros; reflexivity
        | rewrite length_map_indexed;
          split; [apply top_chunks_length|]; split; [apply top_chunks_length|];
          let E' := fresh "E" in
          split; intros E'; cbn [length] in E'; discriminate E' ] ].

(** X10. Every run of [POST], whatever the request and whatever the
    providers answer: the status is 200, 400 or 500; a 400 is sent before
    any call; the route makes at most one embedding call, its searches are
    the first steps of the relaxation table in order, and at most one chat
    call follows, with one to five rows as context; an answer carries at
    most five sources, never more than the chunks found. *)
Theorem POST_calls_bounded (env : Providers num)
    (request_json : result (JSValue num)) :
  calls_bounded (POST env request_json).
Proof.
  unfold POST, try_catch, POST_body, bindIO at 1, lift at 1.
  destruct request_json as [request|e]; cbn [bind]; [|bounded_case].
  destruct (destructure_question request) as [question|e]; [|bounded_case].
  destruct question as [| |b|n|q|items|properties]; try bounded_case.
  destruct (negb (truthy (JSString q)) || (length (trim q) =? 0));
    [bounded_case|].
  destruct (1000 <? length q); [bounded_case|].
  unfold generateEmbedding, generateChatResponse, remoteSearchBookChunks,
    try_catch, bindIO, call, lift, json_response, ret, throw.
  cbn [app].
  repeat match goal with
    | |- context [match ?x with _ => _ end] =>
        lazymatch x with
        | context [match _ with _ => _ end] => fail
        | _ => destruct x eqn:?
        end
    end.
  all: repeat match goal with
    | Hb : (length ?l =? 0) = _ |- _ =>
        destruct l; cbn [length Nat.eqb] in Hb; try discriminate Hb; clear Hb
    end.
  all: try match goal with Hb : true = false |- _ => discriminate Hb end.
  all: bounded_case.
Qed.

Lemma remoteSearch_error (env : Providers num) (v : list num) (thr : num)
    (cap : Z) (e : Error) (log : list (Call num)) :
  error (match_book_chunks env v thr cap) = Some e ->
  remoteSearchBookChunks env v thr cap log
  = (Throw e, log ++ [SearchCall v thr cap]).
Proof.
  intros E. unfold remoteSearchBookChunks, bindIO, call. rewrite E. reflexivity.
Qed.

(** The route up to the embedding call, for an accepted question. *)
Ltac enter_route Hq Hl Ht Hlong :=
  unfold POST, try_catch, POST_body, bindIO at 1, lift at 1; cbn [bind];
  rewrite Hq; cbn [truthy]; rewrite Hl, Ht, Hlong; cbn [negb orb];
  unfold bindIO at 1;
  unfold generateEmbedding, try_catch, bindIO at 1, call, lift; cbn [app].

(** X11. For an accepted question, a failure of a provider ends the
    request with status 500 and the provider's message, and no later call
    is made: when the embedding fails nothing is searched; when the store
    reports an error at a step of the relaxation (the steps before it
    having returned no row) no lower threshold is tried and the chat model
    is not called, also when the store sent rows along with the error. *)
Theorem POST_provider_failure (env : Providers num) (request : JSValue num)
    (q : jsstring) :
  destructure_question request = Ok (JSString q) ->
  valid_question q ->
  (forall e,
     embeddings_create env (trim q) = Throw e ->
     POST env (Ok request)
     = (unexpected_error ("Failed to generate embedding: " ++ message e),
        [EmbeddingCall (trim q)]))
  /\ (forall v e,
        embeddings_create env (trim q) = Ok v ->
        error (match_book_chunks env v (decimal 3 10) 10) = Some e ->
        POST env (Ok request)
        = (unexpected_error (message e),
           [EmbeddingCall (trim q); SearchCall v (decimal 3 10) 10]))
  /\ (forall v e,
        embeddings_create env (trim q) = Ok v ->
        error (match_book_chunks env v (decimal 3 10) 10) = None ->
        rpc_rows env v (decimal 3 10) 10 = [] ->
        error (match_book_chunks env v (decimal 2 10) 15) = Some e ->
        POST env (Ok request)
        = (unexpected_error (message e),
           [EmbeddingCall (trim q); SearchCall v (decimal 3 10) 10;
            SearchCall v (decimal 2 10) 15]))
  /\ (forall v e,
        embeddings_create env (trim q) = Ok v ->
        error (match_book_chunks env v (decimal 3 10) 10) = None ->
        rpc_rows env v (decimal 3 10) 10 = [] ->
        error (match_book_chunks env v (decimal 2 10) 15) = None ->
        rpc_rows env v (decimal 2 10) 15 = [] ->
        error (match_book_chunks env v (decimal 1 10) 20) = Some e ->
        POST env (Ok request)
        = (unexpected_error (message e),
           [EmbeddingCall (trim q); SearchCall v (decimal 3 10) 10;
            SearchCall v (decimal 2 10) 15; SearchCall v (decimal 1 10) 20])).
Proof.
  intros Hq [Hne Hlen].
  destruct (trim_nonempty_length q Hne) as [Ht Hl].
  assert (Hlong : (1000 <? length q) = false) by (apply Nat.ltb_ge; lia).
  split.
  { intros e He. enter_route Hq Hl Ht Hlong. rewrite He. reflexivity. }
  split.
  { intros v e Hv He. enter_route Hq Hl Ht Hlong. rewrite Hv.
    unfold bindIO at 1.
    rewrite (remoteSearch_error env v _ _ e _ He). reflexivity. }
  split.
  { intros v e Hv H1 R1 He. enter_route Hq Hl Ht Hlong. rewrite Hv.
    unfold bindIO at 1.
    rewrite remoteSearch_ok by exact H1. rewrite R1.
    unfold bindIO at 1. cbn [length Nat.eqb].
    rewrite (remoteSearch_error env v _ _ e _ He). reflexivity. }
  intros v e Hv H1 R1 H2 R2 He. enter_route Hq Hl Ht Hlong. rewrite Hv.
  unfold bindIO at 1.
  rewrite remoteSearch_ok by exact H1. rewrite R1.
  unfold bindIO at 1. cbn [length Nat.eqb].
  rewrite remoteSearch_ok by exact H2. rewrite R2.
  unfold bindIO at 1. cbn [length Nat.eqb].
  rewrite (remoteSearch_error env v _ _ e _ He). reflexivity.
Qed.
End RouteCalls.

Lemma POST_provider_failure_witness :
  POST failing_store (Ok sample_request)
  = (unexpected_error "connection timed out",
     [EmbeddingCall (trim sample_question);
      SearchCall [1; 0]%float (decimal 3 10) 10;
      SearchCall [1; 0]%float (decimal 2 10) 15]).
Proof.
  destruct (POST_provider_failure failing_store sample_request sample_question
              eq_refl sample_question_valid)
    as (_ & _ & Hsecond & _).
  apply (Hsecond [1; 0]%float (mkError "connection timed out"));
    vm_compute; reflexivity.
Defined.

(** ** The chat route over the linear-scan store *)

Lemma prefix_app (w a b : string) :
  String.prefix w a = true -> String.prefix w (a ++ b)%string = true.
Proof.
  revert a. induction w as [|c w IH]; intros a Hp.
  - destruct a; [destruct b|]; reflexivity.
  - destruct a as [|c' a]; [discriminate|].
    cbn [String.append String.prefix] in *.
    destruct (ascii_dec c c'); [|discriminate]. apply IH, Hp.
Qed.

Lemma includes_app_l (a b w : string) :
  includes a w = true -> includes (a ++ b) w = true.
Proof.
  induction a as [|c a IH]; intros Ha.
  - cbn [includes] in Ha. destruct (String.prefix w EmptyString) eqn:E; [|discriminate].
    destruct w; [|discriminate]. destruct b; reflexivity.
  - cbn [includes] in Ha. cbn [String.append includes].
    destruct (String.prefix w (String c a)) eqn:E.
    + change (String c (a ++ b)) with (String c a ++ b)%string.
      rewrite (prefix_app _ _ b E). reflexivity.
    + rewrite (IH Ha).
      destruct (String.prefix w (String c (a ++ b))); reflexivity.
Qed.

(** The error of a failed search is the error of [cosineSimilarity]. *)
Lemma searchBookChunks_throw_message {num} `{JSNumber num}
    (file : ChunksFile num) (q : list num) (thr : num) (limit : Z) (e : Error) :
  searchBookChunks file q thr limit = Throw e ->
  e = mkError "Vectors must have the same length".
Proof.
  unfold searchBookChunks.
  destruct (length (loadBookChunks file) =? 0); [discriminate|].
  induction (loadBookChunks file) as [|c l IH]; cbn [map_result bind].
  - discriminate.
  - destruct (score_cases q c) as [Hc | [sc Hc]]; rewrite Hc; cbn [bind].
    + congruence.
    + destruct (map_result (score q) l); cbn [bind] in *; [discriminate|].
      exact IH.
Qed.

Section LocalRouteProofs.
Context {num : Type} `{JSNumber num}.

(** X12. In the route over the local store, a failure of the embedding
    call is always answered with status 500 and "Failed to process your
    question", whatever the provider's message says: the message is
    wrapped by [generateEmbedding] before the [catch] block looks for the
    word "embedding" in it.  Nothing is searched and the chat model is not
    called. *)
Theorem local_POST_embedding_failure (env : LocalProviders num)
    (file : ChunksFile num) (request : JSValue num) (q : jsstring) (e : Error) :
  destructure_question request = Ok (JSString q) ->
  valid_question q ->
  local_embeddings_create env (trim q) = Throw e ->
  local_POST env file (Ok request)
  = ({| local_status := 500;
        local_body :=
          LocalError "Failed to process your question. Please try again." |},
     [LocalEmbeddingCall (trim q)]).
Proof.
  intros Hq [Hne Hlen] He.
  destruct (trim_nonempty_length q Hne) as [Ht Hl].
  assert (Hlong : (1000 <? length q) = false) by (apply Nat.ltb_ge; lia).
  unfold local_POST, local_POST_body. cbn [bind].
  rewrite Hq. cbn [truthy]. rewrite Hl, Ht, Hlong. cbn [negb orb].
  rewrite He. unfold local_catch. cbn [message].
  rewrite includes_app_l by reflexivity. reflexivity.
Qed.

(** X13. In the route over the local store, once the question is embedded:
    a search that returns no chunk, as every search does when the chunks
    file is missing, unreadable or empty, is answered with status 200 and
    the "cannot find" message, never with the 503 "Book data not
    available"; and a stored embedding of another length than the
    question's is answered with the generic 500.  In both cases the chat
    model is not called. *)
Theorem local_POST_store_outcomes (env : LocalProviders num)
    (file : ChunksFile num) (request : JSValue num) (q : jsstring)
    (v : list num) :
  destructure_question request = Ok (JSString q) ->
  valid_question q ->
  local_embeddings_create env (trim q) = Ok v ->
  (searchBookChunks file v (decimal 75 100) 5 = Ok [] ->
   local_POST env file (Ok request)
   = ({| local_status := 200;
         local_body := LocalAnswer NOT_FOUND_ANSWER [] zero None |},
      [LocalEmbeddingCall (trim q)]))
  /\ (loadBookChunks file = [] ->
      searchBookChunks file v (decimal 75 100) 5 = Ok [])
  /\ (Exists (fun c => length (embedding c) <> length v) (loadBookChunks file) ->
      local_POST env file (Ok request)
      = ({| local_status := 500;
            local_body :=
              LocalError "An unexpected error occurred. Please try again." |},
         [LocalEmbeddingCall (trim q)])).
Proof.
  intros Hq [Hne Hlen] Hv.
  destruct (trim_nonempty_length q Hne) as [Ht Hl].
  assert (Hlong : (1000 <? length q) = false) by (apply Nat.ltb_ge; lia).
  split; [|split].
  - intros Hs. unfold local_POST, local_POST_body. cbn [bind].
    rewrite Hq. cbn [truthy]. rewrite Hl, Ht, Hlong. cbn [negb orb].
    rewrite Hv, Hs. reflexivity.
  - intros Hempty. unfold searchBookChunks. rewrite Hempty. reflexivity.
  - intros Hex.
    assert (Hs : searchBookChunks file v (decimal 75 100) 5
                 = Throw (mkError "Vectors must have the same length")).
    { destruct (searchBookChunks file v (decimal 75 100) 5) as [out|e] eqn:E.
      - exfalso.
        destruct (Forall_Exists_dec (fun c => length (embedding c) = length v)
                    (fun c => Nat.eq_dec (length (embedding c)) (length v))
                    (loadBookChunks file)) as [Hall|_].
        + apply Exists_exists in Hex. destruct Hex as (c & Hin & Hc).
          apply Hc. apply (proj1 (Forall_forall _ _) Hall c Hin).
        + unfold searchBookChunks in E.
          destruct (length (loadBookChunks file) =? 0) eqn:E0.
          * apply Nat.eqb_eq in E0.
            destruct (loadBookChunks file); [inversion Hex|discriminate].
          * rewrite (@map_result_throw _ _ (score v) (loadBookChunks file)
                       (mkError "Vectors must have the same length")) in E.
            -- discriminate.
            -- apply Forall_forall. intros c _. apply score_cases.
            -- eapply Exists_impl; [|exact Hex]. intros c Hc.
               apply score_throws, Hc.
      - f_equal. eapply searchBookChunks_throw_message. exact E. }
    unfold local_POST, local_POST_body. cbn [bind].
    rewrite Hq. cbn [truthy]. rewrite Hl, Ht, Hlong. cbn [negb orb].
    rewrite Hv, Hs. reflexivity.
Qed.

End LocalRouteProofs.

Lemma local_POST_embedding_failure_witness :
  local_POST
    (sample_local_providers (Throw (mkError "429 rate limit")) (Ok (js "unused")))
    FileMissing (Ok sample_request)
  = ({| local_status := 500;
        local_body :=
          LocalError "Failed to process your question. Please try again." |},
     [LocalEmbeddingCall (trim sample_question)]).
Proof.
  apply (local_POST_embedding_failure
           (sample_local_providers (Throw (mkError "429 rate limit"))
              (Ok (js "unused")))
           FileMissing sample_request sample_question
           (mkError "429 rate limit") eq_refl sample_question_valid eq_refl).
Defined.

Lemma local_POST_store_outcomes_witness :
  local_POST
    (sample_local_providers (Ok [1; 0]%float) (Ok (js "unused")))
    FileMissing (Ok sample_request)
  = ({| local_status := 200;
        local_body := LocalAnswer NOT_FOUND_ANSWER [] zero None |},
     [LocalEmbeddingCall (trim sample_question)]).
Proof.
  destruct (local_POST_store_outcomes
              (sample_local_providers (Ok [1; 0]%float) (Ok (js "unused")))
              FileMissing sample_request sample_question [1; 0]%float
              eq_refl sample_question_valid eq_refl)
    as (Hnone & Hempty & _).
  exact (Hnone (Hempty eq_refl)).
Defined.


(** ** Ingestion into the remote store: repeated runs *)

Section UploadRuns.
Context {num : Type} `{JSNumber num}.




Lemma accepted_rows_titles (world : World num) (file : BookFile)
    (content : jsstring) :
  Forall (fun r => has_title (title file) r = true)
    (rows_of (accepted_batches world (batches 10 (new_rows world file content)))).
Proof.
  destruct (accepted_rows_prefix world (new_rows world file content)) as [k ->].
  apply Forall_forall. intros r Hr. apply firstn_In in Hr.
  revert r Hr. apply Forall_forall. apply processedChunks_titles.
Qed.

(** The rows a run adds and the count it returns depend on the world and
    the file only; the table they are added to is the table of the start,
    without the rows of the book when the run has deleted them. *)
Lemma processBookToSupabase_shape (world : World num) (file : BookFile)
    (clearExisting : bool) :
  exists (added : list (BookChunkRow num)) (count : nat),
    Forall (fun r => has_title (title file) r = true) added
    /\ forall db,
         fst (processBookToSupabase world file clearExisting db) = count
         /\ table (snd (processBookToSupabase world file clearExisting db))
            = (if clearExisting
                  && jsstring_eqb (extension file) (js ".txt")
                  && match delete_error world with None => true | _ => false end
               then other_books (title file) (table db)
               else table db) ++ added.
Proof.
  unfold processBookToSupabase.
  destruct (jsstring_eqb (extension file) (js ".txt")) eqn:Eext; cbn [negb].
  2:{ exists [], 0. split; [constructor|]. intros db. cbn [fst snd].
      rewrite andb_false_r, app_nil_r. split; reflexivity. }
  rewrite andb_true_r.
  destruct clearExisting; cbn [andb].
  - unfold clearBookChunks.
    destruct (delete_error world) as [e|] eqn:Edel.
    { exists [], 0. split; [constructor|]. intros db. cbn [fst snd].
      rewrite app_nil_r. split; reflexivity. }
    unfold write.
    destruct (contents file) as [content|e] eqn:Econtent.
    2:{ exists [], 0. split; [constructor|]. intros db. cbn [fst snd table].
        rewrite app_nil_r. split; reflexivity. }
    destruct (length content <? 100) eqn:Eshort.
    { exists [], 0. split; [constructor|]. intros db. cbn [fst snd table].
      rewrite app_nil_r. split; reflexivity. }
    cbv zeta. fold (new_rows world file content).
    set (new := new_rows world file content).
    set (accepted := accepted_batches world (batches 10 new)).
    exists (rows_of accepted),
      (if length accepted =? length (batches 10 new) then length new else 0).
    split; [apply accepted_rows_titles|].
    intros db. unfold uploadChunksToSupabase.
    destruct (upload_loop_run world (batches 10 new) 0
                {| table := filter (fun r => negb (has_title (title file) r))
                              (table db);
                   written := written db
                              ++ [filter (fun r => negb (has_title (title file) r))
                                    (table db)] |})
      as (r & Hrun & Hok & Hfail).
    cbn [table written] in Hrun. rewrite Hrun. fold accepted in Hok, Hfail |- *.
    destruct (length accepted =? length (batches 10 new)) eqn:Eall.
    + apply Nat.eqb_eq in Eall. rewrite (Hok Eall). cbn [fst snd table].
      unfold batches. rewrite batches_rows_all by lia.
      split; reflexivity.
    + apply Nat.eqb_neq in Eall. destruct (Hfail Eall) as [e ->].
      cbn [fst snd table]. split; reflexivity.
  - destruct (contents file) as [content|e] eqn:Econtent.
    2:{ exists [], 0. split; [constructor|]. intros db. cbn [fst snd table].
        rewrite app_nil_r. split; reflexivity. }
    destruct (length content <? 100) eqn:Eshort.
    { exists [], 0. split; [constructor|]. intros db. cbn [fst snd table].
      rewrite app_nil_r. split; reflexivity. }
    cbv zeta. fold (new_rows world file content).
    set (new := new_rows world file content).
    set (accepted := accepted_batches world (batches 10 new)).
    exists (rows_of accepted),
      (if length accepted =? length (batches 10 new) then length new else 0).
    split; [apply accepted_rows_titles|].
    intros db. unfold uploadChunksToSupabase.
    destruct (upload_loop_run world (batches 10 new) 0 db)
      as (r & Hrun & Hok & Hfail).
    rewrite Hrun. fold accepted in Hok, Hfail |- *.
    destruct (length accepted =? length (batches 10 new)) eqn:Eall.
    + apply Nat.eqb_eq in Eall. rewrite (Hok Eall). cbn [fst snd table].
      unfold batches. rewrite batches_rows_all by lia.
      split; reflexivity.
    + apply Nat.eqb_neq in Eall. destruct (Hfail Eall) as [e ->].
      cbn [fst snd table]. split; reflexivity.
Qed.


End UploadRuns.

(** ** The ingestion scripts *)

Lemma js_inj (s t : string) : js s = js t -> s = t.
Proof.
  unfold js. intros E.
  rewrite <- (string_of_list_ascii_of_string s),
          <- (string_of_list_ascii_of_string t).
  f_equal.
  assert (Hinj : forall l l' : list ascii,
             map N_of_ascii l = map N_of_ascii l' -> l = l').
  { induction l as [|a l IH]; intros [|a' l'] E'; try discriminate; [reflexivity|].
    injection E' as Ea El. f_equal; [|apply IH, El].
    rewrite <- (ascii_N_embedding a), <- (ascii_N_embedding a'), Ea.
    reflexivity. }
  apply Hinj, E.
Qed.

Lemma decimal_numeral_inj (n n' : nat) :
  decimal_numeral n = decimal_numeral n' -> n = n'.
Proof.
  unfold decimal_numeral. intros E. apply js_inj in E.
  apply Unsigned.to_uint_inj.
  assert (Hs : Some (Nat.to_uint n) = Some (Nat.to_uint n'))
    by (rewrite <- !NilEmpty.usu, E; reflexivity).
  injection Hs as Hs. exact Hs.
Qed.

Lemma numeral_digits (d : Decimal.uint) :
  Forall (fun c => is_alphanumeric c = true) (js (NilEmpty.string_of_uint d)).
Proof.
  induction d; cbn [NilEmpty.string_of_uint]; unfold js in *;
    cbn [list_ascii_of_string map]; constructor; solve [reflexivity | assumption].
Qed.

Lemma generateChunkId_index (bookTitle : jsstring) :
  forall i j,
    generateChunkId bookTitle i = generateChunkId bookTitle j -> i = j.
Proof.
  intros i j. unfold generateChunkId. intros E.
  apply app_inv_head in E. apply app_inv_head in E.
  apply decimal_numeral_inj, E.
Qed.

(** X17. The identifier [generateChunkId] makes holds only letters, digits
    and underscores, and for one title it is different for different
    indices: the chunks of a book get pairwise distinct identifiers. *)
Theorem generateChunkId_distinct (bookTitle : jsstring) :
  (forall chunkIndex,
     Forall (fun c => is_alphanumeric c = true \/ c = UNDERSCORE)
       (generateChunkId bookTitle chunkIndex))
  /\ (forall i j,
        generateChunkId bookTitle i = generateChunkId bookTitle j <-> i = j).
Proof.
  split.
  - intros chunkIndex. unfold generateChunkId.
    apply Forall_app. split; [|apply Forall_app; split].
    + apply Forall_forall. intros c Hc. apply in_map_iff in Hc.
      destruct Hc as (c' & <- & _).
      destruct (is_alphanumeric c') eqn:E; [left; exact E|right; reflexivity].
    + repeat constructor; solve [left; reflexivity | right; reflexivity].
    + eapply Forall_impl; [|apply numeral_digits]. intros c Hc. left. exact Hc.
  - intros i j. split; [apply generateChunkId_index|intros ->; reflexivity].
Qed.

Lemma map_indexed_shift {A B} (f : nat -> A -> B) (i k : nat) (l : list A) :
  map_indexed (fun index => f (i + index)) k l = map_indexed f (i + k) l.
Proof.
  revert k. induction l as [|x l IH]; intros k; [reflexivity|].
  cbn [map_indexed]. rewrite IH. rewrite Nat.add_succ_r. reflexivity.
Qed.

Lemma map_indexed_app {A B} (f : nat -> A -> B) (i : nat) (a b : list A) :
  map_indexed f i (a ++ b)
  = map_indexed f i a ++ map_indexed f (i + length a) b.
Proof.
  revert i. induction a as [|x a IH]; intros i.
  - cbn [app map_indexed length]. rewrite Nat.add_0_r. reflexivity.
  - cbn [app map_indexed length]. rewrite IH, Nat.add_succ_r. reflexivity.
Qed.

Lemma filter_some_app {A} (a b : list (option A)) :
  filter_some (a ++ b) = filter_some a ++ filter_some b.
Proof.
  induction a as [|[x|] a IH]; cbn [app filter_some]; [reflexivity| |exact IH].
  rewrite IH. reflexivity.
Qed.

Lemma filter_some_length {A} (l : list (option A)) :
  length (filter_some l) <= length l.
Proof.
  induction l as [|[x|] l IH]; cbn [filter_some length]; lia.
Qed.

(** Embedding batch by batch, each batch numbered from its offset, is
    embedding the whole list numbered from 0. *)
Lemma batches_flat {A B} (f : nat -> A -> option B) (fuel n i : nat)
    (l : list A) :
  1 <= n -> length l - i <= fuel ->
  flat_map
    (fun '(i, batch) =>
       filter_some (map_indexed (fun index => f (i + index)) 0 batch))
    (batches_from fuel n l i)
  = filter_some (map_indexed f i (skipn i l)).
Proof.
  intros Hn. revert i. induction fuel as [|fuel IH]; intros i Hfuel.
  - simpl. rewrite skipn_all2 by lia. reflexivity.
  - cbn [batches_from]. destruct (i <? length l) eqn:E.
    + apply Nat.ltb_lt in E. cbn [flat_map].
      rewrite IH by lia. rewrite slice_range, skipn_add.
      rewrite map_indexed_shift, Nat.add_0_r.
      rewrite <- (firstn_skipn n (skipn i l)) at 3.
      rewrite map_indexed_app, filter_some_app. f_equal.
      destruct (Nat.le_gt_cases n (length (skipn i l))) as [Hle|Hgt].
      * rewrite length_firstn, Nat.min_l by exact Hle. reflexivity.
      * rewrite skipn_all2 by lia. reflexivity.
    + apply Nat.ltb_ge in E. rewrite skipn_all2 by lia. reflexivity.
Qed.

Section IngestProofs.
Context {num : Type} `{JSNumber num}.

Lemma processBook_loop_run (world : World num) (file : BookFile)
    (todo : list (nat * list jsstring)) (processedCount : nat)
    (allChunks : list (Chunk num)) :
  let new :=
    flat_map
      (fun '(i, batch) =>
         filter_some (map_indexed (embed_local_chunk world file i) 0 batch))
      todo in
  processBook_loop world file todo processedCount allChunks
  = (processedCount + length new, allChunks ++ new).
Proof.
  cbv zeta. revert processedCount allChunks.
  induction todo as [|[i batch] rest IH]; intros processedCount allChunks.
  - cbn [processBook_loop flat_map length]. rewrite Nat.add_0_r, app_nil_r.
    reflexivity.
  - cbn [processBook_loop flat_map]. rewrite IH.
    rewrite length_app, Nat.add_assoc, app_assoc. reflexivity.
Qed.

(** The chunk objects of a book, batch by batch, are [local_chunks]. *)
Lemma processBook_main (world : World num) (file : BookFile)
    (content : jsstring) (allChunks : list (Chunk num)) :
  processBook_loop world file
    (batches 5 (splitTextIntoChunks (cleanText content) CHUNK_SIZE CHUNK_OVERLAP))
    0 allChunks
  = (length (local_chunks world file content),
     allChunks ++ local_chunks world file content).
Proof.
  rewrite processBook_loop_run. cbv zeta. cbn [Nat.add].
  set (chunks := splitTextIntoChunks (cleanText content) CHUNK_SIZE CHUNK_OVERLAP).
  match goal with
  | |- context [flat_map ?g ?t] =>
      assert (E : flat_map g t = local_chunks world file content)
  end.
  { exact (batches_flat (embed_local_chunk world file 0) (length chunks) 5 0
             chunks ltac:(lia) ltac:(lia)). }
  rewrite E. reflexivity.
Qed.

(** The indices of the chunk objects made of a list of chunks of text,
    numbered from [i], increase. *)
Lemma embedded_indices (world : World num) (file : BookFile) (i : nat)
    (chunks : list jsstring) :
  exists indices,
    StronglySorted lt indices
    /\ Forall (fun k => i <= k < i + length chunks) indices
    /\ map (@id num) (filter_some (map_indexed (embed_local_chunk world file 0) i chunks))
       = map (fun k => Some (generateChunkId (title file) k)) indices
    /\ map (fun c => chunk_index (metadata c))
         (filter_some (map_indexed (embed_local_chunk world file 0) i chunks))
       = map (fun k => Some (Z.of_nat k)) indices.
Proof.
  revert i. induction chunks as [|chunk chunks IH]; intros i.
  - exists []. repeat split; constructor.
  - destruct (IH (S i)) as (indices & Hsorted & Hrange & Hids & Hidx).
    cbn [map_indexed]. unfold embed_local_chunk at 1 3.
    destruct (create_embedding world chunk); cbn [filter_some].
    + exists (i :: indices). cbn [Nat.add map id metadata chunk_index].
      split.
      { constructor; [exact Hsorted|].
        eapply Forall_impl; [|exact Hrange]. intros k Hk. cbn beta in Hk. lia. }
      split.
      { constructor; [cbn [length]; lia|].
        eapply Forall_impl; [|exact Hrange]. intros k Hk. cbn [length].
        cbn beta in Hk. lia. }
      split; [rewrite Hids|rewrite Hidx]; reflexivity.
    + exists indices. split; [exact Hsorted|]. split.
      { eapply Forall_impl; [|exact Hrange]. intros k Hk. cbn [length].
        cbn beta in Hk. lia. }
      split; assumption.
Qed.

Lemma NoDup_map_injective {A B} (f : A -> B) (l : list A) :
  (forall x y, f x = f y -> x = y) -> NoDup l -> NoDup (map f l).
Proof.
  intros Hinj. induction 1 as [|x l Hx _ IH]; cbn [map]; constructor; [|exact IH].
  intros Hin. apply in_map_iff in Hin. destruct Hin as (y & E & Hy).
  apply Hinj in E. subst y. exact (Hx Hy).
Qed.

Lemma StronglySorted_lt_NoDup (l : list nat) : StronglySorted lt l -> NoDup l.
Proof.
  induction 1 as [|k l _ IH Hk]; constructor; [|exact IH].
  intros Hin. apply (proj1 (Forall_forall _ _) Hk) in Hin. lia.
Qed.

(** X18. [processBook] of the local ingestion only appends to the array of
    its caller, and the count it returns is the number of chunk objects it
    appended, also when embedding calls fail or the file cannot be read.
    The objects it appends carry the title of the book, identifiers that
    are pairwise distinct and indices that strictly increase; for a text
    that is read and long enough they are the chunks of the cleaned text
    whose embedding succeeds, numbered by position: batching does not
    show. *)
Theorem processBook_appends (world : World num) (file : BookFile)
    (allChunks : list (Chunk num)) :
  exists new,
    processBook world file allChunks = (length new, allChunks ++ new)
    /\ Forall (fun c => book_title (metadata c) = Some (title file)) new
    /\ NoDup (map (@id num) new)
    /\ (exists indices,
          StronglySorted lt indices
          /\ map (fun c => chunk_index (metadata c)) new
             = map (fun k => Some (Z.of_nat k)) indices)
    /\ forall content,
         extension file = js ".txt" ->
         contents file = Ok content ->
         100 <= length content ->
         new = local_chunks world file content
         /\ length new
            <= length (splitTextIntoChunks (cleanText content)
                         CHUNK_SIZE CHUNK_OVERLAP).
Proof.
  assert (Hnone :
    processBook world file allChunks = (0, allChunks) ->
    (forall content,
       extension file = js ".txt" -> contents file = Ok content ->
       100 <= length content -> False) ->
    exists new : list (Chunk num),
      processBook world file allChunks = (length new, allChunks ++ new)
      /\ Forall (fun c => book_title (metadata c) = Some (title file)) new
      /\ NoDup (map (@id num) new)
      /\ (exists indices,
            StronglySorted lt indices
            /\ map (fun c => chunk_index (metadata c)) new
               = map (fun k => Some (Z.of_nat k)) indices)
      /\ forall content,
           extension file = js ".txt" -> contents file = Ok content ->
           100 <= length content ->
           new = local_chunks world file content
           /\ length new
              <= length (splitTextIntoChunks (cleanText content)
                           CHUNK_SIZE CHUNK_OVERLAP)).
  { intros Hrun Hno. exists []. rewrite app_nil_r.
    split; [exact Hrun|]. split; [constructor|]. split; [constructor|].
    split; [exists []; split; constructor|].
    intros content H1 H2 H3. destruct (Hno content H1 H2 H3). }
  unfold processBook in *.
  destruct (jsstring_eqb (extension file) (js ".txt")) eqn:Eext; cbn [negb] in *.
  2:{ apply Hnone; [reflexivity|]. intros content Hext.
      rewrite Hext, jsstring_eqb_refl in Eext. discriminate. }
  destruct (contents file) as [content|e] eqn:Econtent.
  2:{ apply Hnone; [reflexivity|]. intros content _ Hc. discriminate. }
  destruct (length content <? 100) eqn:Eshort.
  { apply Hnone; [reflexivity|]. intros content' _ Hc Hlen.
    injection Hc as <-. apply Nat.ltb_lt in Eshort. lia. }
  clear Hnone. cbv zeta. rewrite processBook_main.
  exists (local_chunks world file content).
  split; [reflexivity|].
  destruct (embedded_indices world file 0
              (splitTextIntoChunks (cleanText content) CHUNK_SIZE CHUNK_OVERLAP))
    as (indices & Hsorted & Hrange & Hids & Hidx).
  fold (local_chunks world file content) in Hids, Hidx.
  split.
  { unfold local_chunks. apply Forall_forall. intros c Hc.
    apply filter_some_indexed in Hc. destruct Hc as (j & chunk & E).
    unfold embed_local_chunk in E.
    destruct (create_embedding world chunk); [|discriminate].
    injection E as <-. reflexivity. }
  split.
  { rewrite Hids. apply NoDup_map_injective.
    - intros i j E. injection E as E.
      apply (generateChunkId_index (title file) i j), E.
    - apply StronglySorted_lt_NoDup, Hsorted. }
  split; [exists indices; split; assumption|].
  intros content' _ Hc _. injection Hc as <-.
  split; [reflexivity|].
  unfold local_chunks.
  eapply Nat.le_trans; [apply filter_some_length|].
  rewrite length_map_indexed. constructor.
Qed.

Lemma local_chunks_titles (world : World num) (file : BookFile)
    (content : jsstring) :
  Forall (fun c => book_title (metadata c) = Some (title file))
    (local_chunks world file content).
Proof.
  unfold local_chunks. apply Forall_forall. intros c Hc.
  apply filter_some_indexed in Hc. destruct Hc as (j & chunk & E).
  unfold embed_local_chunk in E.
  destruct (create_embedding world chunk); [|discriminate].
  injection E as <-. reflexivity.
Qed.

Lemma processBook_count (world : World num) (file : BookFile)
    (allChunks : list (Chunk num)) :
  exists new,
    processBook world file allChunks = (length new, allChunks ++ new)
    /\ Forall (fun c => book_title (metadata c) = Some (title file)) new.
Proof.
  unfold processBook.
  destruct (negb (jsstring_eqb (extension file) (js ".txt")));
    [exists []; rewrite app_nil_r; split; [reflexivity|constructor]|].
  destruct (contents file) as [content|e];
    [|exists []; rewrite app_nil_r; split; [reflexivity|constructor]].
  destruct (length content <? 100);
    [exists []; rewrite app_nil_r; split; [reflexivity|constructor]|].
  cbv zeta. rewrite processBook_main.
  exists (local_chunks world file content).
  split; [reflexivity|apply local_chunks_titles].
Qed.

(** The loop of [ingestBooks] over the files. *)
Lemma ingest_fold (world : World num) (files : list BookFile)
    (total : nat) (allChunks : list (Chunk num)) :
  exists new,
    fold_left
      (fun '(total, allChunks) filePath =>
         let '(chunkCount, allChunks) := processBook world filePath allChunks in
         (total + chunkCount, allChunks))
      files (total, allChunks)
    = (total + length new, allChunks ++ new)
    /\ Forall (fun c => exists f, In f files
                                  /\ book_title (metadata c) = Some (title f))
         new.
Proof.
  revert total allChunks.
  induction files as [|f files IH]; intros total allChunks.
  - exists []. cbn [fold_left length]. rewrite Nat.add_0_r, app_nil_r.
    split; [reflexivity|constructor].
  - cbn [fold_left].
    destruct (processBook_count world f allChunks) as (new & -> & Hnew).
    destruct (IH (total + length new) (allChunks ++ new)) as (rest & -> & Hrest).
    exists (new ++ rest).
    rewrite length_app, Nat.add_assoc, app_assoc.
    split; [reflexivity|]. apply Forall_app. split.
    + eapply Forall_impl; [|exact Hnew]. intros c Hc. exists f.
      split; [left; reflexivity|exact Hc].
    + eapply Forall_impl; [|exact Hrest]. intros c (f' & Hin & Hc). exists f'.
      split; [right; exact Hin|exact Hc].
Qed.

(** X19. A run of the local [ingestBooks] reports as its total the number
    of chunk objects it made.  When it made at least one, the chunks file
    it leaves holds these objects and nothing of what the file held
    before, each titled after a [.txt] file of the directory, and
    [getBookStats] then reports the same total; when it made none, the
    chunks file is left as it was. *)
Theorem ingestBooks_replaces_store (world : World num)
    (directory : list BookFile) (stored : ChunksFile num) :
  exists allChunks,
    fst (ingestBooks world directory stored) = length allChunks
    /\ snd (ingestBooks world directory stored)
       = (if 0 <? length allChunks then FileChunks allChunks else stored)
    /\ Forall (fun c => exists f,
                  In f directory /\ extension f = js ".txt"
                  /\ book_title (metadata c) = Some (title f)) allChunks
    /\ (0 < length allChunks ->
        loadBookChunks (snd (ingestBooks world directory stored)) = allChunks
        /\ totalChunks (getBookStats (snd (ingestBooks world directory stored)))
           = Z.of_nat (fst (ingestBooks world directory stored))).
Proof.
  unfold ingestBooks.
  set (supportedFiles :=
         filter (fun f => jsstring_eqb (extension f) (js ".txt")) directory).
  destruct (length supportedFiles =? 0) eqn:E0.
  { exists []. cbn [fst snd length Nat.ltb Nat.leb].
    split; [reflexivity|]. split; [reflexivity|]. split; [constructor|].
    intros Hlt. inversion Hlt. }
  destruct (ingest_fold world supportedFiles 0 []) as (new & Hfold & Htitles).
  cbn [Nat.add app] in Hfold. rewrite Hfold.
  exists new. cbn [fst snd].
  split; [reflexivity|]. split; [reflexivity|]. split.
  { eapply Forall_impl; [|exact Htitles]. intros c (f & Hin & Hc).
    apply filter_In in Hin. destruct Hin as [Hin Hext].
    apply jsstring_eqb_eq in Hext. exists f. auto. }
  intros Hpos.
  assert (Hlt : (0 <? length new) = true) by (apply Nat.ltb_lt, Hpos).
  rewrite Hlt. cbn [loadBookChunks]. split; [reflexivity|].
  unfold getBookStats. cbn [loadBookChunks].
  destruct (length new =? 0) eqn:En; [apply Nat.eqb_eq in En; lia|].
  reflexivity.
Qed.

Lemma insert_loop_run (world : World num) (file : BookFile)
    (todo : list (nat * list jsstring)) (processedCount : nat)
    (db : Database num) :
  exists added,
    fst (insert_loop world file todo processedCount db)
    = processedCount + length added
    /\ table (snd (insert_loop world file todo processedCount db))
       = table db ++ added
    /\ Forall (fun r => has_title (title file) r = true) added
    /\ length added <= length (concat (map snd todo))
    /\ ((forall i, insert_error world i = None) ->
        added
        = flat_map
            (fun '(i, batch) =>
               filter_some (map_indexed (embed_remote_chunk world file i) 0 batch))
            todo).
Proof.
  revert processedCount db.
  induction todo as [|[i batch] rest IH]; intros processedCount db.
  - exists []. cbn [insert_loop fst snd length map concat flat_map].
    rewrite Nat.add_0_r, app_nil_r. repeat split; constructor.
  - cbn [insert_loop map concat snd flat_map].
    set (embeddedChunks :=
           filter_some (map_indexed (embed_remote_chunk world file i) 0 batch)).
    assert (Hlen : length embeddedChunks <= length batch).
    { unfold embeddedChunks. eapply Nat.le_trans; [apply filter_some_length|].
      rewrite length_map_indexed. constructor. }
    assert (Htitles : Forall (fun r => has_title (title file) r = true)
                        embeddedChunks).
    { unfold embeddedChunks. apply Forall_forall. intros r Hr.
      apply filter_some_indexed in Hr. destruct Hr as (j & chunk & E).
      unfold embed_remote_chunk in E.
      destruct (create_embedding world chunk); [|discriminate].
      injection E as <-. unfold has_title. cbn [chunk_metadata book_title].
      apply jsstring_eqb_refl. }
    destruct (0 <? length embeddedChunks) eqn:Epos.
    + destruct (insert_error world i) as [e|] eqn:Eins.
      * destruct (IH processedCount db) as (added & Hc & Ht & Hall & Hle & Hfl).
        exists added. split; [exact Hc|]. split; [exact Ht|].
        split; [exact Hall|]. split; [rewrite length_app; lia|].
        intros Hno. rewrite Hno in Eins. discriminate.
      * destruct (IH (processedCount + length embeddedChunks)
                    (snd (write (table db ++ embeddedChunks) db)))
          as (added & Hc & Ht & Hall & Hle & Hfl).
        exists (embeddedChunks ++ added).
        rewrite Hc, Ht. unfold write. cbn [snd table].
        rewrite !length_app, <- app_assoc.
        split; [lia|]. split; [reflexivity|].
        split; [apply Forall_app; split; assumption|].
        split; [lia|].
        intros Hno. rewrite (Hfl Hno). reflexivity.
    + destruct (IH processedCount db) as (added & Hc & Ht & Hall & Hle & Hfl).
      exists added. split; [exact Hc|]. split; [exact Ht|].
      split; [exact Hall|]. split; [rewrite length_app; lia|].
      intros Hno. rewrite (Hfl Hno).
      apply Nat.ltb_ge in Epos.
      destruct embeddedChunks; [reflexivity|cbn [length] in Epos; lia].
Qed.

(** X20. [processBook] of the ingestion script with EPUB support only
    appends rows of the book to the table, and the count it returns is
    the number of rows it added, also when inserts or embedding calls
    fail: a failed insert loses its batch and the loop goes on.  It adds
    at most one row per chunk of the text, and when no insert fails the
    rows are those of the chunks whose embedding succeeds, in order and
    numbered by position. *)
Theorem processBook_remote_count (world : World num) (file : BookFile)
    (db : Database num) :
  exists added,
    fst (processBook_remote world file db) = length added
    /\ table (snd (processBook_remote world file db)) = table db ++ added
    /\ Forall (fun r => has_title (title file) r = true) added
    /\ forall content,
         contents file = Ok content ->
         length added
         <= length (splitTextIntoChunks content CHUNK_SIZE CHUNK_OVERLAP)
         /\ (extension file = js ".epub" \/ extension file = js ".txt" ->
             100 <= length content ->
             (forall i, insert_error world i = None) ->
             added
             = filter_some
                 (map_indexed (embed_remote_chunk world file 0) 0
                    (splitTextIntoChunks content CHUNK_SIZE CHUNK_OVERLAP))).
Proof.
  unfold processBook_remote.
  destruct (jsstring_eqb (extension file) (js ".epub")
            || jsstring_eqb (extension file) (js ".txt")) eqn:Eext.
  2:{ exists []. cbn [fst snd length]. rewrite app_nil_r.
      split; [reflexivity|]. split; [reflexivity|]. split; [constructor|].
      intros content _. split; [lia|]. intros Hext. exfalso.
      apply orb_false_iff in Eext. destruct Eext as [E1 E2].
      destruct Hext as [Hext|Hext]; rewrite Hext, jsstring_eqb_refl in *;
        discriminate. }
  destruct (contents file) as [content|e].
  2:{ exists []. cbn [fst snd length]. rewrite app_nil_r.
      split; [reflexivity|]. split; [reflexivity|]. split; [constructor|].
      intros content E. discriminate E. }
  destruct (length content <? 100) eqn:Eshort.
  { exists []. cbn [fst snd length]. rewrite app_nil_r.
    split; [reflexivity|]. split; [reflexivity|]. split; [constructor|].
    intros content' E. injection E as <-. split; [lia|].
    intros _ Hlen. apply Nat.ltb_lt in Eshort. lia. }
  cbv zeta.
  set (chunks := splitTextIntoChunks content CHUNK_SIZE CHUNK_OVERLAP).
  destruct (insert_loop_run world file (batches 3 chunks) 0 db)
    as (added & Hc & Ht & Hall & Hle & Hflat).
  exists added. split; [exact Hc|]. split; [exact Ht|]. split; [exact Hall|].
  intros content' E. injection E as <-. fold chunks. split.
  - eapply Nat.le_trans; [exact Hle|].
    unfold batches.
    assert (Hrows : forall (fuel n i : nat) (l : list jsstring),
               1 <= n -> length l - i <= fuel ->
               concat (map snd (batches_from fuel n l i)) = skipn i l).
    { intros fuel n. induction fuel as [|fuel IH]; intros i l Hn Hfuel.
      - simpl. rewrite skipn_all2 by lia. reflexivity.
      - cbn [batches_from]. destruct (i <? length l) eqn:E.
        + cbn [map concat snd]. apply Nat.ltb_lt in E.
          rewrite IH by lia. rewrite slice_range, skipn_add.
          apply firstn_skipn.
        + apply Nat.ltb_ge in E. rewrite skipn_all2 by lia. reflexivity. }
    rewrite Hrows by lia. constructor.
  - intros _ _ Hno. rewrite (Hflat Hno).
    exact (batches_flat (embed_remote_chunk world file 0) (length chunks) 3 0
             chunks ltac:(lia) ltac:(lia)).
Qed.
End IngestProofs.

(** ** The similarity in exact arithmetic: scaling *)







(** ** The embedding loop of the upload script *)

Section UploadBatches.
Context {num : Type} `{JSNumber num}.

Lemma embedded_rows_indices (world : World num) (file : BookFile) (i : nat)
    (chunks : list jsstring) :
  Forall (fun c => exists e, create_embedding world c = Ok e) chunks ->
  map (fun r => chunk_index (chunk_metadata r))
    (filter_some (map_indexed (embed_chunk world file 0) i chunks))
  = map (fun k => Some (Z.of_nat k)) (seq i (length chunks))
  /\ map (@chunk_content num)
       (filter_some (map_indexed (embed_chunk world file 0) i chunks))
     = chunks.
Proof.
  intros Hall. revert i.
  induction Hall as [|chunk chunks [e He] _ IH]; intros i; [split; reflexivity|].
  cbn [map_indexed length seq map]. unfold embed_chunk at 1 3. rewrite He.
  cbn [filter_some map chunk_metadata chunk_index chunk_content Nat.add].
  destruct (IH (S i)) as [E1 E2]. rewrite E1, E2. split; reflexivity.
Qed.

(** X22. The embedding loop of the upload script, batch by batch, yields
    the rows of the chunks whose embedding succeeds, in the order of the
    text and numbered by position: the batches of 5 do not show.  There
    are at most as many rows as chunks, and when every embedding succeeds
    the rows carry the chunks in order and the indices 0, 1, 2, ... *)
Theorem processedChunks_unbatched (world : World num) (file : BookFile)
    (textChunks : list jsstring) :
  processedChunks world file textChunks
  = filter_some (map_indexed (embed_chunk world file 0) 0 textChunks)
  /\ length (processedChunks world file textChunks) <= length textChunks
  /\ (Forall (fun c => exists e, create_embedding world c = Ok e) textChunks ->
      map (@chunk_content num) (processedChunks world file textChunks)
      = textChunks
      /\ map (fun r => chunk_index (chunk_metadata r))
           (processedChunks world file textChunks)
         = map (fun k => Some (Z.of_nat k)) (seq 0 (length textChunks))).
Proof.
  assert (E : processedChunks world file textChunks
              = filter_some (map_indexed (embed_chunk world file 0) 0 textChunks)).
  { unfold processedChunks, batches.
    exact (batches_flat (embed_chunk world file 0) (length textChunks) 5 0
             textChunks ltac:(lia) ltac:(lia)). }
  rewrite E. split; [reflexivity|]. split.
  - eapply Nat.le_trans; [apply filter_some_length|].
    rewrite length_map_indexed. constructor.
  - intros Hall.
    destruct (embedded_rows_indices world file 0 textChunks Hall) as [E1 E2].
    split; assumption.
Qed.
End UploadBatches.

(** ** The token estimate *)

(** X23. The token estimate is at least 2 for every string, the empty
    string included, since splitting yields at least one piece; and it is
    at most the estimate of as many words as the string has code units,
    plus one. *)
Theorem estimateTokens_bounds (text : jsstring) :
  (2 <= estimateTokens text
   <= (4 * (Z.of_nat (length text) + 1) + 2) / 3)%Z
  /\ estimateTokens [] = 2%Z.
Proof.
  split; [|reflexivity].
  unfold estimateTokens.
  assert (Hlow : 1 <= length (split_on is_space text)).
  { pose proof (split_on_nonempty is_space text).
    destruct (split_on is_space text); [congruence|cbn [length]; lia]. }
  assert (Hup : length (split_on is_space text) <= length text + 1).
  { induction text as [|c text IH]; [cbn; lia|].
    cbn [split_on length].
    destruct (is_space c).
    - destruct text as [|c' text']; [cbn; lia|].
      destruct (is_space c'); cbn [length] in *; lia.
    - destruct (split_on is_space text); cbn [length] in *; lia. }
  split.
  - apply Z.div_le_lower_bound; lia.
  - apply Z.div_le_mono; lia.
Qed.

(** ** The chunker after the cleaner *)

Lemma hd_default_space (s : jsstring) :
  is_space (hd SPACE s) = false -> is_space (hd 0%N s) = false.
Proof. destruct s; [discriminate|auto]. Qed.

Lemma hd_default_zero (s : jsstring) (c : char) :
  is_space c = false -> is_space (hd 0%N s) = false ->
  is_space (hd 0%N (s ++ [c])) = false.
Proof. destruct s; auto. Qed.

Lemma single_spaced_snoc (s : jsstring) (c : char) :
  single_spaced s = true -> is_space c = false ->
  single_spaced (s ++ [c]) = true.
Proof.
  intros Hs Hc. induction s as [|x s IH].
  - cbn [app]. rewrite single_spaced_cons, Hc. reflexivity.
  - cbn [app]. rewrite single_spaced_cons in *.
    apply andb_true_iff in Hs. destruct Hs as [Hx Hs].
    rewrite (IH Hs), andb_true_r.
    destruct (is_space x); [|reflexivity].
    apply andb_true_iff in Hx. destruct Hx as [Hx Hnext].
    rewrite Hx. cbn [andb]. apply negb_true_iff in Hnext.
    rewrite (hd_default_zero s c Hc Hnext). reflexivity.
Qed.

Lemma single_spaced_join2 (a b : jsstring) :
  single_spaced a = true -> single_spaced b = true ->
  is_space (last a SPACE) = false ->
  is_space (hd SPACE b) = false ->
  single_spaced (a ++ [SPACE] ++ b) = true.
Proof.
  intros Ha Hb Hlast Hhd. induction a as [|x a IH]; [discriminate|].
  destruct a as [|y a'].
  - cbn [app]. cbn [last] in Hlast.
    rewrite single_spaced_cons, Hlast. cbn [andb].
    rewrite single_spaced_cons. cbn [hd].
    rewrite (hd_default_space b Hhd), Hb. reflexivity.
  - change ((x :: y :: a') ++ [SPACE] ++ b)
      with (x :: ((y :: a') ++ [SPACE] ++ b)).
    rewrite single_spaced_cons in Ha |- *.
    apply andb_true_iff in Ha. destruct Ha as [Hx Ha].
    rewrite (IH Ha Hlast), andb_true_r. exact Hx.
Qed.

Lemma single_spaced_word (w : jsstring) :
  Forall (fun c => is_space c = false) w -> single_spaced w = true.
Proof.
  induction 1 as [|c w Hc _ IH]; [reflexivity|].
  rewrite single_spaced_cons, Hc, IH. reflexivity.
Qed.

Lemma single_spaced_join (ws : list jsstring) :
  Forall (fun w => clean w /\ single_spaced w = true) ws ->
  single_spaced (join [SPACE] ws) = true.
Proof.
  induction 1 as [|w ws [Hc Hs] Hws IH]; [reflexivity|].
  destruct ws as [|w' ws']; [exact Hs|].
  rewrite (join_cons [SPACE] w (w' :: ws')) by discriminate.
  apply single_spaced_join2; [exact Hs|exact IH|apply Hc|].
  inversion Hws as [|? ? [Hc' _] Hrest]; subst.
  rewrite join_hd.
  - apply Hc'.
  - cbn [hd]. apply clean_nonempty, Hc'.
Qed.

(** The pieces between terminators of a single-spaced text are
    single-spaced. *)
Lemma split_on_separator_first (sep : char -> bool) (d : char) (t : jsstring) :
  sep (hd d t) = true -> t <> [] -> hd [] (split_on sep t) = [].
Proof.
  induction t as [|x t IHt]; [congruence|].
  intros Hx _. cbn [hd] in Hx.
  destruct t as [|x' t'].
  - cbn [split_on]. rewrite Hx. reflexivity.
  - rewrite split_on_cons, Hx.
    destruct (sep x') eqn:Ex'; [|reflexivity].
    apply IHt; [exact Ex'|discriminate].
Qed.

(** The pieces between separators of a single-spaced text are
    single-spaced. *)
Lemma split_on_single_spaced (sep : char -> bool) (s : jsstring) :
  single_spaced s = true ->
  Forall (fun piece => single_spaced piece = true) (split_on sep s)
  /\ (is_space (hd 0%N s) = false ->
      is_space (hd 0%N (hd [] (split_on sep s))) = false).
Proof.
  induction s as [|c s IH]; intros Hs.
  - split; [repeat constructor|auto].
  - rewrite single_spaced_cons in Hs.
    apply andb_true_iff in Hs. destruct Hs as [Hc Hs].
    destruct (IH Hs) as [Hpieces Hhd].
    destruct s as [|c' s'].
    + cbn [split_on]. destruct (sep c).
      * split; [repeat constructor|reflexivity].
      * split; [|auto].
        constructor; [|constructor].
        rewrite single_spaced_cons. cbn [hd single_spaced].
        rewrite andb_true_r. destruct (is_space c); [|reflexivity].
        apply andb_true_iff in Hc. destruct Hc as [-> _]. reflexivity.
    + rewrite split_on_cons.
      destruct (sep c).
      * destruct (sep c') eqn:Ec'.
        -- split; [exact Hpieces|]. intros _.
           rewrite (split_on_separator_first sep c' (c' :: s') Ec')
             by discriminate.
           reflexivity.
        -- split; [constructor; [reflexivity|exact Hpieces]|reflexivity].
      * pose proof (split_on_nonempty sep (c' :: s')) as Hne.
        destruct (split_on sep (c' :: s')) as [|piece rest]; [congruence|].
        inversion Hpieces as [|? ? Hpiece Hrest]; subst.
        cbn [hd] in Hhd. split.
        -- constructor; [|exact Hrest].
           rewrite single_spaced_cons, Hpiece, andb_true_r.
           destruct (is_space c); [|reflexivity].
           apply andb_true_iff in Hc. destruct Hc as [Hc Hnext].
           rewrite Hc. cbn [andb hd] in *. apply negb_true_iff in Hnext.
           rewrite (Hhd Hnext). reflexivity.
        -- cbn [hd]. auto.
Qed.

Lemma sentences_single_spaced (text : jsstring) :
  single_spaced text = true ->
  Forall (fun s => clean s /\ single_spaced s = true) (sentences_of text).
Proof.
  intros Ht. unfold sentences_of, split_sentences.
  apply Forall_forall. intros s Hs. apply in_map_iff in Hs.
  destruct Hs as (raw & <- & Hraw). apply filter_In in Hraw.
  destruct Hraw as [Hraw Hlen]. split.
  - apply sentence_clean. destruct (trim raw); [discriminate|discriminate].
  - apply single_spaced_snoc; [|reflexivity].
    apply trim_single_spaced.
    apply (proj1 (Forall_forall _ _)
             (proj1 (split_on_single_spaced is_terminator text Ht)) raw Hraw).
Qed.

Lemma overlap_seed_single_spaced (overlap : Z) (c : jsstring) :
  (0 <= overlap)%Z -> clean c ->
  single_spaced (overlap_seed overlap c) = true
  /\ is_space (last (overlap_seed overlap c) SPACE) = false.
Proof.
  intros Ho Hc. unfold overlap_seed.
  destruct (overlap_words overlap c Ho Hc) as [Hne Hwords].
  set (ws := slice (- overlap) None (split_on is_space c)) in *.
  assert (Hcs : Forall (fun w => clean w /\ single_spaced w = true) ws).
  { eapply Forall_impl; [|exact Hwords]. intros w [Hw Hall]. split.
    - split.
      + destruct w as [|x w]; [congruence|]. inversion Hall; assumption.
      + assert (Hin : In (last w SPACE) w) by (apply last_In, Hw).
        apply (proj1 (Forall_forall _ _) Hall _ Hin).
    - apply single_spaced_word, Hall. }
  split; [apply single_spaced_join, Hcs|].
  assert (Hlast : In (last ws []) ws) by (apply last_In, Hne).
  pose proof (proj1 (Forall_forall _ _) Hcs _ Hlast) as [Hclean _].
  rewrite join_last by (apply clean_nonempty, Hclean).
  apply Hclean.
Qed.

Lemma assemble_single_spaced (overlap : Z) (previous : option jsstring)
    (blocks : list (list jsstring)) :
  (0 <= overlap)%Z ->
  match previous with Some p => clean p | None => True end ->
  Forall (fun b => b <> []) blocks ->
  Forall (fun s => clean s /\ single_spaced s = true) (concat blocks) ->
  Forall (fun c => single_spaced c = true) (assemble overlap previous blocks).
Proof.
  intros Ho. revert previous.
  induction blocks as [|block blocks IH]; intros previous Hprev Hne Hall;
    [constructor|].
  cbn [assemble concat] in *. apply Forall_app in Hall.
  destruct Hall as [Hblock Hrest].
  inversion Hne as [|? ? Hb Hbs]; subst.
  assert (Hcleans : Forall clean block)
    by (eapply Forall_impl; [|exact Hblock]; intros s [Hs _]; exact Hs).
  constructor.
  - destruct previous as [p|]; cbn [chunk_of].
    + destruct (overlap_seed_single_spaced overlap p Ho Hprev) as [Hseed Hlast].
      apply single_spaced_join2;
        [exact Hseed|apply single_spaced_join, Hblock|exact Hlast|].
      apply (block_join_clean block Hb Hcleans).
    + apply single_spaced_join, Hblock.
  - apply IH; [|exact Hbs|exact Hrest].
    apply chunk_of_clean; assumption.
Qed.

(** X24. The chunks made of a cleaned text hold no white space other than
    single spaces between words: for a non-negative overlap, every chunk
    of [splitTextIntoChunks(cleanText(text))], as the ingestion scripts
    call it, is single-spaced. *)
Theorem chunks_of_cleanText_single_spaced (text : jsstring)
    (chunkSize overlap : Z) :
  (0 <= overlap)%Z ->
  Forall (fun c => single_spaced c = true)
    (splitTextIntoChunks (cleanText text) chunkSize overlap).
Proof.
  intros Ho. unfold splitTextIntoChunks.
  destruct (finalizedChunks_assemble (cleanText text) chunkSize overlap Ho)
    as (blocks & Hne & Hcat & Hasm & _).
  assert (Hall : Forall (fun c => single_spaced c = true)
                   (finalizedChunks (cleanText text) chunkSize overlap)).
  { rewrite Hasm. apply assemble_single_spaced; [exact Ho|exact I|exact Hne|].
    rewrite Hcat. apply sentences_single_spaced.
    rewrite cleanText_unfold.
    apply trim_single_spaced, collapse_spaces_single_spaced. }
  apply Forall_forall. intros c Hc. apply filter_In in Hc.
  apply (proj1 (Forall_forall _ _) Hall c (proj1 Hc)).
Qed.

Lemma chunks_of_cleanText_single_spaced_witness :
  (0 <= 50)%Z
  /\ Forall (fun c => single_spaced c = true)
       (splitTextIntoChunks (cleanText (sample_book 240)) 400 50).
Proof.
  split; [lia|].
  apply (chunks_of_cleanText_single_spaced (sample_book 240) 400 50). lia.
Defined.

(** ** The upload of several books *)

Section UploadBooks.
Context {num : Type} `{JSNumber num}.

Lemma filter_other_books (P : BookChunkRow num -> bool) (bookTitle : jsstring)
    (rows : list (BookChunkRow num)) :
  (forall r, P r = true -> has_title bookTitle r = false) ->
  filter P (other_books bookTitle rows) = filter P rows.
Proof.
  intros HP. unfold other_books. induction rows as [|r rows IH]; [reflexivity|].
  cbn [filter]. destruct (has_title bookTitle r) eqn:Et; cbn [negb filter].
  - destruct (P r) eqn:Ep; [|exact IH].
    rewrite (HP r Ep) in Et. discriminate.
  - rewrite IH. reflexivity.
Qed.

Lemma filter_none {A} (P : A -> bool) (l : list A) :
  Forall (fun x => P x = false) l -> filter P l = [].
Proof.
  induction 1 as [|x l Hx _ IH]; [reflexivity|].
  cbn [filter]. rewrite Hx. exact IH.
Qed.

Lemma upload_fold (all todo : list (World num * BookFile)) (total : nat)
    (db db0 : Database num) :
  (forall b, In b todo -> In b all) ->
  let run :=
    fold_left
      (fun '(totalChunks, db) '(world, filePath) =>
         let '(chunkCount, db) := processBookToSupabase world filePath true db in
         (totalChunks + chunkCount, db))
      todo (total, db) in
  filter (foreign_row all) (table (snd run)) = filter (foreign_row all) (table db)
  /\ fst run
     = total
       + list_sum (map (fun b => fst (processBookToSupabase (fst b) (snd b) true db0))
                     todo).
Proof.
  cbv zeta. revert total db.
  induction todo as [|[world file] todo IH]; intros total db Hin.
  - cbn [fold_left fst snd map list_sum fold_right]. split; [reflexivity|lia].
  - cbn [fold_left map list_sum fold_right fst snd].
    destruct (processBookToSupabase_shape world file true)
      as (added & count & Htitles & Hrun).
    destruct (Hrun db) as [Hc Ht]. destruct (Hrun db0) as [Hc0 _].
    destruct (processBookToSupabase world file true db) as [chunkCount db'].
    cbn [fst snd] in Hc, Ht.
    destruct (IH (total + chunkCount) db') as [Hkeep Hsum].
    { intros b Hb. apply Hin. right. exact Hb. }
    rewrite Hkeep, Hsum, Ht, Hc, Hc0.
    assert (Hforeign : forall r, foreign_row all r = true ->
                                 has_title (title file) r = false).
    { intros r Hr. unfold foreign_row in Hr. apply negb_true_iff in Hr.
      destruct (has_title (title file) r) eqn:E; [|reflexivity].
      assert (Hex : existsb (fun b => has_title (title (snd b)) r) all = true).
      { apply existsb_exists. exists (world, file). split; [|exact E].
        apply Hin. left. reflexivity. }
      congruence. }
    split; [|unfold list_sum; cbn [fold_right]; lia].
    rewrite filter_app.
    rewrite (filter_none (foreign_row all) added).
    2:{ eapply Forall_impl; [|exact Htitles]. intros r Hr.
        destruct (foreign_row all r) eqn:E; [|reflexivity].
        pose proof (Hforeign r E) as Hf. cbn beta in Hr. congruence. }
    rewrite app_nil_r.
    destruct (true && jsstring_eqb (extension file) (js ".txt")
              && match delete_error world with None => true | _ => false end);
      [|reflexivity].
    apply filter_other_books, Hforeign.
Qed.

(** X25. The loop of [uploadBooksToSupabase] leaves the rows of every book
    that is not among the files as they were, in their order, whatever
    fails on the way; and the total it reports is the sum of the counts
    the books would return one by one, from any table. *)
Theorem uploadBooksToSupabase_keeps_other_books
    (bookFiles : list (World num * BookFile)) (db : Database num) :
  filter (foreign_row bookFiles) (table (snd (uploadBooksToSupabase bookFiles db)))
  = filter (foreign_row bookFiles) (table db)
  /\ forall db0,
       fst (uploadBooksToSupabase bookFiles db)
       = list_sum
           (map (fun b => fst (processBookToSupabase (fst b) (snd b) true db0))
              bookFiles).
Proof.
  unfold uploadBooksToSupabase. split.
  - apply (upload_fold bookFiles bookFiles 0 db db). auto.
  - intros db0.
    destruct (upload_fold bookFiles bookFiles 0 db db0) as [_ Hsum]; [auto|].
    exact Hsum.
Qed.
End UploadBooks.
